(** * Memoizing derivative engines of [scipy/optimize/_differentiable_functions.py]

    A shallow embedding of [ScalarFunction], [VectorFunction] and
    [LinearVectorFunction] together with their wrapper helpers, and the
    properties of their caches and evaluation counters.

    Conventions of the embedding:
    - a point is a 1-D float64 array, modelled as a list of binary64 floats
      (Rocq's primitive floats); [atleast_nd] and [astype] to the engine's
      floating dtype are then the identity and produce a fresh copy, so a
      stored point is a value of its own;
    - an engine is a record of its attributes and every method is a
      computation in a state-and-exception monad over that record;
    - an attribute that [__init__] assigns late (or never) is an [option]
      and reading it while unset raises [AttributeError];
    - one-letter attributes ([self.x], [self.f], ...) take a trailing
      underscore ([x_], [f_], ...), as does the method [fun];
    - a user callable is taken with the engine's fixed tuple [args]
      applied, and it returns a value, as [approx_derivative] does;
    - every call that leaves the module (a user callable, the
      finite-difference routine, a quasi-Newton update object) is recorded
      in the ghost attribute [trace]. *)

From Stdlib Require Import List Bool Arith Lia String ZArith.
From Stdlib Require Import Floats.
Import ListNotations.

Set Implicit Arguments.

(** ** Exceptions and the state-and-exception monad *)

Inductive exn : Type :=
| ValueError
| TypeError
| AttributeError
| UnboundLocalError.

Inductive res (A : Type) : Type :=
| Ok (a : A)
| Raise (e : exn).

Arguments Raise {A} e.

Definition M (S A : Type) : Type := S -> res (A * S).

Definition ret {S A : Type} (a : A) : M S A := fun s => Ok (a, s).

Definition bind {S A B : Type} (c : M S A) (k : A -> M S B) : M S B :=
  fun s => match c s with
           | Ok (a, s') => k a s'
           | Raise e => Raise e
           end.

Definition get {S : Type} : M S S := fun s => Ok (s, s).

Definition modify {S : Type} (f : S -> S) : M S unit := fun s => Ok (tt, f s).

Definition raise {S A : Type} (e : exn) : M S A := fun _ => Raise e.

Definition lift {S A : Type} (r : res A) : M S A :=
  fun s => match r with
           | Ok a => Ok (a, s)
           | Raise e => Raise e
           end.

(** Reading an attribute that may not have been assigned yet. *)
Definition attr {S A : Type} (field : S -> option A) : M S A :=
  fun s => match field s with
           | Some a => Ok (a, s)
           | None => Raise AttributeError
           end.

Definition when {S : Type} (b : bool) (c : M S unit) : M S unit :=
  if b then c else ret tt.

Declare Scope monad_scope.
Delimit Scope monad_scope with monad.
Notation "x <- c ;; k" := (bind c (fun x => k))
  (at level 61, c at next level, right associativity) : monad_scope.
Notation "c ;; k" := (bind c (fun _ => k))
  (at level 61, right associativity) : monad_scope.
Open Scope monad_scope.

(** ** Arrays *)

Definition vec : Type := list float.

(** [np.array_equal(a, b)]: same shape and [a == b] everywhere.  The
    comparison is IEEE equality: a NaN differs from itself and the two
    zeros are equal. *)
Fixpoint array_equal (a b : vec) : bool :=
  match a, b with
  | [], [] => true
  | p :: a', q :: b' => (p =? q)%float && array_equal a' b'
  | _, _ => false
  end.

Fixpoint zip_with (op : float -> float -> float) (a b : vec) : vec :=
  match a, b with
  | p :: a', q :: b' => op p q :: zip_with op a' b'
  | _, _ => []
  end.

(** [a - b] on 1-D arrays: elementwise on equal lengths, a length-one
    operand is broadcast, any other pair of shapes raises. *)
Definition np_sub (a b : vec) : res vec :=
  if Nat.eqb (List.length a) (List.length b) then Ok (zip_with PrimFloat.sub a b)
  else match a, b with
       | [p], _ => Ok (map (fun q => (p - q)%float) b)
       | _, [q] => Ok (map (fun p => (p - q)%float) a)
       | _, _ => Raise ValueError
       end.

Definition dot1 (r x : vec) : float :=
  fold_left PrimFloat.add (zip_with PrimFloat.mul r x) 0%float.

(** An explicit two-dimensional array, dense ([ndarray]) or compressed
    sparse row ([csr_array]), given by its rows. *)
Inductive matrix : Type :=
| Dense (rows : list vec)
| Sparse (rows : list vec).

Definition rows (a : matrix) : list vec :=
  match a with Dense r | Sparse r => r end.

Definition issparse (a : matrix) : bool :=
  match a with Sparse _ => true | Dense _ => false end.

Definition csr_array (a : matrix) : matrix := Sparse (rows a).
Definition toarray (a : matrix) : matrix := Dense (rows a).

(** [a.shape] of a 2-D array with at least one row. *)
Definition shape (a : matrix) : nat * nat :=
  (List.length (rows a), match rows a with [] => 0 | r :: _ => List.length r end).

(** [csr_array((m, n))]: the empty sparse array, all entries zero. *)
Definition csr_zeros (m n : nat) : matrix :=
  Sparse (repeat (repeat 0%float n) m).

(** [a.dot(x)]: the rows of [a] against [x]; a row of another length
    than [x] is a shape mismatch. *)
Definition dot (a : matrix) (x : vec) : res vec :=
  if forallb (fun r => Nat.eqb (List.length r) (List.length x)) (rows a)
  then Ok (map (fun r => dot1 r x) (rows a))
  else Raise ValueError.

Fixpoint axpy (c : float) (r acc : vec) : vec :=
  match r, acc with
  | p :: r', q :: acc' => (q + c * p)%float :: axpy c r' acc'
  | _, _ => acc
  end.

(** [a.T.dot(v)]: the combination of the rows of [a] with weights [v]. *)
Definition T_dot_rows (rs : list vec) (v : vec) : res vec :=
  if Nat.eqb (List.length rs) (List.length v)
  then Ok (fold_left (fun acc cr => axpy (fst cr) (snd cr) acc) (combine v rs)
             (repeat 0%float
                (match rs with [] => 0 | r :: _ => List.length r end)))
  else Raise ValueError.

(** What a derivative callable may return: an explicit array or a
    [LinearOperator], an opaque handle given by its products. *)
Inductive array2 : Type :=
| Mat (a : matrix)
| LinearOperator (matvec rmatvec : vec -> vec).

Definition T_dot (J : array2) (v : vec) : res vec :=
  match J with
  | Mat a => T_dot_rows (rows a) v
  | LinearOperator _ rmatvec => Ok (rmatvec v)
  end.

(** [sps.csr_array(J)] of a derivative value: a [LinearOperator] is not
    convertible. *)
Definition to_csr (a : array2) : res array2 :=
  match a with
  | Mat m => Ok (Mat (csr_array m))
  | LinearOperator _ _ => Raise TypeError
  end.

(** ** Derivative strategies and external collaborators *)

Definition FD_METHODS : list string := ["2-point"; "3-point"; "cs"]%string.

(** The [finite_diff_options] dictionary.  [passthrough] stands for the
    keys copied unchanged from the constructor's arguments ([rel_step],
    [abs_step], [bounds], [sparsity], [workers]). *)
Record fd_options (P : Type) : Type := mk_fd_options {
  method : option string;
  as_linear_operator : bool;
  full_output : bool;
  passthrough : P
}.

(** The collaborators the module imports: [HessianUpdateStrategy]
    objects and [approx_derivative].  A strategy object is mutable; its
    methods are state transformers.  [approx_derivative] returns the
    derivative and the number of function evaluations it consumed
    ([dct['nfev']]); it is split by the rank of its result. *)
Class Collaborators : Type := {
  HUS : Type;
  initialize : nat -> HUS -> HUS;
  update : vec -> vec -> HUS -> HUS;
  fd_user : Type;
  approx_derivative_1d :
    fd_options fd_user -> (vec -> float) -> vec -> option float -> vec * nat;
  approx_derivative_2d :
    fd_options fd_user -> (vec -> vec) -> vec -> option vec -> array2 * nat
}.

(** A [grad], [jac] or [hess] argument as the constructors inspect it:
    a callable, a string, a quasi-Newton object, or anything else. *)
Inductive pyarg {C : Collaborators} (F : Type) : Type :=
| Callable (c : F)
| Str (s : string)
| Strategy (h : HUS)
| NoneArg.

Arguments Str {C F} s.
Arguments Strategy {C F} h.
Arguments NoneArg {C F}.

Section Args.
Context {C : Collaborators} {F : Type}.

Definition callable (a : pyarg F) : bool :=
  match a with Callable _ => true | _ => false end.

Definition in_FD_METHODS (a : pyarg F) : bool :=
  match a with
  | Str s => existsb (String.eqb s) FD_METHODS
  | _ => false
  end.

Definition isinstance_HessianUpdateStrategy (a : pyarg F) : bool :=
  match a with Strategy _ => true | _ => false end.
End Args.

(** The value held in [self.H]: an array or operator, or the
    quasi-Newton object itself. *)
Inductive hessian {C : Collaborators} : Type :=
| HArr (a : array2)
| HStrategy (h : HUS).

(** Calls that leave the module. *)
Inductive event : Type :=
| EvFun (x : vec)
| EvGrad (x : vec)
| EvJac (x : vec)
| EvHess (x : vec)
| EvHessV (x v : vec)
| EvApproxGrad (x : vec) (f0 : option float)
| EvApproxJac (x : vec) (f0 : option vec)
| EvApproxHess (x : vec) (f0 : option vec)
| EvInitialize (n : nat)
| EvUpdate (delta_x delta_g : vec).

Definition is_EvFun (e : event) : bool :=
  match e with EvFun _ => true | _ => false end.

Definition is_EvUpdate (e : event) : bool :=
  match e with EvUpdate _ _ => true | _ => false end.

Definition is_EvJac (e : event) : bool :=
  match e with EvJac _ | EvApproxJac _ _ => true | _ => false end.

Definition count (p : event -> bool) (tr : list event) : nat :=
  List.length (filter p tr).

Definition evaluated_points (tr : list event) : list vec :=
  flat_map (fun e => match e with EvFun x => [x] | _ => [] end) tr.

(** ** [_ScalarGradWrapper] *)

Module _ScalarGradWrapper.
Section Defs.
Context {C : Collaborators}.

Record t : Type := mk {
  fun_ : vec -> float;
  grad : pyarg (vec -> vec);
  finite_diff_options : fd_options fd_user;
  ngev : nat;
  (* number of function evaluations consumed by finite difference *)
  nfev : nat
}.

Definition __init__ (grad : pyarg (vec -> vec)) (fun_ : vec -> float)
    (finite_diff_options : fd_options fd_user) : t :=
  mk fun_ grad finite_diff_options 0 0.

(** [__call__(x, f0)]: the gradient, the wrapper after the call and the
    calls made outside.  With a [grad] that is neither callable nor a
    finite-difference method the local [g] is never bound. *)
Definition __call__ (x : vec) (f0 : option float) (self : t)
    : res (vec * t * list event) :=
  match self.(grad) with
  | Callable gr =>
      Ok (gr x,
          mk self.(fun_) self.(grad) self.(finite_diff_options)
             (S self.(ngev)) self.(nfev),
          [EvGrad x])
  | a =>
      if in_FD_METHODS a then
        let '(g, dct_nfev) :=
          approx_derivative_1d self.(finite_diff_options) self.(fun_) x f0 in
        Ok (g,
            mk self.(fun_) self.(grad) self.(finite_diff_options)
               (S self.(ngev)) (self.(nfev) + dct_nfev),
            [EvApproxGrad x f0])
      else Raise UnboundLocalError
  end.

(** The wrapper as the function [approx_derivative] differentiates. *)
Definition as_function (self : t) (x : vec) : vec :=
  match __call__ x None self with
  | Ok (g, _, _) => g
  | Raise _ => []
  end.

End Defs.
End _ScalarGradWrapper.

(** ** [_ScalarHessWrapper] *)

Module _ScalarHessWrapper.
Section Defs.
Context {C : Collaborators}.

Inductive hess_func : Type :=
| _fd_hess
| _sparse_callable
| _dense_callable
| _linearoperator_callable.

Record t : Type := mk {
  hess : pyarg (vec -> array2);
  grad : option _ScalarGradWrapper.t;
  finite_diff_options : fd_options fd_user;
  (* keep track of any finite difference function evaluations for grad *)
  ngev : nat;
  nhev : nat;
  H : option array2;
  _hess_func : option hess_func
}.

Definition __init__ (hess : pyarg (vec -> array2)) (x0 : vec)
    (grad : option _ScalarGradWrapper.t)
    (finite_diff_options : fd_options fd_user) : t * list event :=
  match hess with
  | Callable h =>
      match h x0 with
      | Mat (Sparse r) =>
          (mk hess grad finite_diff_options 0 1 (Some (Mat (Sparse r)))
              (Some _sparse_callable), [EvHess x0])
      | LinearOperator mv rmv =>
          (mk hess grad finite_diff_options 0 1 (Some (LinearOperator mv rmv))
              (Some _linearoperator_callable), [EvHess x0])
      | Mat (Dense r) =>
          (mk hess grad finite_diff_options 0 1 (Some (Mat (Dense r)))
              (Some _dense_callable), [EvHess x0])
      end
  | a =>
      if in_FD_METHODS a
      then (mk hess grad finite_diff_options 0 0 None (Some _fd_hess), [])
      else (mk hess grad finite_diff_options 0 0 None None, [])
  end.

Definition call_hess (self : t) (x : vec) : res array2 :=
  match self.(hess) with
  | Callable h => Ok (h x)
  | _ => Raise TypeError
  end.

Definition __call__ (x : vec) (f0 : option vec) (self : t)
    : res (array2 * t * list event) :=
  match self.(_hess_func) with
  | None => Raise TypeError
  | Some _fd_hess =>
      match self.(grad) with
      | None => Raise TypeError
      | Some gw =>
          let '(H', dct_nfev) :=
            approx_derivative_2d self.(finite_diff_options)
              (_ScalarGradWrapper.as_function gw) x f0 in
          Ok (H',
              mk self.(hess) self.(grad) self.(finite_diff_options)
                 (self.(ngev) + dct_nfev) self.(nhev) (Some H')
                 self.(_hess_func),
              [EvApproxHess x f0])
      end
  | Some _sparse_callable =>
      match call_hess self x with
      | Raise e => Raise e
      | Ok h =>
          match to_csr h with
          | Raise e => Raise e
          | Ok H' =>
              Ok (H',
                  mk self.(hess) self.(grad) self.(finite_diff_options)
                     self.(ngev) (S self.(nhev)) (Some H') self.(_hess_func),
                  [EvHess x])
          end
      end
  | Some _dense_callable | Some _linearoperator_callable =>
      match call_hess self x with
      | Raise e => Raise e
      | Ok H' =>
          Ok (H',
              mk self.(hess) self.(grad) self.(finite_diff_options)
                 self.(ngev) (S self.(nhev)) (Some H') self.(_hess_func),
              [EvHess x])
      end
  end.

End Defs.
End _ScalarHessWrapper.

(** ** [ScalarFunction] *)

Module ScalarFunction.
Section Defs.
Context {C : Collaborators}.

(** [self._wrapped_hess]: the [_FakeCounter] named tuple of the
    quasi-Newton branch, or a [_ScalarHessWrapper]. *)
Inductive hess_wrapper : Type :=
| _FakeCounter (ngev nhev : nat)
| Wrapper (w : _ScalarHessWrapper.t).

(** The attributes.  [_wrapped_fun] is the user function with its fixed
    [args]; [_orig_hess] keeps the argument as passed and is only tested
    for its kind, the live quasi-Newton object is the one in [H_]. *)
Record t : Type := mk {
  _wrapped_fun : vec -> float;
  _orig_grad : pyarg (vec -> vec);
  _orig_hess : pyarg (vec -> array2);
  n_ : nat;
  x_ : vec;
  f_updated : bool;
  g_updated : bool;
  H_updated : bool;
  _lowest_x : option vec;
  _lowest_f : float;
  _nfev : nat;
  f_ : option float;
  _wrapped_grad : option _ScalarGradWrapper.t;
  g_ : option vec;
  H_ : option hessian;
  x_prev : option vec;
  g_prev : option vec;
  _wrapped_hess : option hess_wrapper;
  trace : list event
}.

Definition set_x_ (v : vec) (s : t) : t :=
  mk s.(_wrapped_fun) s.(_orig_grad) s.(_orig_hess) s.(n_) v
     s.(f_updated) s.(g_updated) s.(H_updated) s.(_lowest_x) s.(_lowest_f)
     s.(_nfev) s.(f_) s.(_wrapped_grad) s.(g_) s.(H_) s.(x_prev) s.(g_prev)
     s.(_wrapped_hess) s.(trace).

Definition set_f_updated (v : bool) (s : t) : t :=
  mk s.(_wrapped_fun) s.(_orig_grad) s.(_orig_hess) s.(n_) s.(x_)
     v s.(g_updated) s.(H_updated) s.(_lowest_x) s.(_lowest_f)
     s.(_nfev) s.(f_) s.(_wrapped_grad) s.(g_) s.(H_) s.(x_prev) s.(g_prev)
     s.(_wrapped_hess) s.(trace).

Definition set_g_updated (v : bool) (s : t) : t :=
  mk s.(_wrapped_fun) s.(_orig_grad) s.(_orig_hess) s.(n_) s.(x_)
     s.(f_updated) v s.(H_updated) s.(_lowest_x) s.(_lowest_f)
     s.(_nfev) s.(f_) s.(_wrapped_grad) s.(g_) s.(H_) s.(x_prev) s.(g_prev)
     s.(_wrapped_hess) s.(trace).

Definition set_H_updated (v : bool) (s : t) : t :=
  mk s.(_wrapped_fun) s.(_orig_grad) s.(_orig_hess) s.(n_) s.(x_)
     s.(f_updated) s.(g_updated) v s.(_lowest_x) s.(_lowest_f)
     s.(_nfev) s.(f_) s.(_wrapped_grad) s.(g_) s.(H_) s.(x_prev) s.(g_prev)
     s.(_wrapped_hess) s.(trace).

Definition set__lowest (p : vec) (v : float) (s : t) : t :=
  mk s.(_wrapped_fun) s.(_orig_grad) s.(_orig_hess) s.(n_) s.(x_)
     s.(f_updated) s.(g_updated) s.(H_updated) (Some p) v
     s.(_nfev) s.(f_) s.(_wrapped_grad) s.(g_) s.(H_) s.(x_prev) s.(g_prev)
     s.(_wrapped_hess) s.(trace).

Definition set__nfev (v : nat) (s : t) : t :=
  mk s.(_wrapped_fun) s.(_orig_grad) s.(_orig_hess) s.(n_) s.(x_)
     s.(f_updated) s.(g_updated) s.(H_updated) s.(_lowest_x) s.(_lowest_f)
     v s.(f_) s.(_wrapped_grad) s.(g_) s.(H_) s.(x_prev) s.(g_prev)
     s.(_wrapped_hess) s.(trace).

Definition set_f_ (v : float) (s : t) : t :=
  mk s.(_wrapped_fun) s.(_orig_grad) s.(_orig_hess) s.(n_) s.(x_)
     s.(f_updated) s.(g_updated) s.(H_updated) s.(_lowest_x) s.(_lowest_f)
     s.(_nfev) (Some v) s.(_wrapped_grad) s.(g_) s.(H_) s.(x_prev) s.(g_prev)
     s.(_wrapped_hess) s.(trace).

Definition set__wrapped_grad (v : _ScalarGradWrapper.t) (s : t) : t :=
  mk s.(_wrapped_fun) s.(_orig_grad) s.(_orig_hess) s.(n_) s.(x_)
     s.(f_updated) s.(g_updated) s.(H_updated) s.(_lowest_x) s.(_lowest_f)
     s.(_nfev) s.(f_) (Some v) s.(g_) s.(H_) s.(x_prev) s.(g_prev)
     s.(_wrapped_hess) s.(trace).

Definition set_g_ (v : vec) (s : t) : t :=
  mk s.(_wrapped_fun) s.(_orig_grad) s.(_orig_hess) s.(n_) s.(x_)
     s.(f_updated) s.(g_updated) s.(H_updated) s.(_lowest_x) s.(_lowest_f)
     s.(_nfev) s.(f_) s.(_wrapped_grad) (Some v) s.(H_) s.(x_prev) s.(g_prev)
     s.(_wrapped_hess) s.(trace).

Definition set_H_ (v : hessian) (s : t) : t :=
  mk s.(_wrapped_fun) s.(_orig_grad) s.(_orig_hess) s.(n_) s.(x_)
     s.(f_updated) s.(g_updated) s.(H_updated) s.(_lowest_x) s.(_lowest_f)
     s.(_nfev) s.(f_) s.(_wrapped_grad) s.(g_) (Some v) s.(x_prev) s.(g_prev)
     s.(_wrapped_hess) s.(trace).

Definition set_x_prev (v : option vec) (s : t) : t :=
  mk s.(_wrapped_fun) s.(_orig_grad) s.(_orig_hess) s.(n_) s.(x_)
     s.(f_updated) s.(g_updated) s.(H_updated) s.(_lowest_x) s.(_lowest_f)
     s.(_nfev) s.(f_) s.(_wrapped_grad) s.(g_) s.(H_) v s.(g_prev)
     s.(_wrapped_hess) s.(trace).

Definition set_g_prev (v : option vec) (s : t) : t :=
  mk s.(_wrapped_fun) s.(_orig_grad) s.(_orig_hess) s.(n_) s.(x_)
     s.(f_updated) s.(g_updated) s.(H_updated) s.(_lowest_x) s.(_lowest_f)
     s.(_nfev) s.(f_) s.(_wrapped_grad) s.(g_) s.(H_) s.(x_prev) v
     s.(_wrapped_hess) s.(trace).

Definition set__wrapped_hess (v : hess_wrapper) (s : t) : t :=
  mk s.(_wrapped_fun) s.(_orig_grad) s.(_orig_hess) s.(n_) s.(x_)
     s.(f_updated) s.(g_updated) s.(H_updated) s.(_lowest_x) s.(_lowest_f)
     s.(_nfev) s.(f_) s.(_wrapped_grad) s.(g_) s.(H_) s.(x_prev) s.(g_prev)
     (Some v) s.(trace).

(** Appending to the ghost trace. *)
Definition emit (evs : list event) (s : t) : t :=
  mk s.(_wrapped_fun) s.(_orig_grad) s.(_orig_hess) s.(n_) s.(x_)
     s.(f_updated) s.(g_updated) s.(H_updated) s.(_lowest_x) s.(_lowest_f)
     s.(_nfev) s.(f_) s.(_wrapped_grad) s.(g_) s.(H_) s.(x_prev) s.(g_prev)
     s.(_wrapped_hess) (s.(trace) ++ evs).

Definition _update_fun : M t unit :=
  self <- get ;;
  when (negb self.(f_updated)) (
    let fx := self.(_wrapped_fun) self.(x_) in
    modify (emit [EvFun self.(x_)]) ;;
    modify (set__nfev (self.(_nfev) + 1)) ;;
    when (fx <? self.(_lowest_f))%float
         (modify (set__lowest self.(x_) fx)) ;;
    modify (set_f_ fx) ;;
    modify (set_f_updated true)).

(** [self._wrapped_grad(x, f0=f0)] *)
Definition call__wrapped_grad (x : vec) (f0 : float) : M t vec :=
  w <- attr _wrapped_grad ;;
  r <- lift (_ScalarGradWrapper.__call__ x (Some f0) w) ;;
  let '(g, w', evs) := r in
  modify (emit evs) ;;
  modify (set__wrapped_grad w') ;;
  ret g.

Definition _update_grad : M t unit :=
  self <- get ;;
  when (negb self.(g_updated)) (
    when (in_FD_METHODS self.(_orig_grad)) _update_fun ;;
    self <- get ;;
    f0 <- attr f_ ;;
    g <- call__wrapped_grad self.(x_) f0 ;;
    modify (set_g_ g) ;;
    modify (set_g_updated true)).

(** [self._wrapped_hess(x, f0=f0)]; a [_FakeCounter] is not callable. *)
Definition call__wrapped_hess (x : vec) (f0 : option vec) : M t array2 :=
  hw <- attr _wrapped_hess ;;
  match hw with
  | _FakeCounter _ _ => raise TypeError
  | Wrapper w =>
      r <- lift (_ScalarHessWrapper.__call__ x f0 w) ;;
      let '(H', w', evs) := r in
      modify (emit evs) ;;
      modify (set__wrapped_hess (Wrapper w')) ;;
      ret H'
  end.

(** [self.H.update(delta_x, delta_g)] on the object held in [self.H]. *)
Definition H_update (delta_x delta_g : vec) : M t unit :=
  H <- attr H_ ;;
  match H with
  | HStrategy h =>
      modify (emit [EvUpdate delta_x delta_g]) ;;
      modify (set_H_ (HStrategy (update delta_x delta_g h)))
  | HArr _ => raise AttributeError
  end.

(** [a - b] where [b] may still be [None]. *)
Definition sub_prev (a : vec) (b : option vec) : res vec :=
  match b with
  | Some b' => np_sub a b'
  | None => Raise TypeError
  end.

Definition _update_hess : M t unit :=
  self <- get ;;
  when (negb self.(H_updated)) (
    (if in_FD_METHODS self.(_orig_hess) then
       _update_grad ;;
       self <- get ;;
       g <- attr g_ ;;
       H <- call__wrapped_hess self.(x_) (Some g) ;;
       modify (set_H_ (HArr H))
     else if isinstance_HessianUpdateStrategy self.(_orig_hess) then
       _update_grad ;;
       self <- get ;;
       delta_x <- lift (sub_prev self.(x_) self.(x_prev)) ;;
       g <- attr g_ ;;
       delta_g <- lift (sub_prev g self.(g_prev)) ;;
       H_update delta_x delta_g
     else
       self <- get ;;
       H <- call__wrapped_hess self.(x_) None ;;
       modify (set_H_ (HArr H))) ;;
    modify (set_H_updated true)).

Definition _update_x (x : vec) : M t unit :=
  self <- get ;;
  if isinstance_HessianUpdateStrategy self.(_orig_hess) then
    _update_grad ;;
    self <- get ;;
    modify (set_x_prev (Some self.(x_))) ;;
    g <- attr g_ ;;
    modify (set_g_prev (Some g)) ;;
    modify (set_x_ x) ;;
    modify (set_f_updated false) ;;
    modify (set_g_updated false) ;;
    modify (set_H_updated false) ;;
    _update_hess
  else
    modify (set_x_ x) ;;
    modify (set_f_updated false) ;;
    modify (set_g_updated false) ;;
    modify (set_H_updated false).

Definition fun_ (x : vec) : M t float :=
  self <- get ;;
  when (negb (array_equal x self.(x_))) (_update_x x) ;;
  _update_fun ;;
  attr f_.

Definition grad (x : vec) : M t vec :=
  self <- get ;;
  when (negb (array_equal x self.(x_))) (_update_x x) ;;
  _update_grad ;;
  attr g_.

Definition hess (x : vec) : M t hessian :=
  self <- get ;;
  when (negb (array_equal x self.(x_))) (_update_x x) ;;
  _update_hess ;;
  attr H_.

Definition fun_and_grad (x : vec) : M t (float * vec) :=
  self <- get ;;
  when (negb (array_equal x self.(x_))) (_update_x x) ;;
  _update_fun ;;
  _update_grad ;;
  f <- attr f_ ;;
  g <- attr g_ ;;
  ret (f, g).

(** The counter properties. *)
Definition nfev (self : t) : res nat :=
  match self.(_wrapped_grad) with
  | Some w => Ok (self.(_nfev) + w.(_ScalarGradWrapper.nfev))
  | None => Raise AttributeError
  end.

Definition ngev (self : t) : res nat :=
  match self.(_wrapped_grad) with
  | Some w => Ok w.(_ScalarGradWrapper.ngev)
  | None => Raise AttributeError
  end.

Definition nhev (self : t) : res nat :=
  match self.(_wrapped_hess) with
  | Some (_FakeCounter _ nhev) => Ok nhev
  | Some (Wrapper w) => Ok w.(_ScalarHessWrapper.nhev)
  | None => Raise AttributeError
  end.

(** The [finite_diff_options] dictionary [__init__] builds. *)
Definition make_finite_diff_options (grad : pyarg (vec -> vec))
    (hess : pyarg (vec -> array2)) (user : fd_user) : fd_options fd_user :=
  let o0 := mk_fd_options None false false user in
  let o1 :=
    if in_FD_METHODS grad
    then mk_fd_options (match grad with Str s => Some s | _ => None end)
                       o0.(as_linear_operator) true user
    else o0 in
  if in_FD_METHODS hess
  then mk_fd_options (match hess with Str s => Some s | _ => None end)
                     true true user
  else o1.

Definition __init__ (fun_ : vec -> float) (x0 : vec)
    (grad : pyarg (vec -> vec)) (hess : pyarg (vec -> array2))
    (user : fd_user) : res t :=
  if negb (callable grad) && negb (in_FD_METHODS grad) then Raise ValueError
  else if negb (callable hess || in_FD_METHODS hess
                || isinstance_HessianUpdateStrategy hess)
  then Raise ValueError
  else if in_FD_METHODS grad && in_FD_METHODS hess then Raise ValueError
  else
    let self0 :=
      mk fun_ grad hess (List.length x0) x0 false false false None infinity 0
         None None None None None None None [] in
    let finite_diff_options := make_finite_diff_options grad hess user in
    let body : M t unit :=
      (* Initial function evaluation *)
      _update_fun ;;
      (* Initial gradient evaluation *)
      modify (set__wrapped_grad
                (_ScalarGradWrapper.__init__ grad fun_ finite_diff_options)) ;;
      _update_grad ;;
      (* Hessian evaluation *)
      match hess with
      | Strategy h =>
          modify (emit [EvInitialize (List.length x0)]) ;;
          modify (set_H_ (HStrategy (initialize (List.length x0) h))) ;;
          modify (set_H_updated true) ;;
          modify (set_x_prev None) ;;
          modify (set_g_prev None) ;;
          modify (set__wrapped_hess (_FakeCounter 0 0))
      | _ =>
          if callable hess then
            let '(w, evs) :=
              _ScalarHessWrapper.__init__ hess x0 None finite_diff_options in
            modify (emit evs) ;;
            modify (set__wrapped_hess (Wrapper w)) ;;
            H <- lift (match w.(_ScalarHessWrapper.H) with
                       | Some H => Ok H
                       | None => Raise AttributeError
                       end) ;;
            modify (set_H_ (HArr H)) ;;
            modify (set_H_updated true)
          else if in_FD_METHODS hess then
            gw <- attr _wrapped_grad ;;
            let '(w, evs) :=
              _ScalarHessWrapper.__init__ hess x0 (Some gw)
                                          finite_diff_options in
            modify (emit evs) ;;
            modify (set__wrapped_hess (Wrapper w)) ;;
            _update_grad ;;
            self <- get ;;
            g <- attr g_ ;;
            H <- call__wrapped_hess self.(x_) (Some g) ;;
            modify (set_H_ (HArr H)) ;;
            modify (set_H_updated true)
          else ret tt
      end in
    match body self0 with
    | Ok (_, self) => Ok self
    | Raise e => Raise e
    end.

End Defs.
End ScalarFunction.

(** ** The wrappers of [VectorFunction] *)

Module _VectorFunWrapper.

(** [nfev] counts the calls made through [__call__]; no code of the
    module reads it. *)
Record t : Type := mk {
  fun_ : vec -> vec;
  nfev : nat
}.

Definition __init__ (fun_ : vec -> vec) : t := mk fun_ 0.

Definition __call__ (x : vec) (self : t) : vec * t * list event :=
  (self.(fun_) x, mk self.(fun_) (self.(nfev) + 1), [EvFun x]).

End _VectorFunWrapper.

Module _VectorJacWrapper.
Section Defs.
Context {C : Collaborators}.

Record t : Type := mk {
  fun_ : option _VectorFunWrapper.t;
  jac : pyarg (vec -> array2);
  finite_diff_options : fd_options fd_user;
  sparse_jacobian : bool;
  njev : nat;
  (* number of function evaluations consumed by finite difference *)
  nfev : nat
}.

Definition __init__ (jac : pyarg (vec -> array2))
    (fun_ : option _VectorFunWrapper.t)
    (finite_diff_options : fd_options fd_user) (sparse_jacobian : bool) : t :=
  mk fun_ jac finite_diff_options sparse_jacobian 0 0.

(** The representation [__call__] and the engine's constructor return a
    Jacobian in. *)
Definition normalize (sparse_jacobian : bool) (J : array2) : res array2 :=
  if sparse_jacobian then to_csr J
  else match J with
       | Mat a => if issparse a then Ok (Mat (toarray a)) else Ok (Mat a)
       | LinearOperator mv rmv => Ok (LinearOperator mv rmv)
       end.

Definition __call__ (x : vec) (f0 : option vec) (self : t)
    : res (array2 * t * list event) :=
  match self.(jac) with
  | Callable j =>
      match normalize self.(sparse_jacobian) (j x) with
      | Raise e => Raise e
      | Ok J =>
          Ok (J,
              mk self.(fun_) self.(jac) self.(finite_diff_options)
                 self.(sparse_jacobian) (self.(njev) + 1) self.(nfev),
              [EvJac x])
      end
  | a =>
      if in_FD_METHODS a then
        match self.(fun_) with
        | None => Raise TypeError
        | Some fw =>
            let '(J0, dct_nfev) :=
              approx_derivative_2d self.(finite_diff_options)
                fw.(_VectorFunWrapper.fun_) x f0 in
            match normalize self.(sparse_jacobian) J0 with
            | Raise e => Raise e
            | Ok J =>
                Ok (J,
                    mk self.(fun_) self.(jac) self.(finite_diff_options)
                       self.(sparse_jacobian) self.(njev)
                       (self.(nfev) + dct_nfev),
                    [EvApproxJac x f0])
            end
        end
      else Raise UnboundLocalError
  end.

(** The wrapper as the function a finite-difference Hessian calls. *)
Definition as_function (self : t) (x : vec) : array2 :=
  match __call__ x None self with
  | Ok (J, _, _) => J
  | Raise _ => Mat (Dense [])
  end.

End Defs.
End _VectorJacWrapper.

Module _VectorHessWrapper.
Section Defs.
Context {C : Collaborators}.

(** The attribute [jac] refers to the engine's own [_VectorJacWrapper]
    object; the methods below take that object as [jw] and return it. *)
Record t : Type := mk {
  hess : pyarg (vec -> vec -> array2);
  finite_diff_options : fd_options fd_user;
  nhev : nat;
  (* number of jac evaluations consumed by finite difference *)
  njev : nat
}.

Definition __init__ (hess : pyarg (vec -> vec -> array2))
    (finite_diff_options : fd_options fd_user) : t :=
  mk hess finite_diff_options 0 0.

Definition _callable_hess (h : vec -> vec -> array2) (x v : vec)
    : res array2 :=
  match h x v with
  | Mat a => if issparse a then Ok (Mat (csr_array a)) else Ok (Mat a)
  | LinearOperator mv rmv => Ok (LinearOperator mv rmv)
  end.

(** [jac_dot_v] as the function [approx_derivative] wraps in the
    operator it returns; it runs when the operator is applied. *)
Definition jac_dot_v (jw : _VectorJacWrapper.t) (v x : vec) : vec :=
  match T_dot (_VectorJacWrapper.as_function jw x) v with
  | Ok r => r
  | Raise _ => []
  end.

Definition _fd_hess (x v : vec) (J0 : option array2)
    (jw : _VectorJacWrapper.t) (self : t)
    : res (array2 * t * _VectorJacWrapper.t * list event) :=
  match
    match J0 with
    | Some J => Ok (J, self, jw, [])
    | None =>
        match _VectorJacWrapper.__call__ x None jw with
        | Raise e => Raise e
        | Ok (J, jw', evs) =>
            Ok (J,
                mk self.(hess) self.(finite_diff_options) self.(nhev)
                   (self.(njev) + 1),
                jw', evs)
        end
    end
  with
  | Raise e => Raise e
  | Ok (J, self', jw', evs) =>
      match T_dot J v with
      | Raise e => Raise e
      | Ok f0 =>
          (* H will be a LinearOperator *)
          let H :=
            fst (approx_derivative_2d self.(finite_diff_options)
                   (jac_dot_v jw' v) x (Some f0)) in
          Ok (H, self', jw', evs ++ [EvApproxHess x (Some f0)])
      end
  end.

(** [__call__(x, v, J0)]; with a [hess] of neither kind it returns
    [None]. *)
Definition __call__ (x v : vec) (J0 : option array2)
    (jw : _VectorJacWrapper.t) (self : t)
    : res (option array2 * t * _VectorJacWrapper.t * list event) :=
  match self.(hess) with
  | Callable h =>
      match _callable_hess h x v with
      | Raise e => Raise e
      | Ok H =>
          Ok (Some H,
              mk self.(hess) self.(finite_diff_options) (self.(nhev) + 1)
                 self.(njev),
              jw, [EvHessV x v])
      end
  | a =>
      if in_FD_METHODS a then
        match _fd_hess x v J0 jw self with
        | Raise e => Raise e
        | Ok (H, self', jw', evs) => Ok (Some H, self', jw', evs)
        end
      else Ok (None, self, jw, [])
  end.

End Defs.
End _VectorHessWrapper.

(** ** [VectorFunction] *)

Module VectorFunction.
Section Defs.
Context {C : Collaborators}.

(** The attributes.  [x_prev] and [J_prev] hold [None] both before
    [__init__] assigns them and after it assigned [None].  [x_diff], which
    is written once and never read, is left out. *)
Record t : Type := mk {
  _orig_fun : vec -> vec;
  _orig_jac : pyarg (vec -> array2);
  _orig_hess : pyarg (vec -> vec -> array2);
  n_ : nat;
  x_ : vec;
  _nfev : nat;
  _njev : nat;
  _nhev : nat;
  f_updated : bool;
  J_updated : bool;
  H_updated : bool;
  fun_wrapped : option _VectorFunWrapper.t;
  f_ : option vec;
  v_ : option vec;
  m_ : option nat;
  J_ : option array2;
  sparse_jacobian : option bool;
  jac_wrapped : option _VectorJacWrapper.t;
  hess_wrapped : option _VectorHessWrapper.t;
  H_ : option hessian;
  x_prev : option vec;
  J_prev : option array2;
  trace : list event
}.

Definition set_x_ (a : vec) (s : t) : t :=
  mk s.(_orig_fun) s.(_orig_jac) s.(_orig_hess) s.(n_) a s.(_nfev) s.(_njev)
     s.(_nhev) s.(f_updated) s.(J_updated) s.(H_updated) s.(fun_wrapped)
     s.(f_) s.(v_) s.(m_) s.(J_) s.(sparse_jacobian) s.(jac_wrapped)
     s.(hess_wrapped) s.(H_) s.(x_prev) s.(J_prev) s.(trace).

Definition set__nfev (a : nat) (s : t) : t :=
  mk s.(_orig_fun) s.(_orig_jac) s.(_orig_hess) s.(n_) s.(x_) a s.(_njev)
     s.(_nhev) s.(f_updated) s.(J_updated) s.(H_updated) s.(fun_wrapped)
     s.(f_) s.(v_) s.(m_) s.(J_) s.(sparse_jacobian) s.(jac_wrapped)
     s.(hess_wrapped) s.(H_) s.(x_prev) s.(J_prev) s.(trace).

Definition set__njev (a : nat) (s : t) : t :=
  mk s.(_orig_fun) s.(_orig_jac) s.(_orig_hess) s.(n_) s.(x_) s.(_nfev) a
     s.(_nhev) s.(f_updated) s.(J_updated) s.(H_updated) s.(fun_wrapped)
     s.(f_) s.(v_) s.(m_) s.(J_) s.(sparse_jacobian) s.(jac_wrapped)
     s.(hess_wrapped) s.(H_) s.(x_prev) s.(J_prev) s.(trace).

Definition set__nhev (a : nat) (s : t) : t :=
  mk s.(_orig_fun) s.(_orig_jac) s.(_orig_hess) s.(n_) s.(x_) s.(_nfev)
     s.(_njev) a s.(f_updated) s.(J_updated) s.(H_updated) s.(fun_wrapped)
     s.(f_) s.(v_) s.(m_) s.(J_) s.(sparse_jacobian) s.(jac_wrapped)
     s.(hess_wrapped) s.(H_) s.(x_prev) s.(J_prev) s.(trace).

Definition set_f_updated (a : bool) (s : t) : t :=
  mk s.(_orig_fun) s.(_orig_jac) s.(_orig_hess) s.(n_) s.(x_) s.(_nfev)
     s.(_njev) s.(_nhev) a s.(J_updated) s.(H_updated) s.(fun_wrapped)
     s.(f_) s.(v_) s.(m_) s.(J_) s.(sparse_jacobian) s.(jac_wrapped)
     s.(hess_wrapped) s.(H_) s.(x_prev) s.(J_prev) s.(trace).

Definition set_J_updated (a : bool) (s : t) : t :=
  mk s.(_orig_fun) s.(_orig_jac) s.(_orig_hess) s.(n_) s.(x_) s.(_nfev)
     s.(_njev) s.(_nhev) s.(f_updated) a s.(H_updated) s.(fun_wrapped)
     s.(f_) s.(v_) s.(m_) s.(J_) s.(sparse_jacobian) s.(jac_wrapped)
     s.(hess_wrapped) s.(H_) s.(x_prev) s.(J_prev) s.(trace).

Definition set_H_updated (a : bool) (s : t) : t :=
  mk s.(_orig_fun) s.(_orig_jac) s.(_orig_hess) s.(n_) s.(x_) s.(_nfev)
     s.(_njev) s.(_nhev) s.(f_updated) s.(J_updated) a s.(fun_wrapped)
     s.(f_) s.(v_) s.(m_) s.(J_) s.(sparse_jacobian) s.(jac_wrapped)
     s.(hess_wrapped) s.(H_) s.(x_prev) s.(J_prev) s.(trace).

Definition set_fun_wrapped (a : _VectorFunWrapper.t) (s : t) : t :=
  mk s.(_orig_fun) s.(_orig_jac) s.(_orig_hess) s.(n_) s.(x_) s.(_nfev)
     s.(_njev) s.(_nhev) s.(f_updated) s.(J_updated) s.(H_updated) (Some a)
     s.(f_) s.(v_) s.(m_) s.(J_) s.(sparse_jacobian) s.(jac_wrapped)
     s.(hess_wrapped) s.(H_) s.(x_prev) s.(J_prev) s.(trace).

Definition set_f_ (a : vec) (s : t) : t :=
  mk s.(_orig_fun) s.(_orig_jac) s.(_orig_hess) s.(n_) s.(x_) s.(_nfev)
     s.(_njev) s.(_nhev) s.(f_updated) s.(J_updated) s.(H_updated)
     s.(fun_wrapped) (Some a) s.(v_) s.(m_) s.(J_) s.(sparse_jacobian)
     s.(jac_wrapped) s.(hess_wrapped) s.(H_) s.(x_prev) s.(J_prev) s.(trace).

Definition set_v_ (a : vec) (s : t) : t :=
  mk s.(_orig_fun) s.(_orig_jac) s.(_orig_hess) s.(n_) s.(x_) s.(_nfev)
     s.(_njev) s.(_nhev) s.(f_updated) s.(J_updated) s.(H_updated)
     s.(fun_wrapped) s.(f_) (Some a) s.(m_) s.(J_) s.(sparse_jacobian)
     s.(jac_wrapped) s.(hess_wrapped) s.(H_) s.(x_prev) s.(J_prev) s.(trace).

Definition set_m_ (a : nat) (s : t) : t :=
  mk s.(_orig_fun) s.(_orig_jac) s.(_orig_hess) s.(n_) s.(x_) s.(_nfev)
     s.(_njev) s.(_nhev) s.(f_updated) s.(J_updated) s.(H_updated)
     s.(fun_wrapped) s.(f_) s.(v_) (Some a) s.(J_) s.(sparse_jacobian)
     s.(jac_wrapped) s.(hess_wrapped) s.(H_) s.(x_prev) s.(J_prev) s.(trace).

Definition set_J_ (a : array2) (s : t) : t :=
  mk s.(_orig_fun) s.(_orig_jac) s.(_orig_hess) s.(n_) s.(x_) s.(_nfev)
     s.(_njev) s.(_nhev) s.(f_updated) s.(J_updated) s.(H_updated)
     s.(fun_wrapped) s.(f_) s.(v_) s.(m_) (Some a) s.(sparse_jacobian)
     s.(jac_wrapped) s.(hess_wrapped) s.(H_) s.(x_prev) s.(J_prev) s.(trace).

Definition set_sparse_jacobian (a : bool) (s : t) : t :=
  mk s.(_orig_fun) s.(_orig_jac) s.(_orig_hess) s.(n_) s.(x_) s.(_nfev)
     s.(_njev) s.(_nhev) s.(f_updated) s.(J_updated) s.(H_updated)
     s.(fun_wrapped) s.(f_) s.(v_) s.(m_) s.(J_) (Some a) s.(jac_wrapped)
     s.(hess_wrapped) s.(H_) s.(x_prev) s.(J_prev) s.(trace).

Definition set_jac_wrapped (a : _VectorJacWrapper.t) (s : t) : t :=
  mk s.(_orig_fun) s.(_orig_jac) s.(_orig_hess) s.(n_) s.(x_) s.(_nfev)
     s.(_njev) s.(_nhev) s.(f_updated) s.(J_updated) s.(H_updated)
     s.(fun_wrapped) s.(f_) s.(v_) s.(m_) s.(J_) s.(sparse_jacobian) (Some a)
     s.(hess_wrapped) s.(H_) s.(x_prev) s.(J_prev) s.(trace).

Definition set_hess_wrapped (a : _VectorHessWrapper.t) (s : t) : t :=
  mk s.(_orig_fun) s.(_orig_jac) s.(_orig_hess) s.(n_) s.(x_) s.(_nfev)
     s.(_njev) s.(_nhev) s.(f_updated) s.(J_updated) s.(H_updated)
     s.(fun_wrapped) s.(f_) s.(v_) s.(m_) s.(J_) s.(sparse_jacobian)
     s.(jac_wrapped) (Some a) s.(H_) s.(x_prev) s.(J_prev) s.(trace).

Definition set_H_ (a : option hessian) (s : t) : t :=
  mk s.(_orig_fun) s.(_orig_jac) s.(_orig_hess) s.(n_) s.(x_) s.(_nfev)
     s.(_njev) s.(_nhev) s.(f_updated) s.(J_updated) s.(H_updated)
     s.(fun_wrapped) s.(f_) s.(v_) s.(m_) s.(J_) s.(sparse_jacobian)
     s.(jac_wrapped) s.(hess_wrapped) a s.(x_prev) s.(J_prev) s.(trace).

Definition set_x_prev (a : option vec) (s : t) : t :=
  mk s.(_orig_fun) s.(_orig_jac) s.(_orig_hess) s.(n_) s.(x_) s.(_nfev)
     s.(_njev) s.(_nhev) s.(f_updated) s.(J_updated) s.(H_updated)
     s.(fun_wrapped) s.(f_) s.(v_) s.(m_) s.(J_) s.(sparse_jacobian)
     s.(jac_wrapped) s.(hess_wrapped) s.(H_) a s.(J_prev) s.(trace).

Definition set_J_prev (a : option array2) (s : t) : t :=
  mk s.(_orig_fun) s.(_orig_jac) s.(_orig_hess) s.(n_) s.(x_) s.(_nfev)
     s.(_njev) s.(_nhev) s.(f_updated) s.(J_updated) s.(H_updated)
     s.(fun_wrapped) s.(f_) s.(v_) s.(m_) s.(J_) s.(sparse_jacobian)
     s.(jac_wrapped) s.(hess_wrapped) s.(H_) s.(x_prev) a s.(trace).

Definition emit (evs : list event) (s : t) : t :=
  mk s.(_orig_fun) s.(_orig_jac) s.(_orig_hess) s.(n_) s.(x_) s.(_nfev)
     s.(_njev) s.(_nhev) s.(f_updated) s.(J_updated) s.(H_updated)
     s.(fun_wrapped) s.(f_) s.(v_) s.(m_) s.(J_) s.(sparse_jacobian)
     s.(jac_wrapped) s.(hess_wrapped) s.(H_) s.(x_prev) s.(J_prev)
     (s.(trace) ++ evs).

(** [self.fun_wrapped(x)] *)
Definition call_fun_wrapped (x : vec) : M t vec :=
  w <- attr fun_wrapped ;;
  let '(f, w', evs) := _VectorFunWrapper.__call__ x w in
  modify (emit evs) ;;
  modify (set_fun_wrapped w') ;;
  ret f.

(** [self.jac_wrapped(x, f0=f0)] *)
Definition call_jac_wrapped (x : vec) (f0 : option vec) : M t array2 :=
  w <- attr jac_wrapped ;;
  r <- lift (_VectorJacWrapper.__call__ x f0 w) ;;
  let '(J, w', evs) := r in
  modify (emit evs) ;;
  modify (set_jac_wrapped w') ;;
  ret J.

(** [self.hess_wrapped(x, v, J0=J0)] *)
Definition call_hess_wrapped (x v : vec) (J0 : option array2)
    : M t (option array2) :=
  w <- attr hess_wrapped ;;
  jw <- attr jac_wrapped ;;
  r <- lift (_VectorHessWrapper.__call__ x v J0 jw w) ;;
  let '(H, w', jw', evs) := r in
  modify (emit evs) ;;
  modify (set_hess_wrapped w') ;;
  modify (set_jac_wrapped jw') ;;
  ret H.

Definition H_update (delta_x delta_g : vec) : M t unit :=
  H <- attr H_ ;;
  match H with
  | HStrategy h =>
      modify (emit [EvUpdate delta_x delta_g]) ;;
      modify (set_H_ (Some (HStrategy (update delta_x delta_g h))))
  | HArr _ => raise AttributeError
  end.

Definition _update_v (v : vec) : M t unit :=
  self_v <- attr v_ ;;
  when (negb (array_equal v self_v)) (
    modify (set_v_ v) ;;
    modify (set_H_updated false)).

Definition _update_fun : M t unit :=
  self <- get ;;
  when (negb self.(f_updated)) (
    f <- call_fun_wrapped self.(x_) ;;
    modify (set_f_ f) ;;
    self <- get ;;
    modify (set__nfev (self.(_nfev) + 1)) ;;
    modify (set_f_updated true)).

Definition _update_jac : M t unit :=
  self <- get ;;
  when (negb self.(J_updated)) (
    (if in_FD_METHODS self.(_orig_jac) then
       (* need to update fun to get f0 *)
       _update_fun
     else
       modify (set__njev (self.(_njev) + 1))) ;;
    self <- get ;;
    f0 <- attr f_ ;;
    J <- call_jac_wrapped self.(x_) (Some f0) ;;
    modify (set_J_ J) ;;
    modify (set_J_updated true)).

Definition _update_hess : M t unit :=
  self <- get ;;
  when (negb self.(H_updated)) (
    (if callable self.(_orig_hess) then
       v <- attr v_ ;;
       H <- call_hess_wrapped self.(x_) v None ;;
       modify (set_H_ (option_map HArr H)) ;;
       self <- get ;;
       modify (set__nhev (self.(_nhev) + 1))
     else if in_FD_METHODS self.(_orig_hess) then
       _update_jac ;;
       self <- get ;;
       v <- attr v_ ;;
       J <- attr J_ ;;
       H <- call_hess_wrapped self.(x_) v (Some J) ;;
       modify (set_H_ (option_map HArr H))
     else if isinstance_HessianUpdateStrategy self.(_orig_hess) then
       _update_jac ;;
       self <- get ;;
       (* When v is updated before x was updated, then x_prev and
          J_prev are None and we need this check. *)
       match self.(x_prev), self.(J_prev) with
       | Some x_prev, Some J_prev =>
           delta_x <- lift (np_sub self.(x_) x_prev) ;;
           J <- attr J_ ;;
           v <- attr v_ ;;
           a <- lift (T_dot J v) ;;
           b <- lift (T_dot J_prev v) ;;
           delta_g <- lift (np_sub a b) ;;
           H_update delta_x delta_g
       | _, _ => ret tt
       end
     else ret tt) ;;
    modify (set_H_updated true)).

Definition _update_x (x : vec) : M t unit :=
  self <- get ;;
  when (negb (array_equal x self.(x_))) (
    if isinstance_HessianUpdateStrategy self.(_orig_hess) then
      _update_jac ;;
      self <- get ;;
      modify (set_x_prev (Some self.(x_))) ;;
      J <- attr J_ ;;
      modify (set_J_prev (Some J)) ;;
      modify (set_x_ x) ;;
      modify (set_f_updated false) ;;
      modify (set_J_updated false) ;;
      modify (set_H_updated false) ;;
      _update_hess
    else
      modify (set_x_ x) ;;
      modify (set_f_updated false) ;;
      modify (set_J_updated false) ;;
      modify (set_H_updated false)).

Definition fun_ (x : vec) : M t vec :=
  _update_x x ;;
  _update_fun ;;
  attr f_.

Definition jac (x : vec) : M t array2 :=
  _update_x x ;;
  _update_jac ;;
  attr J_.

Definition hess (x v : vec) : M t hessian :=
  (* v should be updated before x. *)
  _update_v v ;;
  _update_x x ;;
  _update_hess ;;
  attr H_.

Definition nfev (self : t) : res nat :=
  match self.(jac_wrapped) with
  | Some w => Ok (self.(_nfev) + w.(_VectorJacWrapper.nfev))
  | None => Raise AttributeError
  end.

Definition njev (self : t) : res nat :=
  match self.(hess_wrapped) with
  | Some w => Ok (self.(_njev) + w.(_VectorHessWrapper.njev))
  | None => Raise AttributeError
  end.

Definition nhev (self : t) : nat := self.(_nhev).

Definition make_finite_diff_options (jac : pyarg (vec -> array2))
    (hess : pyarg (vec -> vec -> array2)) (user : fd_user)
    : fd_options fd_user :=
  let o0 := mk_fd_options None false false user in
  let o1 :=
    if in_FD_METHODS jac
    then mk_fd_options (match jac with Str s => Some s | _ => None end)
                       o0.(as_linear_operator) true user
    else o0 in
  if in_FD_METHODS hess
  then mk_fd_options (match hess with Str s => Some s | _ => None end)
                     true o1.(full_output) user
  else o1.

Definition __init__ (fun_ : vec -> vec) (x0 : vec)
    (jac : pyarg (vec -> array2)) (hess : pyarg (vec -> vec -> array2))
    (sparse_jacobian : option bool) (user : fd_user) : res t :=
  if negb (callable jac) && negb (in_FD_METHODS jac) then Raise ValueError
  else if negb (callable hess || in_FD_METHODS hess
                || isinstance_HessianUpdateStrategy hess)
  then Raise ValueError
  else if in_FD_METHODS jac && in_FD_METHODS hess then Raise ValueError
  else
    let self0 :=
      mk fun_ jac hess (List.length x0) x0 0 0 0 false false false
         None None None None None None None None None None None [] in
    let finite_diff_options := make_finite_diff_options jac hess user in
    if in_FD_METHODS jac && in_FD_METHODS hess then Raise ValueError
    else
    let body : M t unit :=
      modify (set_fun_wrapped (_VectorFunWrapper.__init__ fun_)) ;;
      _update_fun ;;
      f <- attr f_ ;;
      modify (set_v_ (map (fun _ => 0%float) f)) ;;
      modify (set_m_ (List.length f)) ;;
      (* Initial Jacobian Evaluation *)
      self <- get ;;
      J <- match jac with
           | Callable j =>
               modify (emit [EvJac self.(x_)]) ;;
               modify (set_J_updated true) ;;
               modify (set__njev (self.(_njev) + 1)) ;;
               ret (j self.(x_))
           | a =>
               if in_FD_METHODS a then
                 fw <- attr fun_wrapped ;;
                 let '(J, dct_nfev) :=
                   approx_derivative_2d finite_diff_options
                     fw.(_VectorFunWrapper.fun_) self.(x_) (Some f) in
                 modify (emit [EvApproxJac self.(x_) (Some f)]) ;;
                 modify (set_J_updated true) ;;
                 modify (set__nfev (self.(_nfev) + dct_nfev)) ;;
                 ret J
               else raise AttributeError
           end ;;
      let sj :=
        match sparse_jacobian with
        | Some b => b
        | None => match J with Mat a => issparse a | _ => false end
        end in
      J' <- lift (_VectorJacWrapper.normalize sj J) ;;
      modify (set_J_ J') ;;
      modify (set_sparse_jacobian sj) ;;
      fw <- attr fun_wrapped ;;
      modify (set_jac_wrapped
                (_VectorJacWrapper.__init__ jac (Some fw)
                                            finite_diff_options sj)) ;;
      modify (set_hess_wrapped
                (_VectorHessWrapper.__init__ hess finite_diff_options)) ;;
      (* Define Hessian *)
      self <- get ;;
      if callable hess || in_FD_METHODS hess then
        v <- attr v_ ;;
        H <- call_hess_wrapped self.(x_) v (Some J') ;;
        modify (set_H_ (option_map HArr H)) ;;
        modify (set_H_updated true) ;;
        when (callable hess) (
          self <- get ;;
          modify (set__nhev (self.(_nhev) + 1)))
      else
        match hess with
        | Strategy h =>
            modify (emit [EvInitialize (List.length x0)]) ;;
            modify (set_H_ (Some (HStrategy (initialize (List.length x0) h)))) ;;
            modify (set_H_updated true) ;;
            modify (set_x_prev None) ;;
            modify (set_J_prev None)
        | _ => ret tt
        end in
    match body self0 with
    | Ok (_, self) => Ok self
    | Raise e => Raise e
    end.

End Defs.
End VectorFunction.

(** ** [LinearVectorFunction] and [IdentityVectorFunction] *)

Module LinearVectorFunction.

Record t : Type := mk {
  J_ : matrix;
  sparse_jacobian : bool;
  m_ : nat;
  n_ : nat;
  x_ : vec;
  f_ : vec;
  f_updated : bool;
  v_ : vec;
  H_ : matrix
}.

Definition set_x_ (a : vec) (s : t) : t :=
  mk s.(J_) s.(sparse_jacobian) s.(m_) s.(n_) a s.(f_) s.(f_updated) s.(v_)
     s.(H_).

Definition set_f_ (a : vec) (s : t) : t :=
  mk s.(J_) s.(sparse_jacobian) s.(m_) s.(n_) s.(x_) a s.(f_updated) s.(v_)
     s.(H_).

Definition set_f_updated (a : bool) (s : t) : t :=
  mk s.(J_) s.(sparse_jacobian) s.(m_) s.(n_) s.(x_) s.(f_) a s.(v_) s.(H_).

Definition set_v_ (a : vec) (s : t) : t :=
  mk s.(J_) s.(sparse_jacobian) s.(m_) s.(n_) s.(x_) s.(f_) s.(f_updated) a
     s.(H_).

Definition __init__ (A : matrix) (x0 : vec) (sparse_jacobian : option bool)
    : res t :=
  let '(J, sj) :=
    if match sparse_jacobian with Some b => b | None => issparse A end
    then (csr_array A, true)
    else if issparse A then (toarray A, false)
    else (A, false) in
  let '(m, n) := shape J in
  match dot J x0 with
  | Raise e => Raise e
  | Ok f =>
      Ok (mk J sj m n x0 f true (repeat 0%float m) (csr_zeros n n))
  end.

Definition _update_x (x : vec) : M t unit :=
  self <- get ;;
  when (negb (array_equal x self.(x_))) (
    modify (set_x_ x) ;;
    modify (set_f_updated false)).

Definition fun_ (x : vec) : M t vec :=
  _update_x x ;;
  self <- get ;;
  when (negb self.(f_updated)) (
    f <- lift (dot self.(J_) x) ;;
    modify (set_f_ f) ;;
    modify (set_f_updated true)) ;;
  self <- get ;;
  ret self.(f_).

Definition jac (x : vec) : M t matrix :=
  _update_x x ;;
  self <- get ;;
  ret self.(J_).

Definition hess (x v : vec) : M t matrix :=
  _update_x x ;;
  modify (set_v_ v) ;;
  self <- get ;;
  ret self.(H_).

End LinearVectorFunction.

Module IdentityVectorFunction.

(** [np.eye(n)] and [sps.eye_array(n, format='csr')], by rows. *)
Definition eye_rows (n : nat) : list vec :=
  map (fun i => map (fun j => if Nat.eqb i j then 1%float else 0%float)
                    (seq 0 n))
      (seq 0 n).

Definition __init__ (x0 : vec) (sparse_jacobian : option bool)
    : res LinearVectorFunction.t :=
  let n := List.length x0 in
  match sparse_jacobian with
  | Some false =>
      LinearVectorFunction.__init__ (Dense (eye_rows n)) x0 (Some false)
  | _ =>
      LinearVectorFunction.__init__ (Sparse (eye_rows n)) x0 (Some true)
  end.

End IdentityVectorFunction.

(** ** Runs of public calls *)

Inductive scalar_call : Type :=
| CallFun (x : vec)
| CallGrad (x : vec)
| CallHess (x : vec)
| CallFunAndGrad (x : vec).

Inductive vector_call : Type :=
| VCallFun (x : vec)
| VCallJac (x : vec)
| VCallHess (x v : vec).

Inductive linear_call : Type :=
| LCallFun (x : vec)
| LCallJac (x : vec)
| LCallHess (x v : vec).

Section Runs.
Context {C : Collaborators}.

Definition scalar_step (c : scalar_call) : M ScalarFunction.t unit :=
  match c with
  | CallFun x => ScalarFunction.fun_ x ;; ret tt
  | CallGrad x => ScalarFunction.grad x ;; ret tt
  | CallHess x => ScalarFunction.hess x ;; ret tt
  | CallFunAndGrad x => ScalarFunction.fun_and_grad x ;; ret tt
  end.

Definition vector_step (c : vector_call) : M VectorFunction.t unit :=
  match c with
  | VCallFun x => VectorFunction.fun_ x ;; ret tt
  | VCallJac x => VectorFunction.jac x ;; ret tt
  | VCallHess x v => VectorFunction.hess x v ;; ret tt
  end.

End Runs.

Definition linear_step (c : linear_call) : M LinearVectorFunction.t unit :=
  match c with
  | LCallFun x => LinearVectorFunction.fun_ x ;; ret tt
  | LCallJac x => LinearVectorFunction.jac x ;; ret tt
  | LCallHess x v => LinearVectorFunction.hess x v ;; ret tt
  end.

(** A sequence of calls, each returning normally. *)
Fixpoint run {S Call : Type} (step : Call -> M S unit) (cs : list Call)
    : M S unit :=
  match cs with
  | [] => ret tt
  | c :: cs' => step c ;; run step cs'
  end.

Unset Implicit Arguments.

(** * Properties *)

(** ** IEEE comparisons

    [<] on floats is a strict order and [==] is symmetric and transitive
    (neither is total or reflexive: a NaN is unordered and unequal). *)

Ltac cmp_cases :=
  repeat match goal with
         | |- context [Z.compare ?a ?b] => destruct (Z.compare_spec a b); subst
         | |- context [Pos.compare_cont Eq ?a ?b] =>
             change (Pos.compare_cont Eq a b) with (Pos.compare a b);
             destruct (Pos.compare_spec a b); subst
         end;
  simpl; intros; try congruence; try lia.

Lemma SFcompare_Lt_trans a b c :
  SFcompare a b = Some Lt -> SFcompare b c = Some Lt -> SFcompare a c = Some Lt.
Proof.
  destruct a as [sa|sa| |sa ma ea], b as [sb|sb| |sb mb eb], c as [sc|sc| |sc mc ec];
    simpl; try discriminate;
    repeat match goal with s : bool |- _ => destruct s end;
    simpl; try congruence; cmp_cases.
Qed.

Lemma float_ltb_trans (a b c : float) :
  (a <? b)%float = true -> (b <? c)%float = true -> (a <? c)%float = true.
Proof.
  rewrite !ltb_spec. unfold SFltb.
  destruct (SFcompare (Prim2SF a) (Prim2SF b)) as [[]|] eqn:E1; try discriminate.
  destruct (SFcompare (Prim2SF b) (Prim2SF c)) as [[]|] eqn:E2; try discriminate.
  intros _ _. rewrite (SFcompare_Lt_trans _ _ _ E1 E2). reflexivity.
Qed.

Lemma float_ltb_irrefl (a : float) : (a <? a)%float = false.
Proof.
  rewrite ltb_spec. unfold SFltb.
  destruct (Prim2SF a) as [s|s| |s m e]; simpl; try reflexivity.
  - destruct s; reflexivity.
  - destruct s; rewrite Z.compare_refl, Pos.compare_cont_refl; reflexivity.
Qed.

Lemma SFcompare_Eq_sym a b : SFcompare a b = Some Eq -> SFcompare b a = Some Eq.
Proof.
  destruct a as [sa|sa| |sa ma ea], b as [sb|sb| |sb mb eb];
    simpl; try discriminate;
    repeat match goal with s : bool |- _ => destruct s end;
    simpl; try congruence; cmp_cases.
Qed.

Lemma SFcompare_Eq_trans a b c :
  SFcompare a b = Some Eq -> SFcompare b c = Some Eq -> SFcompare a c = Some Eq.
Proof.
  destruct a as [sa|sa| |sa ma ea], b as [sb|sb| |sb mb eb], c as [sc|sc| |sc mc ec];
    simpl; try discriminate;
    repeat match goal with s : bool |- _ => destruct s end;
    simpl; try congruence; cmp_cases.
Qed.

Lemma float_eqb_sym (a b : float) : (a =? b)%float = true -> (b =? a)%float = true.
Proof.
  rewrite !eqb_spec. unfold SFeqb.
  destruct (SFcompare (Prim2SF a) (Prim2SF b)) as [[]|] eqn:E; try discriminate.
  intros _. rewrite (SFcompare_Eq_sym _ _ E). reflexivity.
Qed.

Lemma float_eqb_trans (a b c : float) :
  (a =? b)%float = true -> (b =? c)%float = true -> (a =? c)%float = true.
Proof.
  rewrite !eqb_spec. unfold SFeqb.
  destruct (SFcompare (Prim2SF a) (Prim2SF b)) as [[]|] eqn:E1; try discriminate.
  destruct (SFcompare (Prim2SF b) (Prim2SF c)) as [[]|] eqn:E2; try discriminate.
  intros _ _. rewrite (SFcompare_Eq_trans _ _ _ E1 E2). reflexivity.
Qed.

Lemma array_equal_sym (a b : vec) :
  array_equal a b = true -> array_equal b a = true.
Proof.
  revert b. induction a as [|p a IH]; intros [|q b]; simpl; try congruence.
  rewrite !andb_true_iff. intros [Hpq Hab].
  split; [apply float_eqb_sym, Hpq | apply IH, Hab].
Qed.

Lemma array_equal_trans (a b c : vec) :
  array_equal a b = true -> array_equal b c = true -> array_equal a c = true.
Proof.
  revert b c. induction a as [|p a IH]; intros [|q b] [|r c]; simpl;
    try congruence.
  rewrite !andb_true_iff. intros [Hpq Hab] [Hqr Hbc].
  split; [apply (float_eqb_trans _ _ _ Hpq Hqr) | apply (IH _ _ Hab Hbc)].
Qed.

(** A point that differs from one of two equal points differs from the
    other. *)
Lemma array_equal_differs (a b c : vec) :
  array_equal a b = false -> array_equal c b = true -> array_equal a c = false.
Proof.
  intros Hab Hcb. destruct (array_equal a c) eqn:Hac; [|reflexivity].
  rewrite (array_equal_trans _ _ _ Hac Hcb) in Hab. discriminate.
Qed.

Lemma evaluated_points_app (tr1 tr2 : list event) :
  evaluated_points (tr1 ++ tr2) = evaluated_points tr1 ++ evaluated_points tr2.
Proof. unfold evaluated_points. apply flat_map_app. Qed.

Lemma count_app (p : event -> bool) (tr1 tr2 : list event) :
  count p (tr1 ++ tr2) = count p tr1 + count p tr2.
Proof. unfold count. rewrite filter_app, length_app. reflexivity. Qed.

(** ** A weakest-precondition calculus for the monad

    [wp c s Q R]: running [c] from [s] either returns a value and a state
    satisfying [Q], or raises an exception satisfying [R]. *)

Definition wp {S A : Type} (c : M S A) (s : S) (Q : A -> S -> Prop)
    (R : exn -> Prop) : Prop :=
  match c s with
  | Ok (a, s') => Q a s'
  | Raise e => R e
  end.

Arguments wp : simpl never.
Arguments FD_METHODS : simpl never.
Arguments count : simpl never.
Arguments evaluated_points : simpl never.

(** The two uses: [returns] ignores runs that raise, [succeeds] excludes
    them. *)
Definition may_raise : exn -> Prop := fun _ => True.
Definition no_raise : exn -> Prop := fun _ => False.

Section WP.
Context {S : Type}.
Variable R : exn -> Prop.

Lemma wp_ret {A} (a : A) (s : S) Q : Q a s -> wp (ret a) s Q R.
Proof. exact (fun H => H). Qed.

Lemma wp_bind {A B} (c : M S A) (k : A -> M S B) (s : S) Q :
  wp c s (fun a s' => wp (k a) s' Q R) R -> wp (bind c k) s Q R.
Proof.
  unfold wp, bind. destruct (c s) as [[a s']|e]; exact (fun H => H).
Qed.

Lemma wp_get (s : S) Q : Q s s -> wp get s Q R.
Proof. exact (fun H => H). Qed.

Lemma wp_modify (f : S -> S) (s : S) Q : Q tt (f s) -> wp (modify f) s Q R.
Proof. exact (fun H => H). Qed.

Lemma wp_raise {A} (e : exn) (s : S) (Q : A -> S -> Prop) :
  R e -> wp (raise e) s Q R.
Proof. exact (fun H => H). Qed.

Lemma wp_attr {A} (field : S -> option A) (s : S) Q :
  match field s with Some a => Q a s | None => R AttributeError end ->
  wp (attr field) s Q R.
Proof. unfold wp, attr. destruct (field s); exact (fun H => H). Qed.

Lemma wp_lift {A} (r : res A) (s : S) Q :
  match r with Ok a => Q a s | Raise e => R e end -> wp (lift r) s Q R.
Proof. unfold wp, lift. destruct r; exact (fun H => H). Qed.

Lemma wp_when (b : bool) (c : M S unit) (s : S) Q :
  (if b then wp c s Q R else Q tt s) -> wp (when b c) s Q R.
Proof. destruct b; exact (fun H => H). Qed.

Lemma wp_conseq {A} (c : M S A) (s : S) (Q Q' : A -> S -> Prop) :
  wp c s Q R -> (forall a s', Q a s' -> Q' a s') -> wp c s Q' R.
Proof.
  unfold wp. destruct (c s) as [[a s']|e]; [|exact (fun H _ => H)].
  intros H HQ. apply HQ, H.
Qed.

Lemma wp_elim {A} (c : M S A) (s : S) Q (a : A) (s' : S) :
  wp c s Q R -> c s = Ok (a, s') -> Q a s'.
Proof. unfold wp. intros H E. rewrite E in H. exact H. Qed.

End WP.

(** Using a specification proved for [c] where [c] is run. *)
Lemma wp_use {S A} (c : M S A) (s : S) (Q Q' : A -> S -> Prop)
    (R R' : exn -> Prop) :
  wp c s Q R -> (forall e, R e -> R' e) ->
  (forall a s', Q a s' -> Q' a s') -> wp c s Q' R'.
Proof.
  unfold wp. destruct (c s) as [[a s']|e].
  - intros H _ HQ. apply HQ, H.
  - intros H HR _. apply HR, H.
Qed.

Lemma wp_succeeds {S A} (c : M S A) (s : S) (Q : A -> S -> Prop) :
  wp c s Q no_raise -> exists a s', c s = Ok (a, s') /\ Q a s'.
Proof.
  unfold wp. destruct (c s) as [[a s']|e]; [|intros []].
  intros H. exists a, s'. split; [reflexivity | exact H].
Qed.

Lemma wp_and {S A} (c : M S A) (s : S) (Q1 Q2 : A -> S -> Prop) R :
  wp c s Q1 R -> wp c s Q2 R -> wp c s (fun a s' => Q1 a s' /\ Q2 a s') R.
Proof.
  unfold wp. destruct (c s) as [[a s']|e]; [split; assumption|].
  exact (fun H _ => H).
Qed.

Lemma wp_exact {S A} (c : M S A) (s : S) (a : A) (s' : S) :
  wp c s (fun a0 s0 => a0 = a /\ s0 = s') no_raise -> c s = Ok (a, s').
Proof.
  unfold wp. destruct (c s) as [[a0 s0]|e]; [|intros []].
  intros [-> ->]. reflexivity.
Qed.

Lemma wp_exact_intro {S A} (c : M S A) (s : S) (a : A) (s' : S) R :
  c s = Ok (a, s') -> forall Q, wp c s Q R = Q a s'.
Proof. unfold wp. intros -> Q. reflexivity. Qed.

(** A constructor is its body run on the blank object. *)
Lemma init_elim {S} (b : M S unit) (s : S) (P : S -> Prop) (s0 : S) :
  match b s with Ok (_, self) => Ok self | Raise e => Raise e end = Ok s0 ->
  wp b s (fun _ s' => P s') may_raise -> P s0.
Proof.
  unfold wp. destruct (b s) as [[u s1]|e]; [|discriminate].
  intros H. inversion H; subst. exact (fun HP => HP).
Qed.

Lemma count_cons p e tr :
  count p (e :: tr) = (if p e then 1 else 0) + count p tr.
Proof. unfold count. simpl. destruct (p e); reflexivity. Qed.

Lemma count_nil p : count p [] = 0.
Proof. reflexivity. Qed.

Lemma evaluated_points_cons e tr :
  evaluated_points (e :: tr) =
  match e with EvFun x => [x] | _ => [] end ++ evaluated_points tr.
Proof. reflexivity. Qed.

Lemma evaluated_points_nil : evaluated_points [] = [].
Proof. reflexivity. Qed.

(** One step of symbolic execution. *)
Ltac wp_step :=
  lazymatch goal with
  | |- wp (bind _ _) _ _ _ => apply wp_bind
  | |- wp (ret _) _ _ _ => apply wp_ret
  | |- wp get _ _ _ => apply wp_get
  | |- wp (modify _) _ _ _ => apply wp_modify
  | |- wp (attr _) _ _ _ => apply wp_attr
  | |- wp (lift _) _ _ _ => apply wp_lift
  | |- wp (when _ _) _ _ _ => apply wp_when
  | |- wp (raise _) _ _ _ => apply wp_raise
  end.

(** Using the specification of a method at the head of the goal. *)
Ltac wp_call spec :=
  eapply wp_use; [apply spec | try (intros ? []); try (intros; exact I) | ].

(** Splitting on the innermost undetermined scrutinee; a pair is split
    into its projections. *)
Ltac destruct_inner x :=
  lazymatch x with
  | context [match ?y with _ => _ end] => destruct_inner y
  | negb ?b => destruct_inner b
  | andb ?a _ => destruct_inner a
  | orb ?a _ => destruct_inner a
  | _ =>
      first
        [ lazymatch type of x with prod _ _ => idtac end;
          rewrite (surjective_pairing x)
        | destruct x eqn:? ]
  end.

(** Naming the components of the tuples a call returned. *)
Ltac split_tuples :=
  repeat match goal with
         | a : (_ * _)%type |- _ => destruct a
         end.

(** Symbolic execution that stops at the methods, for their
    specifications to be used. *)
Ltac wp_run :=
  repeat first
    [ wp_step
    | progress cbn
    | match goal with
      | H : ?a = _ |- context [?a] => rewrite H
      end
    | match goal with
      | |- wp (if ?b then _ else _) _ _ _ => destruct_inner b
      | |- wp (match ?x with _ => _ end) _ _ _ => destruct_inner x
      | |- if ?b then _ else _ => destruct_inner b
      | |- match ?x with _ => _ end => destruct_inner x
      end ].

(** ** The scalar engine: invariants *)

(** The best-point tracker against the list of evaluated points: nothing
    evaluated lies strictly below the tracked value, and the tracked point,
    once there is one, was evaluated and has the tracked value. *)
Definition best_ok (F : vec -> float) (pts : list vec)
    (lowest_x : option vec) (lowest_f : float) : Prop :=
  (forall p, In p pts -> (F p <? lowest_f)%float = false) /\
  match lowest_x with
  | Some xl => In xl pts /\ lowest_f = F xl
  | None => lowest_f = infinity
  end.

Lemma best_ok_step F pts lx lf x :
  best_ok F pts lx lf ->
  best_ok F (pts ++ [x])
          (if (F x <? lf)%float then Some x else lx)
          (if (F x <? lf)%float then F x else lf).
Proof.
  intros [Hlow Hbest]. destruct (F x <? lf)%float eqn:Hlt; split.
  - intros p Hp. apply in_app_or in Hp. destruct Hp as [Hp|[<-|[]]].
    + destruct (F p <? F x)%float eqn:Hpx; [|reflexivity].
      rewrite <- (Hlow p Hp). symmetry.
      apply (float_ltb_trans _ _ _ Hpx Hlt).
    + apply float_ltb_irrefl.
  - split; [apply in_or_app; right; left; reflexivity | reflexivity].
  - intros p Hp. apply in_app_or in Hp. destruct Hp as [Hp|[<-|[]]].
    + apply Hlow, Hp.
    + exact Hlt.
  - destruct lx as [xl|]; [|exact Hbest].
    destruct Hbest as [Hin Heq].
    split; [apply in_or_app; left; exact Hin | exact Heq].
Qed.

Module ScalarFacts.
Import ScalarFunction.

Arguments _update_fun : simpl never.
Arguments _update_grad : simpl never.
Arguments _update_hess : simpl never.
Arguments _update_x : simpl never.
Arguments call__wrapped_grad : simpl never.
Arguments call__wrapped_hess : simpl never.
Arguments H_update : simpl never.
Arguments fun_ : simpl never.
Arguments grad : simpl never.
Arguments hess : simpl never.
Arguments fun_and_grad : simpl never.

(** Symbolic execution of a method from a state whose attributes are
    known, splitting on what stays undetermined. *)
Ltac wp_exec :=
  repeat first
    [ wp_step
    | progress cbn
    | match goal with
      | H : ?a = _ |- context [?a] => rewrite H
      end
    | match goal with
      | |- wp _update_fun _ _ _ => unfold _update_fun
      | |- wp _update_grad _ _ _ => unfold _update_grad
      | |- wp _update_hess _ _ _ => unfold _update_hess
      | |- wp (_update_x _) _ _ _ => unfold _update_x
      | |- wp (call__wrapped_grad _ _) _ _ _ => unfold call__wrapped_grad
      | |- wp (call__wrapped_hess _ _) _ _ _ => unfold call__wrapped_hess
      | |- wp (H_update _ _) _ _ _ => unfold H_update
      | |- wp (fun_ _) _ _ _ => unfold fun_
      | |- wp (grad _) _ _ _ => unfold grad
      | |- wp (hess _) _ _ _ => unfold hess
      | |- wp (fun_and_grad _) _ _ _ => unfold fun_and_grad
      | |- wp (if ?b then _ else _) _ _ _ => destruct_inner b
      | |- wp (match ?x with _ => _ end) _ _ _ => destruct_inner x
      | |- if ?b then _ else _ => destruct_inner b
      | |- match ?x with _ => _ end => destruct_inner x
      end ].

Section Facts.
Context {C : Collaborators}.

(** The points at which the engine called the user function. *)
Definition E (s : t) : list vec := evaluated_points (trace s).

Definition same_config (s s' : t) : Prop :=
  _wrapped_fun s' = _wrapped_fun s /\ _orig_grad s' = _orig_grad s /\
  _orig_hess s' = _orig_hess s.

(** What holds of the attributes whenever a method is entered or left,
    the private ones included. *)
Record W (s : t) : Prop := mkW {
  W_f : f_updated s = true ->
        f_ s = Some (_wrapped_fun s (x_ s)) /\ In (x_ s) (E s);
  W_n : _nfev s = List.length (E s);
  W_l : best_ok (_wrapped_fun s) (E s) (_lowest_x s) (_lowest_f s);
  W_w : forall w, _wrapped_grad s = Some w ->
                  _ScalarGradWrapper.grad w = _orig_grad s
}.

(** What the [_update_*] methods do to the point and the function
    value: the point stays, and the user function is called at most once,
    at the point, exactly when the value was stale and is fresh after. *)
Record upd_rel (s s' : t) : Prop := mk_upd_rel {
  upd_config : same_config s s';
  upd_x : x_ s' = x_ s;
  upd_f_mono : f_updated s = true -> f_updated s' = true;
  upd_g_mono : g_updated s = true -> g_updated s' = true;
  upd_prev : x_prev s' = x_prev s /\ g_prev s' = g_prev s;
  upd_E : E s' =
          E s ++ (if negb (f_updated s) && f_updated s' then [x_ s] else [])
}.

Lemma same_config_refl s : same_config s s.
Proof. repeat split. Qed.

Lemma same_config_trans s1 s2 s3 :
  same_config s1 s2 -> same_config s2 s3 -> same_config s1 s3.
Proof.
  unfold same_config. intros (a & b & c) (a' & b' & c').
  repeat split; congruence.
Qed.

Lemma upd_rel_refl s : upd_rel s s.
Proof.
  split; auto using same_config_refl.
  destruct (f_updated s); simpl; symmetry; apply app_nil_r.
Qed.

Lemma upd_rel_trans s1 s2 s3 : upd_rel s1 s2 -> upd_rel s2 s3 -> upd_rel s1 s3.
Proof.
  intros [c1 x1 f1 g1 [p1 q1] e1] [c2 x2 f2 g2 [p2 q2] e2]. split.
  - eapply same_config_trans; eassumption.
  - congruence.
  - auto.
  - auto.
  - split; congruence.
  - rewrite e2, e1, x1, <- app_assoc. f_equal.
    destruct (f_updated s1), (f_updated s2), (f_updated s3);
      simpl; try reflexivity;
      try discriminate (f1 eq_refl); discriminate (f2 eq_refl).
Qed.

(** A step that leaves everything [W] and [upd_rel] read untouched, except
    possibly the flags of the derivatives, and adds no function event. *)
Lemma W_upd_frame s s' :
  W s ->
  _wrapped_fun s' = _wrapped_fun s -> _orig_grad s' = _orig_grad s ->
  _orig_hess s' = _orig_hess s -> x_ s' = x_ s ->
  f_updated s' = f_updated s -> f_ s' = f_ s -> _nfev s' = _nfev s ->
  _lowest_x s' = _lowest_x s -> _lowest_f s' = _lowest_f s ->
  (forall w, _wrapped_grad s' = Some w ->
             _ScalarGradWrapper.grad w = _orig_grad s) ->
  (g_updated s = true -> g_updated s' = true) ->
  x_prev s' = x_prev s -> g_prev s' = g_prev s ->
  E s' = E s ->
  W s' /\ upd_rel s s'.
Proof.
  intros HW c1 c2 c3 Hx Hf Hfv Hn Hlx Hlf Hw Hg Hxp Hgp HE. split.
  - split.
    + rewrite Hf, Hfv, c1, Hx, HE. apply (W_f _ HW).
    + rewrite Hn, HE. apply (W_n _ HW).
    + rewrite c1, HE, Hlx, Hlf. apply (W_l _ HW).
    + intros w Hw'. rewrite c2. apply Hw, Hw'.
  - split; auto.
    + repeat split; assumption.
    + rewrite Hf. intros H; exact H.
    + rewrite HE, Hf. destruct (f_updated s); simpl; symmetry; apply app_nil_r.
Qed.

Lemma _update_fun_spec s :
  W s ->
  wp _update_fun s
     (fun _ s' => W s' /\ upd_rel s s' /\ f_updated s' = true /\
                  g_updated s' = g_updated s /\ H_updated s' = H_updated s /\
                  H_ s' = H_ s /\ _wrapped_grad s' = _wrapped_grad s /\
                  (f_updated s = true -> s' = s) /\
                  trace s' = trace s ++
                    (if f_updated s then [] else [EvFun (x_ s)]))
     no_raise.
Proof.
  intros HW. unfold _update_fun.
  do 3 wp_step.
  destruct (f_updated s) eqn:Hf; cbn.
  - split; [exact HW | split; [apply upd_rel_refl | repeat split; auto]].
    symmetry; apply app_nil_r.
  - do 5 wp_step.
    assert (HE : forall s', E s' = E s ++ [x_ s] ->
              _wrapped_fun s' = _wrapped_fun s ->
              _orig_grad s' = _orig_grad s -> _orig_hess s' = _orig_hess s ->
              x_ s' = x_ s -> f_updated s' = true ->
              g_updated s' = g_updated s ->
              f_ s' = Some (_wrapped_fun s (x_ s)) ->
              _nfev s' = _nfev s + 1 ->
              _wrapped_grad s' = _wrapped_grad s ->
              x_prev s' = x_prev s -> g_prev s' = g_prev s ->
              best_ok (_wrapped_fun s) (E s ++ [x_ s])
                      (_lowest_x s') (_lowest_f s') ->
              W s' /\ upd_rel s s').
    { intros s' He Hc1 Hc2 Hc3 Hx Hf' Hg Hfv Hn Hw Hxp Hgp Hb. split.
      - split.
        + intros _. rewrite Hc1, Hx, He. split; [exact Hfv|].
          apply in_or_app; right; left; reflexivity.
        + rewrite Hn, He, length_app, (W_n _ HW). reflexivity.
        + rewrite Hc1, He. exact Hb.
        + intros w Hw'. rewrite Hc2. apply (W_w _ HW). congruence.
      - split; auto.
        + repeat split; assumption.
        + intros H; congruence.
        + rewrite Hf, Hf'. exact He. }
    pose proof (best_ok_step _ _ _ _ (x_ s) (W_l _ HW)) as Hb.
    destruct (_wrapped_fun s (x_ s) <? _lowest_f s)%float eqn:Hlt; cbn;
      do 4 wp_step; cbn;
      (split; [|split]; [apply HE; cbn; auto | apply HE; cbn; auto | ]);
      try (repeat split; auto; discriminate).
    all: try (unfold E; cbn; rewrite evaluated_points_app; reflexivity).
Qed.


Lemma grad_call_facts x f0 (w w' : _ScalarGradWrapper.t) g evs :
  _ScalarGradWrapper.__call__ x f0 w = Ok (g, w', evs) ->
  _ScalarGradWrapper.grad w' = _ScalarGradWrapper.grad w /\
  (if in_FD_METHODS (_ScalarGradWrapper.grad w)
   then evs = [EvApproxGrad x f0]
   else evs = [EvGrad x]).
Proof.
  unfold _ScalarGradWrapper.__call__.
  destruct (_ScalarGradWrapper.grad w) as [gr|m| |] eqn:Hg; cbn.
  - intros H. inversion H; subst; cbn. split; [congruence | reflexivity].
  - destruct (existsb (String.eqb m) FD_METHODS); [|discriminate].
    destruct (approx_derivative_1d _ _ _ _) as [g' k].
    intros H. inversion H; subst; cbn. split; [congruence | reflexivity].
  - discriminate.
  - discriminate.
Qed.

Lemma hess_call_facts x f0 (w w' : _ScalarHessWrapper.t) H evs :
  _ScalarHessWrapper.__call__ x f0 w = Ok (H, w', evs) ->
  evs = [EvHess x] \/ evs = [EvApproxHess x f0].
Proof.
  unfold _ScalarHessWrapper.__call__.
  destruct (_ScalarHessWrapper._hess_func w) as [[]|]; try discriminate.
  - destruct (_ScalarHessWrapper.grad w); [|discriminate].
    destruct (approx_derivative_2d _ _ _ _).
    intros E0; inversion E0; subst. right; reflexivity.
  - destruct (_ScalarHessWrapper.call_hess w x); [|discriminate].
    destruct (to_csr a); [|discriminate].
    intros E0; inversion E0; subst. left; reflexivity.
  - destruct (_ScalarHessWrapper.call_hess w x); [|discriminate].
    intros E0; inversion E0; subst. left; reflexivity.
  - destruct (_ScalarHessWrapper.call_hess w x); [|discriminate].
    intros E0; inversion E0; subst. left; reflexivity.
Qed.

Lemma call__wrapped_grad_spec x f0 s :
  W s ->
  wp (call__wrapped_grad x f0) s
     (fun _ s' => W s' /\ upd_rel s s' /\ f_updated s' = f_updated s /\
                  g_updated s' = g_updated s /\ H_updated s' = H_updated s /\
                  H_ s' = H_ s /\ f_ s' = f_ s /\ g_ s' = g_ s /\
                  trace s' = trace s ++
                    [if in_FD_METHODS (_orig_grad s)
                     then EvApproxGrad x (Some f0) else EvGrad x])
     may_raise.
Proof.
  intros HW. unfold call__wrapped_grad.
  do 2 wp_step. destruct (_wrapped_grad s) as [w|] eqn:Hw; [|exact I].
  do 2 wp_step.
  destruct (_ScalarGradWrapper.__call__ x (Some f0) w) as [[[g w'] evs]|]
    eqn:Hc; [|exact I].
  apply grad_call_facts in Hc. destruct Hc as [Hg Hevs].
  rewrite (W_w _ HW _ Hw) in Hg, Hevs.
  do 5 wp_step. cbn.
  assert (Hnil : evaluated_points evs = []).
  { destruct (in_FD_METHODS (_orig_grad s)); subst evs; reflexivity. }
  split; [|split]; [| |repeat split; cbn; auto].
  - apply (W_upd_frame s); cbn; auto.
    + intros w0 Hw0. inversion Hw0; subst. exact Hg.
    + unfold E; cbn. rewrite evaluated_points_app, Hnil. apply app_nil_r.
  - apply (W_upd_frame s); cbn; auto.
    + intros w0 Hw0. inversion Hw0; subst. exact Hg.
    + unfold E; cbn. rewrite evaluated_points_app, Hnil. apply app_nil_r.
  - destruct (in_FD_METHODS (_orig_grad s)); subst evs; reflexivity.
Qed.

Ltac frame_tac s :=
  apply (W_upd_frame s); cbn; auto;
  try (apply W_w; assumption); try reflexivity;
  try (unfold E; cbn; rewrite evaluated_points_app; apply app_nil_r).

Lemma _update_grad_spec s :
  W s ->
  wp _update_grad s
     (fun _ s' =>
        W s' /\ upd_rel s s' /\ g_updated s' = true /\
        H_updated s' = H_updated s /\ H_ s' = H_ s /\
        (g_updated s = true -> s' = s) /\
        (g_updated s = false ->
         if in_FD_METHODS (_orig_grad s)
         then f_updated s' = true /\
              trace s' = trace s ++
                (if f_updated s then [] else [EvFun (x_ s)]) ++
                [EvApproxGrad (x_ s) (Some (_wrapped_fun s (x_ s)))]
         else f_updated s' = f_updated s /\
              trace s' = trace s ++ [EvGrad (x_ s)]))
     may_raise.
Proof.
  intros HW. unfold _update_grad.
  repeat wp_step.
  destruct (g_updated s) eqn:Hg; cbn.
  - split; [exact HW | split; [apply upd_rel_refl|]].
    repeat split; auto; discriminate.
  - repeat wp_step.
    destruct (in_FD_METHODS (_orig_grad s)) eqn:Hfd; cbn.
    + wp_call _update_fun_spec; [exact HW|].
      intros [] s1 (HW1 & Hr1 & Hf1 & Hg1 & HH1 & HHv1 & Hwg1 & Hsame1 & Htr1).
      repeat wp_step.
      destruct (W_f _ HW1 Hf1) as [Hfv1 _]. rewrite Hfv1.
      repeat wp_step.
      wp_call call__wrapped_grad_spec; [exact HW1|].
      intros g s2 (HW2 & Hr2 & Hf2 & Hg2 & HH2 & HHv2 & Hfv2 & Hgv2 & Htr2).
      repeat wp_step. cbn.
      assert (Hfr : W (set_g_updated true (set_g_ g s2)) /\
                    upd_rel s2 (set_g_updated true (set_g_ g s2)))
        by frame_tac s2.
      destruct Hfr as [HW3 Hr3].
      split; [exact HW3|]. split.
      { eapply upd_rel_trans; [|exact Hr3].
        eapply upd_rel_trans; eassumption. }
      destruct Hr1 as [(c1a & c1b & c1c) x1 fm1 gm1 [xp1 gp1] e1].
      repeat split; cbn; try congruence.
      rewrite Htr2, Htr1, c1b, Hfd, x1, c1a, <- app_assoc. reflexivity.
    + repeat wp_step.
      destruct (f_ s) as [f0|] eqn:Hfv; [|exact I].
      repeat wp_step.
      wp_call call__wrapped_grad_spec; [exact HW|].
      intros g s2 (HW2 & Hr2 & Hf2 & Hg2 & HH2 & HHv2 & Hfv2 & Hgv2 & Htr2).
      repeat wp_step. cbn.
      assert (Hfr : W (set_g_updated true (set_g_ g s2)) /\
                    upd_rel s2 (set_g_updated true (set_g_ g s2)))
        by frame_tac s2.
      destruct Hfr as [HW3 Hr3].
      split; [exact HW3|]. split.
      { eapply upd_rel_trans; eassumption. }
      repeat split; cbn; try congruence.
      rewrite Htr2, Hfd. reflexivity.
Qed.

Lemma call__wrapped_hess_spec x f0 s :
  W s ->
  wp (call__wrapped_hess x f0) s
     (fun _ s' => W s' /\ upd_rel s s' /\ f_updated s' = f_updated s /\
                  g_updated s' = g_updated s /\ H_updated s' = H_updated s /\
                  H_ s' = H_ s /\
                  count is_EvUpdate (trace s') = count is_EvUpdate (trace s))
     may_raise.
Proof.
  intros HW. unfold call__wrapped_hess.
  repeat wp_step. destruct (_wrapped_hess s) as [[a b|w]|] eqn:Hw;
    try exact I.
  repeat wp_step.
  destruct (_ScalarHessWrapper.__call__ x f0 w) as [[[H w'] evs]|]
    eqn:Hc; [|exact I].
  apply hess_call_facts in Hc.
  repeat wp_step. cbn.
  assert (Hnil : evaluated_points evs = [] /\ count is_EvUpdate evs = 0).
  { destruct Hc; subst evs; split; reflexivity. }
  destruct Hnil as [Hnil Hnu].
  split; [|split]; [| |repeat split; cbn; auto].
  - frame_tac s.
    unfold E; cbn. rewrite evaluated_points_app, Hnil. apply app_nil_r.
  - frame_tac s.
    unfold E; cbn. rewrite evaluated_points_app, Hnil. apply app_nil_r.
  - rewrite count_app, Hnu. apply Nat.add_0_r.
Qed.


Lemma H_update_spec dx dg s :
  W s ->
  wp (H_update dx dg) s
     (fun _ s' => W s' /\ upd_rel s s' /\ f_updated s' = f_updated s /\
                  g_updated s' = g_updated s /\ H_updated s' = H_updated s /\
                  trace s' = trace s ++ [EvUpdate dx dg] /\
                  exists h, H_ s = Some (HStrategy h) /\
                            H_ s' = Some (HStrategy (update dx dg h)))
     may_raise.
Proof.
  intros HW. unfold H_update.
  repeat wp_step. destruct (H_ s) as [[a|h]|] eqn:HH; try exact I.
  repeat wp_step. cbn.
  assert (Hfr : W (set_H_ (HStrategy (update dx dg h))
                     (emit [EvUpdate dx dg] s)) /\
                upd_rel s (set_H_ (HStrategy (update dx dg h))
                             (emit [EvUpdate dx dg] s))).
  { frame_tac s. }
  destruct Hfr as [HW1 Hr1].
  split; [exact HW1|]. split; [exact Hr1|].
  repeat split; auto. exists h. split; reflexivity.
Qed.

Lemma strategy_not_FD {F} (a : pyarg F) :
  isinstance_HessianUpdateStrategy a = true -> in_FD_METHODS a = false.
Proof. destruct a; simpl; congruence. Qed.

Lemma _update_hess_spec s :
  W s ->
  wp _update_hess s
     (fun _ s' =>
        W s' /\ upd_rel s s' /\ H_updated s' = true /\
        (H_updated s = true -> s' = s) /\
        (H_updated s = false ->
         isinstance_HessianUpdateStrategy (_orig_hess s) = true ->
         g_updated s' = true /\
         (g_updated s = false -> in_FD_METHODS (_orig_grad s) = true ->
          f_updated s' = true /\
          exists dx dg,
            trace s' = trace s ++
              (if f_updated s then [] else [EvFun (x_ s)]) ++
              [EvApproxGrad (x_ s) (Some (_wrapped_fun s (x_ s)));
               EvUpdate dx dg])))
     may_raise.
Proof.
  intros HW. unfold _update_hess.
  repeat wp_step.
  destruct (H_updated s) eqn:HH; cbn.
  - split; [exact HW | split; [apply upd_rel_refl|]].
    repeat split; auto; discriminate.
  - repeat wp_step.
    destruct (in_FD_METHODS (_orig_hess s)) eqn:Hfd.
    + repeat wp_step.
      wp_call _update_grad_spec; [exact HW|].
      intros [] s1 (HW1 & Hr1 & Hg1 & HH1 & HHv1 & Hsame1 & Htr1).
      repeat wp_step. destruct (g_ s1) as [g|]; [|exact I].
      repeat wp_step.
      wp_call call__wrapped_hess_spec; [exact HW1|].
      intros H s2 (HW2 & Hr2 & Hf2 & Hg2 & HH2 & HHv2 & Hcnt2).
      repeat wp_step. cbn.
      assert (Hfr : W (set_H_updated true (set_H_ (HArr H) s2)) /\
                    upd_rel s2 (set_H_updated true (set_H_ (HArr H) s2)))
        by frame_tac s2.
      destruct Hfr as [HW3 Hr3].
      split; [exact HW3|]. split.
      { eapply upd_rel_trans; [|exact Hr3].
        eapply upd_rel_trans; eassumption. }
      split; [reflexivity|]. split; [discriminate|].
      intros _ Hqn. apply strategy_not_FD in Hqn. congruence.
    + destruct (isinstance_HessianUpdateStrategy (_orig_hess s)) eqn:Hqn.
      * repeat wp_step.
        wp_call _update_grad_spec; [exact HW|].
        intros [] s1 (HW1 & Hr1 & Hg1 & HH1 & HHv1 & Hsame1 & Htr1).
        repeat wp_step.
        destruct (sub_prev (x_ s1) (x_prev s1)) as [dx|]; [|exact I].
        repeat wp_step. destruct (g_ s1) as [g|]; [|exact I].
        repeat wp_step.
        destruct (sub_prev g (g_prev s1)) as [dg|]; [|exact I].
        wp_call H_update_spec; [exact HW1|].
        intros [] s2 (HW2 & Hr2 & Hf2 & Hg2 & HH2 & Htr2 & _).
        repeat wp_step. cbn.
        assert (Hfr : W (set_H_updated true s2) /\
                      upd_rel s2 (set_H_updated true s2))
          by frame_tac s2.
        destruct Hfr as [HW3 Hr3].
        split; [exact HW3|]. split.
        { eapply upd_rel_trans; [|exact Hr3].
          eapply upd_rel_trans; eassumption. }
        split; [reflexivity|]. split; [discriminate|].
        intros _ _. split; [cbn; congruence|].
        intros Hgs Hfds. specialize (Htr1 Hgs). rewrite Hfds in Htr1.
        destruct Htr1 as [Hf1 Htr1]. split; [cbn; congruence|].
        exists dx, dg. cbn. rewrite Htr2, Htr1, <- !app_assoc. reflexivity.
      * repeat wp_step.
        wp_call call__wrapped_hess_spec; [exact HW|].
        intros H s2 (HW2 & Hr2 & Hf2 & Hg2 & HH2 & HHv2 & Hcnt2).
        repeat wp_step. cbn.
        assert (Hfr : W (set_H_updated true (set_H_ (HArr H) s2)) /\
                      upd_rel s2 (set_H_updated true (set_H_ (HArr H) s2)))
          by frame_tac s2.
        destruct Hfr as [HW3 Hr3].
        split; [exact HW3|]. split.
        { eapply upd_rel_trans; eassumption. }
        split; [reflexivity|]. split; [discriminate|].
        intros _ Hq. discriminate.
Qed.


(** The state of the engine between two public calls: with a
    quasi-Newton Hessian the gradient is never left stale. *)
Definition Inv (s : t) : Prop :=
  W s /\
  (isinstance_HessianUpdateStrategy (_orig_hess s) = true ->
   g_updated s = true).

Lemma W_moved x xp gp s :
  W s ->
  W (set_H_updated false (set_g_updated false (set_f_updated false
       (set_x_ x (set_g_prev gp (set_x_prev xp s)))))).
Proof.
  intros HW. split; cbn.
  - discriminate.
  - apply (W_n _ HW).
  - apply (W_l _ HW).
  - apply (W_w _ HW).
Qed.

Lemma _update_x_spec x s :
  Inv s ->
  wp (_update_x x) s
     (fun _ s' =>
        W s' /\ same_config s s' /\ x_ s' = x /\
        E s' = E s ++ (if f_updated s' then [x] else []) /\
        (if isinstance_HessianUpdateStrategy (_orig_hess s)
         then g_updated s' = true /\ H_updated s' = true /\
              x_prev s' = Some (x_ s) /\
              (in_FD_METHODS (_orig_grad s) = true ->
               f_updated s' = true /\
               exists dx dg,
                 trace s' = trace s ++
                   [EvFun x;
                    EvApproxGrad x (Some (_wrapped_fun s x));
                    EvUpdate dx dg])
         else f_updated s' = false /\ g_updated s' = false /\
              H_updated s' = false /\ trace s' = trace s))
     may_raise.
Proof.
  intros [HW Hqg]. unfold _update_x.
  repeat wp_step.
  destruct (isinstance_HessianUpdateStrategy (_orig_hess s)) eqn:Hqn.
  - repeat wp_step.
    wp_call _update_grad_spec; [exact HW|].
    intros [] s1 (_ & _ & _ & _ & _ & Hsame & _).
    rewrite (Hsame (Hqg eq_refl)). clear s1 Hsame.
    repeat wp_step. cbn.
    destruct (g_ s) as [g|]; [|exact I].
    repeat wp_step.
    set (sa := set_H_updated false _).
    assert (HWa : W sa) by apply W_moved, HW.
    wp_call _update_hess_spec; [exact HWa|].
    intros [] s2 (HW2 & Hr2 & HH2 & _ & Hq2).
    destruct Hr2 as [(c1 & c2 & c3) Hx _ _ [Hxp Hgp] HE].
    specialize (Hq2 eq_refl Hqn). destruct Hq2 as [Hg2 Hfd2].
    split; [exact HW2|]. split; [repeat split; assumption|].
    split; [exact Hx|]. split; [exact HE|].
    split; [exact Hg2|]. split; [exact HH2|]. split; [exact Hxp|].
    intros Hfd. exact (Hfd2 eq_refl Hfd).
  - repeat wp_step. cbn.
    split; [apply (W_moved x (x_prev s) (g_prev s) s HW)|].
    split; [repeat split|]. split; [reflexivity|].
    split; [symmetry; apply app_nil_r|]. repeat split.
Qed.

(** The point an accessor leaves in [x_] when called with [x]. *)
Definition moved_to (x : vec) (s : t) : vec :=
  if array_equal x (x_ s) then x_ s else x.

Lemma fun_spec x s :
  Inv s ->
  wp (fun_ x) s
     (fun v s' =>
        Inv s' /\ same_config s s' /\ f_updated s' = true /\
        v = _wrapped_fun s (moved_to x s) /\ x_ s' = moved_to x s /\
        E s' = E s ++ (if array_equal x (x_ s) && f_updated s
                       then [] else [moved_to x s]) /\
        (array_equal x (x_ s) = true -> f_updated s = true -> s' = s))
     may_raise.
Proof.
  intros HI. pose proof HI as [HW Hqg]. unfold fun_, moved_to.
  repeat wp_step.
  destruct (array_equal x (x_ s)) eqn:Hx; cbn.
  - repeat wp_step.
    wp_call _update_fun_spec; [exact HW|].
    intros [] s1 (HW1 & Hr1 & Hf1 & Hg1 & _ & _ & _ & Hsame & _).
    destruct (W_f _ HW1 Hf1) as [Hfv1 _].
    repeat wp_step. rewrite Hfv1.
    destruct Hr1 as [(c1 & c2 & c3) Hx1 _ _ _ HE].
    split; [split; [exact HW1 | rewrite c3, Hg1; exact Hqg]|].
    split; [repeat split; assumption|]. split; [exact Hf1|].
    split; [congruence|]. split; [exact Hx1|].
    split; [|intros _; exact Hsame].
    rewrite HE, Hf1. destruct (f_updated s); reflexivity.
  - wp_call _update_x_spec; [exact HI|].
    intros [] s1 (HW1 & (c1 & c2 & c3) & Hx1 & HE1 & Hcase).
    repeat wp_step.
    wp_call _update_fun_spec; [exact HW1|].
    intros [] s2 (HW2 & Hr2 & Hf2 & Hg2 & _ & _ & _ & _ & _).
    destruct (W_f _ HW2 Hf2) as [Hfv2 _].
    repeat wp_step. rewrite Hfv2.
    destruct Hr2 as [(d1 & d2 & d3) Hx2 _ _ _ HE2].
    split.
    { split; [exact HW2|]. rewrite d3, c3, Hg2. intros Hq.
      rewrite Hq in Hcase. apply Hcase. }
    split; [repeat split; congruence|]. split; [exact Hf2|].
    split; [congruence|]. split; [congruence|].
    split; [|discriminate].
    rewrite HE2, HE1, Hf2, Hx1, <- app_assoc. f_equal.
    destruct (f_updated s1); reflexivity.
Qed.

Lemma grad_spec x s :
  Inv s ->
  wp (grad x) s
     (fun _ s' =>
        Inv s' /\ same_config s s' /\ g_updated s' = true /\
        x_ s' = moved_to x s /\ (exists l, E s' = E s ++ l) /\
        (in_FD_METHODS (_orig_grad s) = true ->
         array_equal x (x_ s) = false ->
         f_updated s' = true /\
         f_ s' = Some (_wrapped_fun s x) /\
         E s' = E s ++ [x] /\
         exists post,
           trace s' = trace s ++
             EvFun x :: EvApproxGrad x (Some (_wrapped_fun s x)) :: post /\
           evaluated_points post = []))
     may_raise.
Proof.
  intros HI. pose proof HI as [HW Hqg]. unfold grad, moved_to.
  repeat wp_step.
  destruct (array_equal x (x_ s)) eqn:Hx; cbn.
  - repeat wp_step.
    wp_call _update_grad_spec; [exact HW|].
    intros [] s1 (HW1 & Hr1 & Hg1 & _).
    repeat wp_step. destruct (g_ s1); [|exact I].
    destruct Hr1 as [(c1 & c2 & c3) Hx1 _ _ _ HE].
    split; [split; [exact HW1 | intros _; exact Hg1]|].
    split; [repeat split; assumption|]. split; [exact Hg1|].
    split; [exact Hx1|]. split; [eexists; exact HE|]. discriminate.
  - wp_call _update_x_spec; [exact HI|].
    intros [] s1 (HW1 & (c1 & c2 & c3) & Hx1 & HE1 & Hcase).
    repeat wp_step.
    wp_call _update_grad_spec; [exact HW1|].
    intros [] s2 (HW2 & Hr2 & Hg2 & _ & _ & Hsame2 & Htr2).
    repeat wp_step. destruct (g_ s2); [|exact I].
    destruct Hr2 as [(d1 & d2 & d3) Hx2 Hfm2 _ _ HE2].
    split; [split; [exact HW2 | intros _; exact Hg2]|].
    split; [repeat split; congruence|]. split; [exact Hg2|].
    split; [congruence|].
    split; [eexists; rewrite HE2, HE1, <- app_assoc; reflexivity|].
    intros Hfd _.
    destruct (isinstance_HessianUpdateStrategy (_orig_hess s)) eqn:Hqn.
    + destruct Hcase as (Hg1 & _ & _ & Hfd1).
      destruct (Hfd1 Hfd) as (Hf1 & dx & dg & Htr1).
      rewrite (Hsame2 Hg1) in *.
      destruct (W_f _ HW1 Hf1) as [Hfv1 _].
      split; [exact Hf1|]. split; [congruence|].
      split; [rewrite HE1, Hf1; reflexivity|].
      exists [EvUpdate dx dg]. split; [exact Htr1 | reflexivity].
    + destruct Hcase as (Hf1 & Hg1 & _ & Htr1).
      specialize (Htr2 Hg1). rewrite c2, Hfd in Htr2.
      destruct Htr2 as [Hf2 Htr2].
      destruct (W_f _ HW2 Hf2) as [Hfv2 _].
      split; [exact Hf2|]. split; [congruence|].
      split; [rewrite HE2, HE1, Hf1, Hf2, Hx1, app_nil_r; reflexivity|].
      exists []. split; [|reflexivity].
      rewrite Htr2, Htr1, Hf1, Hx1, c1. reflexivity.
Qed.

Lemma hess_spec x s :
  Inv s ->
  wp (hess x) s
     (fun _ s' => Inv s' /\ same_config s s' /\ (exists l, E s' = E s ++ l))
     may_raise.
Proof.
  intros HI. pose proof HI as [HW Hqg]. unfold hess.
  repeat wp_step.
  destruct (array_equal x (x_ s)) eqn:Hx; cbn.
  - repeat wp_step.
    wp_call _update_hess_spec; [exact HW|].
    intros [] s1 (HW1 & Hr1 & _).
    repeat wp_step. destruct (H_ s1); [|exact I].
    destruct Hr1 as [(c1 & c2 & c3) Hx1 _ Hgm _ HE].
    split; [split; [exact HW1 | rewrite c3; auto]|].
    split; [repeat split; assumption | eexists; exact HE].
  - wp_call _update_x_spec; [exact HI|].
    intros [] s1 (HW1 & (c1 & c2 & c3) & Hx1 & HE1 & Hcase).
    repeat wp_step.
    wp_call _update_hess_spec; [exact HW1|].
    intros [] s2 (HW2 & Hr2 & _).
    repeat wp_step. destruct (H_ s2); [|exact I].
    destruct Hr2 as [(d1 & d2 & d3) Hx2 _ Hgm2 _ HE2].
    split.
    { split; [exact HW2|]. rewrite d3, c3. intros Hq.
      rewrite Hq in Hcase. apply Hgm2, Hcase. }
    split; [repeat split; congruence|].
    eexists; rewrite HE2, HE1, <- app_assoc; reflexivity.
Qed.

Lemma fun_and_grad_spec x s :
  Inv s ->
  wp (fun_and_grad x) s
     (fun _ s' => Inv s' /\ same_config s s' /\ (exists l, E s' = E s ++ l))
     may_raise.
Proof.
  intros HI. pose proof HI as [HW Hqg]. unfold fun_and_grad.
  repeat wp_step.
  destruct (array_equal x (x_ s)) eqn:Hx; cbn.
  - repeat wp_step.
    wp_call _update_fun_spec; [exact HW|].
    intros [] s1 (HW1 & Hr1 & _).
    repeat wp_step.
    wp_call _update_grad_spec; [exact HW1|].
    intros [] s2 (HW2 & Hr2 & Hg2 & _).
    repeat wp_step. destruct (f_ s2); [|exact I].
    repeat wp_step. destruct (g_ s2); [|exact I].
    repeat wp_step.
    destruct (upd_rel_trans _ _ _ Hr1 Hr2) as [(c1 & c2 & c3) _ _ _ _ HE].
    split; [split; [exact HW2 | intros _; exact Hg2]|].
    split; [repeat split; assumption | eexists; exact HE].
  - wp_call _update_x_spec; [exact HI|].
    intros [] s0 (HW0 & (c1 & c2 & c3) & Hx0 & HE0 & Hcase).
    repeat wp_step.
    wp_call _update_fun_spec; [exact HW0|].
    intros [] s1 (HW1 & Hr1 & _).
    repeat wp_step.
    wp_call _update_grad_spec; [exact HW1|].
    intros [] s2 (HW2 & Hr2 & Hg2 & _).
    repeat wp_step. destruct (f_ s2); [|exact I].
    repeat wp_step. destruct (g_ s2); [|exact I].
    repeat wp_step.
    destruct (upd_rel_trans _ _ _ Hr1 Hr2) as [(d1 & d2 & d3) _ _ _ _ HE].
    split; [split; [exact HW2 | intros _; exact Hg2]|].
    split; [repeat split; congruence|].
    eexists; rewrite HE, HE0, <- app_assoc; reflexivity.
Qed.


(** The gradient the engine holds at [x]: the user's, or the
    finite-difference estimate from the base value [fun_ x]. *)
Definition gradient_at (fun_ : vec -> float) (grad : pyarg (vec -> vec))
    (hess : pyarg (vec -> array2)) (user : fd_user) (x : vec) : vec :=
  match grad with
  | Callable gr => gr x
  | _ => fst (approx_derivative_1d (make_finite_diff_options grad hess user)
                fun_ x (Some (fun_ x)))
  end.

Definition gradient_event (grad : pyarg (vec -> vec)) (x : vec) (f0 : float)
    : event :=
  if in_FD_METHODS grad then EvApproxGrad x (Some f0) else EvGrad x.

(** What [__init__] leaves behind. *)
Definition init_post (fun_ : vec -> float) (x0 : vec)
    (grad : pyarg (vec -> vec)) (hess : pyarg (vec -> array2))
    (user : fd_user) (s0 : t) : Prop :=
  Inv s0 /\
  (_wrapped_fun s0 = fun_ /\ _orig_grad s0 = grad /\ _orig_hess s0 = hess /\
   x_ s0 = x0 /\ n_ s0 = List.length x0) /\
  (f_updated s0 = true /\ g_updated s0 = true /\ H_updated s0 = true) /\
  (f_ s0 = Some (fun_ x0) /\
   g_ s0 = Some (gradient_at fun_ grad hess user x0)) /\
  (_nfev s0 = 1 /\ ngev s0 = Ok 1 /\ exists k, nfev s0 = Ok (1 + k)) /\
  (x_prev s0 = None /\ g_prev s0 = None) /\
  match hess with
  | Callable h =>
      trace s0 = [EvFun x0; gradient_event grad x0 (fun_ x0); EvHess x0] /\
      nhev s0 = Ok 1
  | Str _ =>
      trace s0 = [EvFun x0; gradient_event grad x0 (fun_ x0);
                  EvApproxHess x0 (Some (gradient_at fun_ grad hess user x0))]
      /\ nhev s0 = Ok 0
  | Strategy h =>
      trace s0 = [EvFun x0; gradient_event grad x0 (fun_ x0);
                  EvInitialize (List.length x0)] /\
      nhev s0 = Ok 0 /\
      H_ s0 = Some (HStrategy (initialize (List.length x0) h))
  | NoneArg => False
  end.

Lemma init_facts fun_ x0 grad hess user s0 :
  __init__ fun_ x0 grad hess user = Ok s0 ->
  init_post fun_ x0 grad hess user s0.
Proof.
  unfold __init__.
  destruct (negb (callable grad) && negb (in_FD_METHODS grad)) eqn:V1;
    [discriminate|].
  destruct (negb (callable hess || in_FD_METHODS hess
                  || isinstance_HessianUpdateStrategy hess)) eqn:V2;
    [discriminate|].
  destruct (in_FD_METHODS grad && in_FD_METHODS hess) eqn:V3; [discriminate|].
  intros Hb.
  apply (init_elim _ _ (init_post fun_ x0 grad hess user) _ Hb). clear Hb.
  destruct grad as [gr|gm|gh|], hess as [h|hm|hh|]; try discriminate;
    cbn in V1, V2, V3.
  all: wp_exec.
  all: try exact I.
  all: unfold init_post, Inv, gradient_at, gradient_event.
  all: repeat match goal with
         | |- _ /\ _ => split
         | |- W _ => split
         end; cbn; try reflexivity; try discriminate.
  all: try (intros _; split; [reflexivity | left; reflexivity]).
  all: try (intros w Hw; inversion Hw; reflexivity).
  all: try (eexists; reflexivity).
  all: try (split; cbn;
            [intros p [<-|[]]; first [apply float_ltb_irrefl | assumption]
            |first [reflexivity | split; [left|]; reflexivity]]).
  all: repeat match goal with
              | H : ?a = _ |- context [?a] => rewrite H
              end; cbn; try reflexivity.
Qed.

(** The Hessian the engine holds once built at [x]: the user's there,
    the finite-difference estimate of the wrapped gradient from the base
    value of the gradient there, or the quasi-Newton object as
    initialised. *)
Definition hessian_at (fun_ : vec -> float) (grad : pyarg (vec -> vec))
    (hess : pyarg (vec -> array2)) (user : fd_user) (x : vec) : hessian :=
  match hess with
  | Callable h => HArr (h x)
  | Strategy h => HStrategy (initialize (List.length x) h)
  | _ =>
      let finite_diff_options := make_finite_diff_options grad hess user in
      HArr (fst (approx_derivative_2d finite_diff_options
                   (_ScalarGradWrapper.as_function
                      (_ScalarGradWrapper.__init__ grad fun_
                         finite_diff_options))
                   x (Some (gradient_at fun_ grad hess user x))))
  end.

(** With arguments that pass its three checks, [__init__] returns an
    engine, and the engine holds the Hessian at [x0]. *)
Lemma init_returns fun_ x0 grad hess user :
  callable grad || in_FD_METHODS grad = true ->
  callable hess || in_FD_METHODS hess
  || isinstance_HessianUpdateStrategy hess = true ->
  in_FD_METHODS grad && in_FD_METHODS hess = false ->
  exists s0,
    __init__ fun_ x0 grad hess user = Ok s0 /\
    H_ s0 = Some (hessian_at fun_ grad hess user x0).
Proof.
  intros V1 V2 V3. unfold __init__.
  replace (negb (callable grad) && negb (in_FD_METHODS grad)) with false
    by (rewrite <- negb_orb, V1; reflexivity).
  rewrite V2, V3. cbn [negb].
  match goal with
  | |- exists s0, match ?b ?s with _ => _ end = Ok s0 /\ _ =>
      enough (Hw : wp b s
                     (fun _ s' =>
                        H_ s' = Some (hessian_at fun_ grad hess user x0))
                     no_raise)
        by (destruct (wp_succeeds _ _ _ Hw) as ([] & s1 & -> & HH);
            exists s1; split; [reflexivity | exact HH])
  end.
  destruct grad as [gr|gm|gh|], hess as [h|hm|hh|]; try discriminate;
    cbn in V1, V2, V3.
  all: wp_exec.
  all: unfold hessian_at, gradient_at; cbn.
  all: try reflexivity.
  all: try (exfalso; cbn in *; congruence).
  all: exfalso; rewrite V1 in V3; discriminate.
Qed.


(** A call whose answer is cached returns it and leaves the engine as it
    is. *)
Lemma fun_cached x s v :
  array_equal x (x_ s) = true -> f_updated s = true -> f_ s = Some v ->
  fun_ x s = Ok (v, s).
Proof.
  intros Hx Hf Hv. apply wp_exact. wp_exec. split; reflexivity.
Qed.

Lemma hess_cached x s H :
  array_equal x (x_ s) = true -> H_updated s = true -> H_ s = Some H ->
  hess x s = Ok (H, s).
Proof.
  intros Hx Hf Hv. apply wp_exact. wp_exec. split; reflexivity.
Qed.

(** The engines a caller can hold: built by [__init__] and driven
    through the public methods, every call having returned. *)
Definition reachable (s : t) : Prop :=
  exists fun_ x0 grad hess user s0 calls,
    __init__ fun_ x0 grad hess user = Ok s0 /\
    run scalar_step calls s0 = Ok (tt, s).

Lemma step_spec c s :
  Inv s ->
  wp (scalar_step c) s
     (fun _ s' =>
        Inv s' /\ same_config s s' /\ (exists l, E s' = E s ++ l) /\
        forall x, c = CallFun x ->
                  exists q, In q (E s') /\ (x = q \/ array_equal x q = true))
     may_raise.
Proof.
  intros HI. destruct c as [x|x|x|x]; cbn [scalar_step]; wp_step.
  - wp_call fun_spec; [exact HI|].
    intros v s1 (HI1 & Hc & Hf & _ & Hx & HE & _). wp_step.
    split; [exact HI1|]. split; [exact Hc|]. split; [eexists; exact HE|].
    intros x' Hx'. inversion Hx'; subst x'. clear Hx'.
    exists (x_ s1). split; [apply (W_f _ (proj1 HI1) Hf)|].
    rewrite Hx. unfold moved_to.
    destruct (array_equal x (x_ s)) eqn:Hxx; [right; exact Hxx | left; reflexivity].
  - wp_call grad_spec; [exact HI|].
    intros v s1 (HI1 & Hc & _ & _ & HE & _). wp_step.
    split; [exact HI1|]. split; [exact Hc|]. split; [exact HE|]. discriminate.
  - wp_call hess_spec; [exact HI|].
    intros v s1 (HI1 & Hc & HE). wp_step.
    split; [exact HI1|]. split; [exact Hc|]. split; [exact HE|]. discriminate.
  - wp_call fun_and_grad_spec; [exact HI|].
    intros v s1 (HI1 & Hc & HE). wp_step.
    split; [exact HI1|]. split; [exact Hc|]. split; [exact HE|]. discriminate.
Qed.

Lemma run_spec calls : forall s,
  Inv s ->
  wp (run scalar_step calls) s
     (fun _ s' =>
        Inv s' /\ same_config s s' /\ (exists l, E s' = E s ++ l) /\
        forall x, In (CallFun x) calls ->
                  exists q, In q (E s') /\ (x = q \/ array_equal x q = true))
     may_raise.
Proof.
  induction calls as [|c calls IH]; intros s HI; cbn [run].
  - wp_step. split; [exact HI|]. split; [apply same_config_refl|].
    split; [exists []; symmetry; apply app_nil_r|]. intros x [].
  - wp_step. wp_call step_spec; [exact HI|].
    intros [] s1 (HI1 & Hc1 & [l1 HE1] & Hreq1).
    wp_call IH; [exact HI1|].
    intros [] s2 (HI2 & Hc2 & [l2 HE2] & Hreq2).
    split; [exact HI2|].
    split; [eapply same_config_trans; eassumption|].
    split; [exists (l1 ++ l2); rewrite HE2, HE1, app_assoc; reflexivity|].
    intros x [Hx|Hx]; [|apply Hreq2, Hx].
    destruct (Hreq1 x Hx) as (q & Hq & Hxq).
    exists q. split; [|exact Hxq]. rewrite HE2. apply in_or_app; left; exact Hq.
Qed.

Lemma reachable_Inv s : reachable s -> Inv s.
Proof.
  intros (fun_ & x0 & grad & hess & user & s0 & calls & Hinit & Hrun).
  apply init_facts in Hinit. destruct Hinit as (HI0 & _).
  apply (wp_elim _ _ _ _ _ _ (run_spec calls s0 HI0) Hrun).
Qed.

End Facts.
End ScalarFacts.

(** ** The vector engine: invariants *)

Module VectorFacts.
Import VectorFunction.

Arguments _update_v : simpl never.
Arguments _update_fun : simpl never.
Arguments _update_jac : simpl never.
Arguments _update_hess : simpl never.
Arguments _update_x : simpl never.
Arguments call_fun_wrapped : simpl never.
Arguments call_jac_wrapped : simpl never.
Arguments call_hess_wrapped : simpl never.
Arguments H_update : simpl never.
Arguments fun_ : simpl never.
Arguments jac : simpl never.
Arguments hess : simpl never.

Ltac wp_exec :=
  repeat first
    [ wp_step
    | progress cbn
    | match goal with
      | H : ?a = _ |- context [?a] => rewrite H
      end
    | match goal with
      | |- wp (_update_v _) _ _ _ => unfold _update_v
      | |- wp _update_fun _ _ _ => unfold _update_fun
      | |- wp _update_jac _ _ _ => unfold _update_jac
      | |- wp _update_hess _ _ _ => unfold _update_hess
      | |- wp (_update_x _) _ _ _ => unfold _update_x
      | |- wp (call_fun_wrapped _) _ _ _ => unfold call_fun_wrapped
      | |- wp (call_jac_wrapped _ _) _ _ _ => unfold call_jac_wrapped
      | |- wp (call_hess_wrapped _ _ _) _ _ _ => unfold call_hess_wrapped
      | |- wp (H_update _ _) _ _ _ => unfold H_update
      | |- wp (fun_ _) _ _ _ => unfold fun_
      | |- wp (jac _) _ _ _ => unfold jac
      | |- wp (hess _ _) _ _ _ => unfold hess
      | |- wp (if ?b then _ else _) _ _ _ => destruct_inner b
      | |- wp (match ?x with _ => _ end) _ _ _ => destruct_inner x
      | |- if ?b then _ else _ => destruct_inner b
      | |- match ?x with _ => _ end => destruct_inner x
      end ].

Section Facts.
Context {C : Collaborators}.

Definition E (s : t) : list vec := evaluated_points (trace s).

Definition same_config (s s' : t) : Prop :=
  _orig_fun s' = _orig_fun s /\ _orig_jac s' = _orig_jac s /\
  _orig_hess s' = _orig_hess s /\ n_ s' = n_ s.

(** What holds of the attributes whenever a method is entered or left,
    the private ones included. *)
Record W (s : t) : Prop := mkW {
  W_f : f_updated s = true -> f_ s = Some (_orig_fun s (x_ s));
  W_fw : forall w, fun_wrapped s = Some w ->
                   _VectorFunWrapper.fun_ w = _orig_fun s;
  W_hw : forall w, hess_wrapped s = Some w ->
                   _VectorHessWrapper.hess w = _orig_hess s;
  W_hj : in_FD_METHODS (_orig_hess s) = true ->
         H_updated s = true -> J_updated s = true;
  W_qn : forall h, _orig_hess s = Strategy h -> x_prev s = None ->
                   H_ s = Some (HStrategy (initialize (n_ s) h)) /\
                   count is_EvUpdate (trace s) = 0;
  W_v : v_ s <> None;
  W_valid : callable (_orig_hess s) = true \/
            in_FD_METHODS (_orig_hess s) = true \/
            isinstance_HessianUpdateStrategy (_orig_hess s) = true
}.

(** The function value, its counter and its events are untouched. *)
Definition f_frame (s s' : t) : Prop :=
  f_updated s' = f_updated s /\ f_ s' = f_ s /\ _nfev s' = _nfev s /\
  fun_wrapped s' = fun_wrapped s /\ E s' = E s /\
  count is_EvFun (trace s') = count is_EvFun (trace s).

(** The Jacobian, its counter and its events are untouched. *)
Definition J_frame (s s' : t) : Prop :=
  J_updated s' = J_updated s /\ J_ s' = J_ s /\ _njev s' = _njev s /\
  jac_wrapped s' = jac_wrapped s /\
  count is_EvJac (trace s') = count is_EvJac (trace s).

(** What the [_update_*] methods other than [_update_x] and [_update_v]
    change: the point, the multiplier and the snapshot stay; a fresh value
    or Jacobian is kept as it is; the user function is called at most
    once, at the point, exactly when the value was stale and is fresh
    after. *)
Record upd_rel (s s' : t) : Prop := mk_upd_rel {
  upd_config : same_config s s';
  upd_x : x_ s' = x_ s;
  upd_v : v_ s' = v_ s;
  upd_prev : x_prev s' = x_prev s /\ J_prev s' = J_prev s;
  upd_f : f_updated s = true -> f_frame s s';
  upd_J : J_updated s = true -> J_frame s s';
  upd_E : E s' =
          E s ++ (if negb (f_updated s) && f_updated s' then [x_ s] else []);
  upd_n : _nfev s' =
          _nfev s + (if negb (f_updated s) && f_updated s' then 1 else 0);
  upd_hnjev : option_map _VectorHessWrapper.njev (hess_wrapped s') =
              option_map _VectorHessWrapper.njev (hess_wrapped s)
}.

Lemma same_config_refl_v s : same_config s s.
Proof. repeat split. Qed.

Lemma same_config_trans_v s1 s2 s3 :
  same_config s1 s2 -> same_config s2 s3 -> same_config s1 s3.
Proof.
  unfold same_config. intros (a & b & c & d) (a' & b' & c' & d').
  repeat split; congruence.
Qed.

Lemma f_frame_refl s : f_frame s s.
Proof. repeat split. Qed.

Lemma J_frame_refl s : J_frame s s.
Proof. repeat split. Qed.

Lemma f_frame_trans s1 s2 s3 : f_frame s1 s2 -> f_frame s2 s3 -> f_frame s1 s3.
Proof.
  unfold f_frame. intros (a1 & a2 & a3 & a4 & a5 & a6) (b1 & b2 & b3 & b4 & b5 & b6).
  repeat split; congruence.
Qed.

Lemma J_frame_trans s1 s2 s3 : J_frame s1 s2 -> J_frame s2 s3 -> J_frame s1 s3.
Proof.
  unfold J_frame. intros (a1 & a2 & a3 & a4 & a5) (b1 & b2 & b3 & b4 & b5).
  repeat split; congruence.
Qed.

Lemma upd_rel_refl_v s : upd_rel s s.
Proof.
  split; auto using same_config_refl_v, f_frame_refl, J_frame_refl.
  - destruct (f_updated s); simpl; symmetry; apply app_nil_r.
  - destruct (f_updated s); simpl; symmetry; apply Nat.add_0_r.
Qed.

Lemma upd_rel_trans_v s1 s2 s3 : upd_rel s1 s2 -> upd_rel s2 s3 -> upd_rel s1 s3.
Proof.
  intros [c1 x1 v1 [p1 q1] f1 j1 e1 n1 h1] [c2 x2 v2 [p2 q2] f2 j2 e2 n2 h2].
  assert (Hmono : f_updated s1 = true -> f_updated s2 = true).
  { intros Hf. destruct (f1 Hf) as [a _]. congruence. }
  assert (Hmono2 : f_updated s2 = true -> f_updated s3 = true).
  { intros Hf. destruct (f2 Hf) as [a _]. congruence. }
  split.
  - eapply same_config_trans_v; eassumption.
  - congruence.
  - congruence.
  - split; congruence.
  - intros Hf. eapply f_frame_trans; [exact (f1 Hf)|]. apply f2, Hmono, Hf.
  - intros HJ. eapply J_frame_trans; [exact (j1 HJ)|]. apply j2.
    destruct (j1 HJ) as [a _]. congruence.
  - rewrite e2, e1, x1, <- app_assoc. f_equal.
    destruct (f_updated s1), (f_updated s2), (f_updated s3);
      simpl; try reflexivity;
      try discriminate (Hmono eq_refl); discriminate (Hmono2 eq_refl).
  - rewrite n2, n1, <- Nat.add_assoc. f_equal.
    destruct (f_updated s1), (f_updated s2), (f_updated s3);
      simpl; try reflexivity;
      try discriminate (Hmono eq_refl); discriminate (Hmono2 eq_refl).
  - congruence.
Qed.

(** Closing what symbolic execution leaves: facts about a state written
    as updates of [s]. *)
Ltac leaf :=
  repeat match goal with
         | |- _ /\ _ => split
         | |- W _ => split
         | |- upd_rel _ _ => split
         | |- f_frame _ _ => unfold f_frame
         | |- J_frame _ _ => unfold J_frame
         | |- same_config _ _ => unfold same_config
         | |- _ -> _ => intro
         | |- forall _, _ => intro
         end;
  unfold E in *; cbn in *;
  repeat match goal with
         | Ho : _orig_hess ?s = _, H : context [_orig_hess ?s] |- _ =>
             lazymatch type of H with
             | _orig_hess _ = _ => fail
             | _ => rewrite Ho in H
             end
         end;
  cbn in *;
  rewrite ?evaluated_points_app, ?count_app, ?evaluated_points_cons,
    ?count_cons, ?evaluated_points_nil, ?count_nil, ?app_nil_r, ?Nat.add_0_r;
  cbn;
  repeat match goal with
         | H : Some _ = Some _ |- _ => inversion H; subst; clear H
         | H : ?a = _ |- context [?a] => rewrite H
         end;
  cbn; rewrite ?app_nil_r, ?Nat.add_0_r;
  try reflexivity; try discriminate; try congruence; auto;
  try match goal with
      | HW : W ?s, H : f_updated ?s = true |- _ =>
          pose proof (W_f _ HW H); congruence
      end;
  repeat match goal with
         | |- context [if ?b then _ else _] => destruct_inner b; cbn
         end;
  rewrite ?app_nil_r, ?Nat.add_0_r;
  try reflexivity; try discriminate; try congruence; auto;
  try solve [erewrite W_fw by eassumption; reflexivity];
  try solve [eapply W_f; eassumption];
  try solve [eapply W_fw; eassumption];
  try solve [eapply W_hw; eassumption];
  try solve [erewrite W_hw by eassumption; assumption];
  try solve [eapply W_hj; eassumption];
  try solve [eapply proj1, W_qn; eassumption];
  try solve [eapply proj2, W_qn; eassumption];
  try solve [eapply W_v; eassumption];
  try solve [eapply W_valid; eassumption];
  try solve [match goal with
             | HW : W ?s, Ho : _orig_hess ?s = _ |- _ =>
                 let V := fresh in
                 pose proof (W_valid _ HW) as V; rewrite Ho in V; exact V
             end].

Lemma _update_fun_spec_v s :
  W s ->
  wp _update_fun s
     (fun _ s' => W s' /\ upd_rel s s' /\ f_updated s' = true /\
                  J_frame s s' /\ H_updated s' = H_updated s /\
                  H_ s' = H_ s /\ hess_wrapped s' = hess_wrapped s /\
                  trace s' = trace s ++
                    (if f_updated s then [] else [EvFun (x_ s)]) /\
                  (f_updated s = true -> s' = s))
     may_raise.
Proof.
  intros HW. unfold _update_fun.
  repeat wp_step. destruct (f_updated s) eqn:Hf; cbn.
  - split; [exact HW | split; [apply upd_rel_refl_v|]].
    repeat split; auto. symmetry; apply app_nil_r.
  - wp_exec; try exact I. leaf.
Qed.


Lemma jac_call_facts x f0 (w w' : _VectorJacWrapper.t) J evs :
  _VectorJacWrapper.__call__ x f0 w = Ok (J, w', evs) ->
  evaluated_points evs = [] /\ count is_EvFun evs = 0 /\
  count is_EvUpdate evs = 0.
Proof.
  unfold _VectorJacWrapper.__call__. intros Hc.
  repeat match type of Hc with
         | context [match ?x with _ => _ end] => destruct_inner x
         end; try discriminate; cbn in Hc; inversion Hc; subst;
    repeat split.
Qed.

(** The call [self.hess_wrapped(x, v, J0=J0)] as the engine makes it:
    with a Jacobian at hand unless the Hessian is the user's. *)
Lemma hess_call_facts_v x v J0 jw (w w' : _VectorHessWrapper.t) jw' H evs :
  _VectorHessWrapper.__call__ x v J0 jw w = Ok (H, w', jw', evs) ->
  callable (_VectorHessWrapper.hess w) = true \/ J0 <> None ->
  jw' = jw /\
  _VectorHessWrapper.njev w' = _VectorHessWrapper.njev w /\
  _VectorHessWrapper.hess w' = _VectorHessWrapper.hess w /\
  evaluated_points evs = [] /\ count is_EvFun evs = 0 /\
  count is_EvJac evs = 0 /\ count is_EvUpdate evs = 0 /\
  match _VectorHessWrapper.hess w with
  | Callable _ => evs = [EvHessV x v]
  | a => if in_FD_METHODS a
         then exists f0, evs = [EvApproxHess x (Some f0)]
         else evs = []
  end.
Proof.
  unfold _VectorHessWrapper.__call__, _VectorHessWrapper._fd_hess,
    _VectorHessWrapper._callable_hess.
  intros Hc HJ0.
  destruct (_VectorHessWrapper.hess w) eqn:Hh; cbn in HJ0.
  - repeat match type of Hc with
           | context [match ?x with _ => _ end] => destruct_inner x
           end; try discriminate; inversion Hc; subst; cbn; repeat split; auto.
  - destruct J0 as [J|]; [|destruct HJ0; [discriminate|congruence]].
    repeat match type of Hc with
           | context [match ?x with _ => _ end] => destruct_inner x
           end; try discriminate; inversion Hc; subst; cbn; repeat split; auto.
    all: try (eexists; reflexivity).
  - inversion Hc; subst. repeat split; auto.
  - inversion Hc; subst. repeat split; auto.
Qed.

Ltac use_call_facts :=
  split_tuples;
  repeat match goal with
         | H : _VectorJacWrapper.__call__ _ _ _ = Ok _ |- _ =>
             apply jac_call_facts in H; destruct H as (? & ? & ?)
         | H : _VectorHessWrapper.__call__ _ _ (Some _) _ _ = Ok _ |- _ =>
             apply hess_call_facts_v in H; [|right; discriminate];
             destruct H as (? & ? & ? & ? & ? & ? & ? & ?)
         | H : _VectorHessWrapper.__call__ _ _ None _ ?w = Ok _,
           HW : W ?s, Hw : hess_wrapped ?s = Some ?w,
           Ho : _orig_hess ?s = Callable _ |- _ =>
             apply hess_call_facts_v in H;
             [|left; rewrite (W_hw _ HW _ Hw), Ho; reflexivity];
             destruct H as (? & ? & ? & ? & ? & ? & ? & ?)
         end;
  repeat match goal with
         | HW : W ?s, Hw : hess_wrapped ?s = Some ?w |- _ =>
             let E := fresh "Ehw" in
             pose proof (W_hw _ HW _ Hw) as E;
             revert Hw
         end; intros;
  repeat match goal with
         | H : _VectorHessWrapper.hess ?w = _,
           H' : context [_VectorHessWrapper.hess ?w] |- _ =>
             rewrite H in H'
         end;
  subst.

Lemma _update_jac_spec s :
  W s ->
  wp _update_jac s
     (fun _ s' => W s' /\ upd_rel s s' /\ J_updated s' = true /\
                  H_updated s' = H_updated s /\ H_ s' = H_ s /\
                  hess_wrapped s' = hess_wrapped s /\
                  count is_EvUpdate (trace s') =
                  count is_EvUpdate (trace s) /\
                  (J_updated s = true -> s' = s))
     may_raise.
Proof.
  intros HW. unfold _update_jac.
  repeat wp_step. destruct (J_updated s) eqn:HJ; cbn.
  - split; [exact HW | split; [apply upd_rel_refl_v|]]. repeat split; auto.
  - wp_exec; try exact I.
    all: use_call_facts; leaf.
Qed.


Lemma _update_hess_spec_v s :
  W s ->
  wp _update_hess s
     (fun _ s' =>
        W s' /\ upd_rel s s' /\ H_updated s' = true /\
        (H_updated s = true -> s' = s) /\
        (H_updated s = false ->
         isinstance_HessianUpdateStrategy (_orig_hess s) = true ->
         J_updated s' = true))
     may_raise.
Proof.
  intros HW. unfold _update_hess.
  repeat wp_step. destruct (H_updated s) eqn:HH; cbn.
  - split; [exact HW | split; [apply upd_rel_refl_v|]].
    repeat split; auto; discriminate.
  - destruct (_orig_hess s) eqn:Hoh; wp_exec; try exact I.
    all: use_call_facts; leaf.
Qed.




(** The state of the engine between two public calls: with a
    quasi-Newton Hessian the Jacobian is never left stale. *)
Definition Inv (s : t) : Prop :=
  W s /\
  (isinstance_HessianUpdateStrategy (_orig_hess s) = true ->
   J_updated s = true).

Definition moved_to (x : vec) (s : t) : vec :=
  if array_equal x (x_ s) then x_ s else x.

Lemma W_moved_v x xp Jp s :
  W s -> xp <> None ->
  W (set_H_updated false (set_J_updated false (set_f_updated false
       (set_x_ x (set_J_prev Jp (set_x_prev xp s)))))).
Proof. intros HW Hxp. leaf. Qed.

Lemma W_moved' x s :
  W s ->
  W (set_H_updated false (set_J_updated false (set_f_updated false
       (set_x_ x s)))).
Proof. intros HW. leaf. Qed.

Lemma _update_x_same x s :
  array_equal x (x_ s) = true -> _update_x x s = Ok (tt, s).
Proof.
  intros Hx. apply wp_exact. unfold _update_x. wp_run. split; reflexivity.
Qed.

Lemma _update_x_spec_v x s :
  Inv s -> array_equal x (x_ s) = false ->
  wp (_update_x x) s
     (fun _ s' =>
        W s' /\ same_config s s' /\ x_ s' = x /\ v_ s' = v_ s /\
        (isinstance_HessianUpdateStrategy (_orig_hess s) = true ->
         J_updated s' = true) /\
        E s' = E s ++ (if f_updated s' then [x] else []) /\
        _nfev s' = _nfev s + (if f_updated s' then 1 else 0))
     may_raise.
Proof.
  intros [HW Hqj] Hx. unfold _update_x.
  repeat wp_step. rewrite Hx. cbn.
  destruct (isinstance_HessianUpdateStrategy (_orig_hess s)) eqn:Hqn.
  - repeat wp_step.
    wp_call _update_jac_spec; [exact HW|].
    intros [] s1 (_ & _ & _ & _ & _ & _ & _ & Hsame).
    rewrite (Hsame (Hqj eq_refl)). clear s1 Hsame.
    repeat wp_step. cbn.
    destruct (J_ s) as [J|]; [|exact I].
    repeat wp_step.
    set (sa := set_H_updated false _).
    assert (HWa : W sa) by (apply W_moved_v; [exact HW | discriminate]).
    wp_call _update_hess_spec_v; [exact HWa|].
    intros [] s2 (HW2 & Hr2 & HH2 & _ & Hq2).
    destruct Hr2 as [(c1 & c2 & c3 & c4) Hx2 Hv2 _ _ _ HE Hn _].
    split; [exact HW2|]. split; [repeat split; assumption|].
    split; [exact Hx2|]. split; [exact Hv2|].
    split; [intros _; apply Hq2; [reflexivity | exact Hqn]|].
    split; [exact HE | exact Hn].
  - repeat wp_step. cbn.
    split; [apply W_moved', HW|]. split; [repeat split|].
    split; [reflexivity|]. split; [reflexivity|]. split; [discriminate|].
    split; [symmetry; apply app_nil_r | symmetry; apply Nat.add_0_r].
Qed.

Lemma fun_spec_v x s :
  Inv s ->
  wp (fun_ x) s
     (fun v s' =>
        Inv s' /\ same_config s s' /\ f_updated s' = true /\
        f_ s' = Some v /\ v = _orig_fun s (moved_to x s) /\
        x_ s' = moved_to x s /\
        E s' = E s ++ (if array_equal x (x_ s) && f_updated s
                       then [] else [moved_to x s]) /\
        _nfev s' = _nfev s + (if array_equal x (x_ s) && f_updated s
                              then 0 else 1))
     may_raise.
Proof.
  intros HI. pose proof HI as [HW Hqj]. unfold fun_, moved_to.
  wp_step. destruct (array_equal x (x_ s)) eqn:Hx.
  - rewrite (wp_exact_intro _ _ _ _ may_raise (_update_x_same _ _ Hx)).
    wp_step.
    wp_call _update_fun_spec_v; [exact HW|].
    intros [] s1 (HW1 & Hr1 & Hf1 & HJ1 & _).
    repeat wp_step. rewrite (W_f _ HW1 Hf1).
    destruct Hr1 as [(c1 & c2 & c3 & c4) Hx1 _ _ _ _ HE Hn _].
    destruct HJ1 as (HJ1 & _).
    split; [split; [exact HW1 | rewrite c3, HJ1; exact Hqj]|].
    split; [repeat split; assumption|]. split; [exact Hf1|].
    split; [reflexivity|]. split; [congruence|]. split; [exact Hx1|].
    rewrite HE, Hn, Hf1. destruct (f_updated s); split; reflexivity.
  - wp_call _update_x_spec_v; [exact HI | exact Hx|].
    intros [] s1 (HW1 & (c1 & c2 & c3 & c4) & Hx1 & Hv1 & Hq1 & HE1 & Hn1).
    wp_step.
    wp_call _update_fun_spec_v; [exact HW1|].
    intros [] s2 (HW2 & Hr2 & Hf2 & HJ2 & _).
    repeat wp_step. rewrite (W_f _ HW2 Hf2).
    destruct Hr2 as [(d1 & d2 & d3 & d4) Hx2 _ _ _ _ HE2 Hn2 _].
    destruct HJ2 as (HJ2 & _).
    split; [split; [exact HW2 | rewrite d3, c3, HJ2; exact Hq1]|].
    split; [repeat split; congruence|]. split; [exact Hf2|].
    split; [reflexivity|]. split; [congruence|]. split; [congruence|].
    rewrite HE2, HE1, Hn2, Hn1, Hf2, Hx1, <- app_assoc, <- Nat.add_assoc.
    destruct (f_updated s1); split; reflexivity.
Qed.


Lemma upd_rel_J_mono s s' :
  upd_rel s s' -> J_updated s = true -> J_updated s' = true.
Proof.
  intros Hr HJ. destruct (upd_J _ _ Hr HJ) as [a _]. congruence.
Qed.

Lemma jac_spec x s :
  Inv s ->
  wp (jac x) s (fun _ s' => Inv s' /\ same_config s s') may_raise.
Proof.
  intros HI. pose proof HI as [HW Hqj]. unfold jac.
  wp_step. destruct (array_equal x (x_ s)) eqn:Hx.
  - rewrite (wp_exact_intro _ _ _ _ may_raise (_update_x_same _ _ Hx)).
    wp_step.
    wp_call _update_jac_spec; [exact HW|].
    intros [] s1 (HW1 & Hr1 & HJ1 & _).
    repeat wp_step. destruct (J_ s1); [|exact I].
    destruct Hr1 as [Hc _ _ _ _ _ _ _ _].
    split; [split; [exact HW1 | intros _; exact HJ1] | exact Hc].
  - wp_call _update_x_spec_v; [exact HI | exact Hx|].
    intros [] s1 (HW1 & Hc1 & _).
    wp_step.
    wp_call _update_jac_spec; [exact HW1|].
    intros [] s2 (HW2 & Hr2 & HJ2 & _).
    repeat wp_step. destruct (J_ s2); [|exact I].
    destruct Hr2 as [Hc2 _ _ _ _ _ _ _ _].
    split; [split; [exact HW2 | intros _; exact HJ2]|].
    eapply same_config_trans_v; eassumption.
Qed.

(** [_update_v]: the multiplier the engine holds after it equals the
    argument, as an array or as [==] sees it. *)
Lemma _update_v_spec v s :
  Inv s ->
  wp (_update_v v) s
     (fun _ s' =>
        Inv s' /\ same_config s s' /\ x_ s' = x_ s /\
        (exists v', v_ s' = Some v' /\
                    (v' = v \/ array_equal v v' = true)) /\
        (forall v0, v_ s = Some v0 -> array_equal v v0 = false ->
                    s' = set_H_updated false (set_v_ v s)))
     may_raise.
Proof.
  intros [HW Hqj]. unfold _update_v. wp_run; try exact I.
  - split; [split; [exact HW | exact Hqj]|]. split; [repeat split|].
    split; [reflexivity|].
    split; [exists v0; split; [reflexivity | right; assumption]|].
    intros v1 Hv1 Hne. inversion Hv1; subst. congruence.
  - split; [split; [leaf | exact Hqj]|]. split; [repeat split|].
    split; [reflexivity|].
    split; [eexists; split; [reflexivity | left; reflexivity]|].
    intros v1 Hv1 _. reflexivity.
Qed.

Lemma hess_spec_v x v s :
  Inv s ->
  wp (hess x v) s
     (fun _ s' =>
        Inv s' /\ same_config s s' /\ H_updated s' = true /\
        x_ s' = moved_to x s /\
        exists v', v_ s' = Some v' /\ (v' = v \/ array_equal v v' = true))
     may_raise.
Proof.
  intros HI. unfold hess, moved_to.
  wp_step. wp_call _update_v_spec; [exact HI|].
  intros [] s0 (HI0 & Hc0 & Hx0 & Hv0 & _).
  pose proof HI0 as [HW0 Hqj0]. rewrite <- Hx0.
  wp_step. destruct (array_equal x (x_ s0)) eqn:Hx.
  - rewrite (wp_exact_intro _ _ _ _ may_raise (_update_x_same _ _ Hx)).
    wp_step.
    wp_call _update_hess_spec_v; [exact HW0|].
    intros [] s1 (HW1 & Hr1 & HH1 & _).
    repeat wp_step. destruct (H_ s1); [|exact I].
    pose proof (upd_rel_J_mono _ _ Hr1) as HJ1.
    destruct Hr1 as [Hc1 Hx1 Hv1 _ _ _ _ _ _].
    split.
    { split; [exact HW1|]. destruct Hc1 as (_ & _ & c3 & _). rewrite c3.
      intros Hq. apply (HJ1 (Hqj0 Hq)). }
    split; [eapply same_config_trans_v; eassumption|].
    split; [exact HH1|]. split; [exact Hx1|]. rewrite Hv1. exact Hv0.
  - wp_call _update_x_spec_v; [exact HI0 | exact Hx|].
    intros [] s1 (HW1 & Hc1 & Hx1 & Hv1 & Hq1 & _).
    wp_step.
    wp_call _update_hess_spec_v; [exact HW1|].
    intros [] s2 (HW2 & Hr2 & HH2 & _).
    repeat wp_step. destruct (H_ s2); [|exact I].
    pose proof (upd_rel_J_mono _ _ Hr2) as HJ2.
    destruct Hr2 as [Hc2 Hx2 Hv2 _ _ _ _ _ _].
    split.
    { split; [exact HW2|]. destruct Hc2 as (_ & _ & c3 & _).
      destruct Hc1 as (_ & _ & d3 & _). rewrite c3, d3.
      intros Hq. apply (HJ2 (Hq1 Hq)). }
    split; [eapply same_config_trans_v; [exact Hc0|];
            eapply same_config_trans_v; eassumption|].
    split; [exact HH2|]. split; [congruence|].
    rewrite Hv2, Hv1. exact Hv0.
Qed.


(** [_callable_hess] hands the user's Hessian on: an explicit array keeps
    its entries and its format, an operator is returned as it is. *)
Lemma _callable_hess_returns (h : vec -> vec -> array2) (x v : vec) :
  _VectorHessWrapper._callable_hess h x v = Ok (h x v).
Proof.
  unfold _VectorHessWrapper._callable_hess.
  destruct (h x v) as [[r|r]|mv rmv]; reflexivity.
Qed.





(** A first Hessian request at the point of construction: nothing was
    snapshotted, and the quasi-Newton object is returned as initialised. *)
Lemma hess_first x v h s :
  Inv s -> _orig_hess s = Strategy h -> x_prev s = None ->
  array_equal x (x_ s) = true ->
  wp (hess x v) s
     (fun H s' =>
        H = HStrategy (initialize (n_ s) h) /\
        trace s' = trace s /\ count is_EvUpdate (trace s') = 0 /\
        x_prev s' = None /\ H_updated s' = true)
     no_raise.
Proof.
  intros [HW Hqj] Hoh Hxp Hx.
  destruct (W_qn _ HW _ Hoh Hxp) as [HH Hcnt].
  assert (HJ : J_updated s = true) by (apply Hqj; rewrite Hoh; reflexivity).
  pose proof (W_v _ HW) as Hv.
  wp_exec; try contradiction; repeat split; auto.
Qed.

Lemma fun_cached_v x s v :
  array_equal x (x_ s) = true -> f_updated s = true -> f_ s = Some v ->
  fun_ x s = Ok (v, s).
Proof.
  intros Hx Hf Hv. apply wp_exact. wp_exec. split; reflexivity.
Qed.


Definition jac_event (jac : pyarg (vec -> array2)) (x : vec) (f0 : vec)
    : event :=
  if in_FD_METHODS jac then EvApproxJac x (Some f0) else EvJac x.

(** What [__init__] leaves behind. *)
Definition init_post (fun_ : vec -> vec) (x0 : vec)
    (jac : pyarg (vec -> array2)) (hess : pyarg (vec -> vec -> array2))
    (s0 : t) : Prop :=
  Inv s0 /\
  (_orig_fun s0 = fun_ /\ _orig_jac s0 = jac /\ _orig_hess s0 = hess /\
   x_ s0 = x0 /\ n_ s0 = List.length x0) /\
  (f_updated s0 = true /\ J_updated s0 = true /\ H_updated s0 = true) /\
  (f_ s0 = Some (fun_ x0) /\
   v_ s0 = Some (map (fun _ => 0%float) (fun_ x0))) /\
  (x_prev s0 = None /\ J_prev s0 = None) /\
  ((exists k, _nfev s0 = 1 + k) /\ nfev s0 = Ok (_nfev s0) /\
   (callable jac = true -> _njev s0 = 1) /\ njev s0 = Ok (_njev s0)) /\
  exists hess_events,
    trace s0 = EvFun x0 :: jac_event jac x0 (fun_ x0) :: hess_events /\
    match hess with
    | Callable _ =>
        hess_events = [EvHessV x0 (map (fun _ => 0%float) (fun_ x0))] /\
        nhev s0 = 1
    | Str _ =>
        (exists f0, hess_events = [EvApproxHess x0 (Some f0)]) /\ nhev s0 = 0
    | Strategy h =>
        hess_events = [EvInitialize (List.length x0)] /\ nhev s0 = 0 /\
        H_ s0 = Some (HStrategy (initialize (List.length x0) h))
    | NoneArg => False
    end.

Lemma init_facts_v fun_ x0 jac hess sparse_jacobian user s0 :
  __init__ fun_ x0 jac hess sparse_jacobian user = Ok s0 ->
  init_post fun_ x0 jac hess s0.
Proof.
  unfold __init__.
  destruct (negb (callable jac) && negb (in_FD_METHODS jac)) eqn:V1;
    [discriminate|].
  destruct (negb (callable hess || in_FD_METHODS hess
                  || isinstance_HessianUpdateStrategy hess)) eqn:V2;
    [discriminate|].
  destruct (in_FD_METHODS jac && in_FD_METHODS hess) eqn:V3; [discriminate|].
  intros Hb.
  apply (init_elim _ _ (init_post fun_ x0 jac hess) _ Hb). clear Hb.
  destruct jac as [j|jm|jh|], hess as [h|hm|hh|]; try discriminate;
    cbn in V1, V2, V3.
  all: wp_exec.
  all: try exact I.
  all: unfold init_post, Inv, jac_event.
  all: split_tuples.
  all: repeat match goal with
              | |- _ /\ _ => split
              | |- W _ => split
              | |- exists _, _ => eexists
              end; cbn; try reflexivity; try discriminate; auto.
  all: try (intros w Hw; inversion Hw; reflexivity).
  all: try (intros; discriminate).
  all: try (intros h0 Hh _; inversion Hh; subst; split; reflexivity).
  all: repeat match goal with
              | H : ?a = _ |- context [?a] => rewrite H
              end; cbn; try reflexivity.
  Unshelve. all: exact [].
Qed.

(** The Jacobian [__init__] obtains at [x]: the user's, or the
    finite-difference estimate from the base value [fun_ x]. *)
Definition jacobian_at (fun_ : vec -> vec) (jac : pyarg (vec -> array2))
    (hess : pyarg (vec -> vec -> array2)) (user : fd_user) (x : vec)
    : array2 :=
  match jac with
  | Callable j => j x
  | _ => fst (approx_derivative_2d (make_finite_diff_options jac hess user)
                fun_ x (Some (fun_ x)))
  end.

(** Whether the engine keeps its Jacobians sparse: as asked, or as the
    first Jacobian came. *)
Definition sparse_at (sparse_jacobian : option bool) (J : array2) : bool :=
  match sparse_jacobian with
  | Some b => b
  | None => match J with Mat a => issparse a | _ => false end
  end.

(** The Hessian the engine holds once built at [x], with the zero
    multipliers [v]: the user's at [(x, v)], the finite-difference
    estimate of [x -> J(x).T.dot(v)] from the base value [f0], or the
    quasi-Newton object as initialised. *)
Definition hessian_at (fun_ : vec -> vec) (jac : pyarg (vec -> array2))
    (hess : pyarg (vec -> vec -> array2)) (user : fd_user) (sj : bool)
    (x : vec) (f0 : vec) : hessian :=
  let v := map (fun _ => 0%float) (fun_ x) in
  match hess with
  | Callable h => HArr (h x v)
  | Strategy h => HStrategy (initialize (List.length x) h)
  | _ =>
      let finite_diff_options := make_finite_diff_options jac hess user in
      HArr (fst (approx_derivative_2d finite_diff_options
                   (_VectorHessWrapper.jac_dot_v
                      (_VectorJacWrapper.__init__ jac
                         (Some (_VectorFunWrapper.mk fun_ 1))
                         finite_diff_options sj) v)
                   x (Some f0)))
  end.

(** The call [__init__] makes for the Hessian. *)
Definition hess_event (fun_ : vec -> vec)
    (hess : pyarg (vec -> vec -> array2)) (x : vec) (f0 : vec) : event :=
  match hess with
  | Callable _ => EvHessV x (map (fun _ => 0%float) (fun_ x))
  | Strategy _ => EvInitialize (List.length x)
  | _ => EvApproxHess x (Some f0)
  end.

(** Symbolic execution of the constructor's body. *)
Ltac init_exec :=
  repeat first
    [ wp_step
    | progress cbn
    | rewrite _callable_hess_returns
    | match goal with
      | H : ?a = _ |- context [?a] => rewrite H
      end
    | match goal with
      | |- wp _update_fun _ _ _ => unfold _update_fun
      | |- wp (call_fun_wrapped _) _ _ _ => unfold call_fun_wrapped
      | |- wp (call_hess_wrapped _ _ _) _ _ _ => unfold call_hess_wrapped
      | |- context [_VectorHessWrapper.__call__] =>
          unfold _VectorHessWrapper.__call__, _VectorHessWrapper._fd_hess
      | |- context [let '(_, _) := ?p in _] =>
          rewrite (surjective_pairing p)
      end ].

(** With arguments that pass its checks, a Jacobian at [x0] that can be
    kept in the format asked for and, for a finite-difference Hessian,
    has a product [J.T.dot(v)] with the zero multipliers, [__init__]
    returns an engine that holds that Jacobian and the Hessian. *)
Lemma init_returns_v fun_ x0 jac hess sparse_jacobian user J f0 :
  callable jac || in_FD_METHODS jac = true ->
  callable hess || in_FD_METHODS hess
  || isinstance_HessianUpdateStrategy hess = true ->
  in_FD_METHODS jac && in_FD_METHODS hess = false ->
  _VectorJacWrapper.normalize
    (sparse_at sparse_jacobian (jacobian_at fun_ jac hess user x0))
    (jacobian_at fun_ jac hess user x0) = Ok J ->
  (in_FD_METHODS hess = true ->
   T_dot J (map (fun _ => 0%float) (fun_ x0)) = Ok f0) ->
  exists s0,
    __init__ fun_ x0 jac hess sparse_jacobian user = Ok s0 /\
    J_ s0 = Some J /\
    H_ s0 = Some (hessian_at fun_ jac hess user
                    (sparse_at sparse_jacobian
                       (jacobian_at fun_ jac hess user x0)) x0 f0) /\
    trace s0 = [EvFun x0; jac_event jac x0 (fun_ x0);
                hess_event fun_ hess x0 f0].
Proof.
  intros V1 V2 V3 HJ Hf0. unfold __init__.
  replace (negb (callable jac) && negb (in_FD_METHODS jac)) with false
    by (rewrite <- negb_orb, V1; reflexivity).
  rewrite V2, V3. cbn [negb].
  match goal with
  | |- exists s0, match ?b ?s with _ => _ end = Ok s0 /\ @?P s0 =>
      enough (Hw : wp b s (fun _ s0 => P s0) no_raise)
        by (destruct (wp_succeeds _ _ _ Hw) as ([] & s1 & -> & HH);
            exists s1; split; [reflexivity | exact HH])
  end.
  destruct jac as [j|jm|jh|], hess as [h|hm|hh|]; try discriminate;
    cbn in V1, V2, V3, HJ, Hf0;
    unfold jacobian_at, sparse_at in *; cbn in HJ.
  all: try (rewrite V1 in V3; cbn in V3).
  all: try (rewrite V1 in HJ; cbn in HJ).
  all: try (cbn in V2; rewrite ?orb_false_r in V2).
  all: try specialize (Hf0 V2).
  all: try discriminate; try (rewrite V2 in V3; discriminate V3).
  all: init_exec.
  all: unfold jac_event; cbn; rewrite ?V1; repeat split; reflexivity.
Qed.


(** The engines a caller can hold: built by [__init__] and driven
    through the public methods, every call having returned. *)
Definition reachable (s : t) : Prop :=
  exists fun_ x0 jac hess sparse_jacobian user s0 calls,
    __init__ fun_ x0 jac hess sparse_jacobian user = Ok s0 /\
    run vector_step calls s0 = Ok (tt, s).

Lemma step_spec_v c s :
  Inv s ->
  wp (vector_step c) s (fun _ s' => Inv s' /\ same_config s s') may_raise.
Proof.
  intros HI. destruct c as [x|x|x v]; cbn [vector_step]; wp_step.
  - wp_call fun_spec_v; [exact HI|].
    intros v s1 (HI1 & Hc & _). wp_step. split; assumption.
  - wp_call jac_spec; [exact HI|].
    intros v s1 (HI1 & Hc). wp_step. split; assumption.
  - wp_call hess_spec_v; [exact HI|].
    intros H s1 (HI1 & Hc & _). wp_step. split; assumption.
Qed.

Lemma run_spec_v calls : forall s,
  Inv s ->
  wp (run vector_step calls) s
     (fun _ s' => Inv s' /\ same_config s s') may_raise.
Proof.
  induction calls as [|c calls IH]; intros s HI; cbn [run].
  - wp_step. split; [exact HI | apply same_config_refl_v].
  - wp_step. wp_call step_spec_v; [exact HI|].
    intros [] s1 (HI1 & Hc1).
    wp_call IH; [exact HI1|].
    intros [] s2 (HI2 & Hc2).
    split; [exact HI2 | eapply same_config_trans_v; eassumption].
Qed.

Lemma reachable_Inv_v s : reachable s -> Inv s.
Proof.
  intros (fun_ & x0 & jac & hess & sj & user & s0 & calls & Hinit & Hrun).
  apply init_facts_v in Hinit. destruct Hinit as (HI0 & _).
  apply (wp_elim _ _ _ _ _ _ (run_spec_v calls s0 HI0) Hrun).
Qed.

End Facts.
End VectorFacts.

(** ** A reference set of collaborators

    A quasi-Newton object that records the secant pairs it is fed, and
    forward differences with unit step for [approx_derivative].  The
    examples below run the engines on them. *)

Module Reference.

(** [x] with one added to its [j]-th entry. *)
Fixpoint bump (j : nat) (x : vec) : vec :=
  match x, j with
  | [], _ => []
  | p :: x', 0 => (p + 1)%float :: x'
  | p :: x', S j' => p :: bump j' x'
  end.

Definition base {A : Type} (f : vec -> A) (x : vec) (f0 : option A) : A :=
  match f0 with Some b => b | None => f x end.

Definition probes {A : Type} (x : vec) (f0 : option A) : nat :=
  List.length x + match f0 with Some _ => 0 | None => 1 end.

Definition forward_1d (f : vec -> float) (x : vec) (f0 : option float)
    : vec * nat :=
  (map (fun j => (f (bump j x) - base f x f0)%float) (seq 0 (List.length x)),
   probes x f0).

Definition forward_2d (as_operator : bool) (f : vec -> vec) (x : vec)
    (f0 : option vec) : array2 * nat :=
  let b := base f x f0 in
  if as_operator
  then (LinearOperator
          (fun p => zip_with PrimFloat.sub (f (zip_with PrimFloat.add x p)) b)
          (fun _ => []),
        0)
  else (Mat (Dense (map (fun i =>
                      map (fun j => (nth i (f (bump j x)) 0 - nth i b 0)%float)
                          (seq 0 (List.length x)))
                    (seq 0 (List.length b)))),
        probes x f0).

Definition collaborators : Collaborators :=
  {| HUS := list (vec * vec);
     initialize := fun _ _ => [];
     update := fun dx dg h => h ++ [(dx, dg)];
     fd_user := unit;
     approx_derivative_1d := fun _ f x f0 => forward_1d f x f0;
     approx_derivative_2d :=
       fun o f x f0 => forward_2d o.(as_linear_operator) f x f0 |}.

(** A quasi-Newton object by the pairs it has seen; [fresh] has seen
    none. *)
Definition history (l : list (vec * vec)) : @HUS collaborators := l.

Definition fresh : @HUS collaborators := history [].

(** The objective of the examples, [x0^2 + x1^2], with its gradient and
    Hessian. *)
Definition sphere (x : vec) : float := dot1 x x.

Definition sphere_grad (x : vec) : vec := map (fun p => (2 * p)%float) x.

Definition sphere_hess (x : vec) : array2 :=
  Mat (Dense (map (fun i => map (fun j => if Nat.eqb i j then 2%float
                                          else 0%float)
                                (seq 0 (List.length x)))
                  (seq 0 (List.length x)))).

(** A constraint function, [(x0 * x1, x0 + x1)], with its Jacobian and
    the Hessian of its combination with multipliers [v]. *)
Definition bilinear (x : vec) : vec :=
  match x with
  | [p; q] => [(p * q)%float; (p + q)%float]
  | _ => []
  end.

Definition bilinear_jac (x : vec) : array2 :=
  match x with
  | [p; q] => Mat (Dense [[q; p]; [1%float; 1%float]])
  | _ => Mat (Dense [])
  end.

Definition bilinear_hess (x v : vec) : array2 :=
  match v with
  | c :: _ => Mat (Dense [[0%float; c]; [c; 0%float]])
  | [] => Mat (Dense [])
  end.

End Reference.

(** * The engines' contract *)

Lemma length_evaluated_points (tr : list event) :
  List.length (evaluated_points tr) = count is_EvFun tr.
Proof.
  induction tr as [|e tr IH]; [reflexivity|].
  rewrite evaluated_points_cons, count_cons, length_app, IH.
  destruct e; reflexivity.
Qed.

Lemma in_FD_METHODS_Str {C : Collaborators} {F : Type} (m : string) :
  In m FD_METHODS -> in_FD_METHODS (@Str C F m) = true.
Proof.
  intros Hm. unfold in_FD_METHODS. apply existsb_exists.
  exists m. split; [exact Hm | apply String.eqb_refl].
Qed.

(** Running a closed computation: its value is named [s] and [H] states
    that the computation returns it. *)
Ltac returned c s H :=
  let r := eval vm_compute in c in
  lazymatch r with
  | Ok ?a => pose (s := a); assert (H : c = Ok s) by (vm_compute; reflexivity)
  end.

(** C3: a scalar or a vector engine asked for a finite-difference
    gradient (Jacobian) together with a finite-difference Hessian is never
    built: whatever the other arguments, [__init__] raises [ValueError],
    so no engine is returned. *)
Theorem fd_gradient_with_fd_hessian_is_rejected {C : Collaborators}
    (gm hm : string) :
  In gm FD_METHODS -> In hm FD_METHODS ->
  (forall fun_ x0 user,
     ScalarFunction.__init__ fun_ x0 (Str gm) (Str hm) user
     = Raise ValueError) /\
  (forall fun_ x0 sparse_jacobian user,
     VectorFunction.__init__ fun_ x0 (Str gm) (Str hm) sparse_jacobian user
     = Raise ValueError).
Proof.
  intros Hg Hh.
  pose proof (in_FD_METHODS_Str (F := vec -> vec) gm Hg) as Eg.
  pose proof (in_FD_METHODS_Str (F := vec -> array2) hm Hh) as Eh.
  pose proof (in_FD_METHODS_Str (F := vec -> array2) gm Hg) as Ej.
  pose proof (in_FD_METHODS_Str (F := vec -> vec -> array2) hm Hh) as Ehv.
  split; intros.
  - unfold ScalarFunction.__init__. rewrite Eg, Eh. reflexivity.
  - unfold VectorFunction.__init__. rewrite Ej, Ehv. reflexivity.
Qed.

Lemma fd_gradient_with_fd_hessian_is_rejected_witness :
  @ScalarFunction.__init__ Reference.collaborators Reference.sphere
     [1%float; 1%float] (Str "2-point") (Str "3-point") tt
  = Raise ValueError /\
  @VectorFunction.__init__ Reference.collaborators Reference.bilinear
     [1%float; 1%float] (Str "2-point") (Str "3-point") None tt
  = Raise ValueError.
Proof.
  destruct (@fd_gradient_with_fd_hessian_is_rejected Reference.collaborators
              "2-point" "3-point") as [Hs Hv].
  - simpl. left. reflexivity.
  - simpl. right. left. reflexivity.
  - split; [apply Hs | apply Hv].
Defined.

(** The events of the Hessian step of a constructor. *)
Definition scalar_hess_events {C : Collaborators} (fun_ : vec -> float)
    (grad : pyarg (vec -> vec)) (hess : pyarg (vec -> array2))
    (user : fd_user) (x0 : vec) : list event :=
  match hess with
  | Callable _ => [EvHess x0]
  | Str _ =>
      [EvApproxHess x0
         (Some (ScalarFacts.gradient_at fun_ grad hess user x0))]
  | Strategy _ => [EvInitialize (List.length x0)]
  | NoneArg => []
  end.

(** C10: construction is eager.  Given arguments that pass its checks,
    [ScalarFunction.__init__] returns an engine that has already called
    the user function at [x0], then obtained the gradient there, then
    the Hessian: the value of the user's Hessian at [x0], or the
    finite-difference estimate of the gradient around [x0] (a
    quasi-Newton object is only initialised).  These are the calls it
    made, in this order; the engine holds the three results with their
    caches valid, and the counters show it: [nfev] is at least one,
    [ngev] is one, and [nhev] is one exactly for a callable Hessian.
    [VectorFunction.__init__] likewise, when the Jacobian at [x0] can be
    kept in the format asked for and, for a finite-difference Hessian,
    its product [J.T.dot(v)] with the zero multipliers [v] exists: it
    returns an engine that has called the function, the Jacobian and the
    Hessian at [x0] with those multipliers, holds the three results, and
    has [nfev] at least one, [njev] one for a callable Jacobian and
    [nhev] one exactly for a callable Hessian. *)
Theorem construction_is_eager {C : Collaborators}
    (fun_ : vec -> float) (x0 : vec) (grad : pyarg (vec -> vec))
    (hess : pyarg (vec -> array2)) (user : fd_user)
    (vfun : vec -> vec) (vx0 : vec) (jac : pyarg (vec -> array2))
    (vhess : pyarg (vec -> vec -> array2)) (sparse_jacobian : option bool)
    (vuser : fd_user) (J : array2) (f0 : vec) :
  (callable grad || in_FD_METHODS grad = true ->
   callable hess || in_FD_METHODS hess
   || isinstance_HessianUpdateStrategy hess = true ->
   in_FD_METHODS grad && in_FD_METHODS hess = false ->
   exists s0,
     ScalarFunction.__init__ fun_ x0 grad hess user = Ok s0 /\
     ScalarFunction.trace s0 =
       EvFun x0 :: ScalarFacts.gradient_event grad x0 (fun_ x0)
         :: scalar_hess_events fun_ grad hess user x0 /\
     ScalarFunction.f_updated s0 = true /\
     ScalarFunction.g_updated s0 = true /\
     ScalarFunction.H_updated s0 = true /\
     ScalarFunction.f_ s0 = Some (fun_ x0) /\
     ScalarFunction.g_ s0 =
       Some (ScalarFacts.gradient_at fun_ grad hess user x0) /\
     ScalarFunction.H_ s0 =
       Some (ScalarFacts.hessian_at fun_ grad hess user x0) /\
     (exists k, ScalarFunction.nfev s0 = Ok (1 + k)) /\
     ScalarFunction.ngev s0 = Ok 1 /\
     ScalarFunction.nhev s0 = Ok (if callable hess then 1 else 0)) /\
  (callable jac || in_FD_METHODS jac = true ->
   callable vhess || in_FD_METHODS vhess
   || isinstance_HessianUpdateStrategy vhess = true ->
   in_FD_METHODS jac && in_FD_METHODS vhess = false ->
   _VectorJacWrapper.normalize
     (VectorFacts.sparse_at sparse_jacobian
        (VectorFacts.jacobian_at vfun jac vhess vuser vx0))
     (VectorFacts.jacobian_at vfun jac vhess vuser vx0) = Ok J ->
   (in_FD_METHODS vhess = true ->
    T_dot J (map (fun _ => 0%float) (vfun vx0)) = Ok f0) ->
   exists v0,
     VectorFunction.__init__ vfun vx0 jac vhess sparse_jacobian vuser
     = Ok v0 /\
     VectorFunction.trace v0 =
       [EvFun vx0; VectorFacts.jac_event jac vx0 (vfun vx0);
        VectorFacts.hess_event vfun vhess vx0 f0] /\
     VectorFunction.f_updated v0 = true /\
     VectorFunction.J_updated v0 = true /\
     VectorFunction.H_updated v0 = true /\
     VectorFunction.f_ v0 = Some (vfun vx0) /\
     VectorFunction.J_ v0 = Some J /\
     VectorFunction.H_ v0 =
       Some (VectorFacts.hessian_at vfun jac vhess vuser
               (VectorFacts.sparse_at sparse_jacobian
                  (VectorFacts.jacobian_at vfun jac vhess vuser vx0))
               vx0 f0) /\
     (exists k, VectorFunction.nfev v0 = Ok (1 + k)) /\
     (callable jac = true -> VectorFunction.njev v0 = Ok 1) /\
     VectorFunction.nhev v0 = (if callable vhess then 1 else 0)).
Proof.
  split.
  - intros V1 V2 V3.
    destruct (ScalarFacts.init_returns fun_ x0 grad hess user V1 V2 V3)
      as (s0 & Hs & HHv).
    exists s0. split; [exact Hs|].
    apply ScalarFacts.init_facts in Hs.
    destruct Hs as (_ & _ & (Hf & Hg & HH) & (Hfv & Hgv) & (_ & Hng & Hnf)
                    & _ & Hh).
    split.
    { unfold scalar_hess_events.
      destruct hess; try contradiction; apply Hh. }
    repeat (split; [assumption|]).
    destruct hess; try contradiction; cbn; apply Hh.
  - intros V1 V2 V3 HJ Hf0.
    destruct (VectorFacts.init_returns_v vfun vx0 jac vhess sparse_jacobian
                vuser J f0 V1 V2 V3 HJ Hf0) as (v0 & Hv & HJv & HHv & Htr).
    exists v0. split; [exact Hv|]. split; [exact Htr|].
    apply VectorFacts.init_facts_v in Hv.
    destruct Hv as (_ & _ & (Vf & VJ & VH) & (Vfv & _) & _
                    & ((k & Vn) & Vnf & Vnj & Vnjev) & (evs & _ & Vh)).
    repeat (split; [assumption|]).
    split; [exists k; rewrite Vnf, Vn; reflexivity|].
    split; [intros Hc; rewrite Vnjev, (Vnj Hc); reflexivity|].
    destruct vhess; try contradiction; cbn; apply Vh.
Qed.

Lemma construction_is_eager_witness :
  (exists s0 v0,
     @ScalarFunction.__init__ Reference.collaborators Reference.sphere
        [1%float; 1%float] (Callable Reference.sphere_grad)
        (Callable Reference.sphere_hess) tt
     = Ok s0 /\
     @VectorFunction.__init__ Reference.collaborators Reference.bilinear
        [1%float; 1%float] (Callable Reference.bilinear_jac) (Str "2-point")
        None tt
     = Ok v0 /\
     ScalarFunction.trace s0 =
       [EvFun [1%float; 1%float]; EvGrad [1%float; 1%float];
        EvHess [1%float; 1%float]] /\
     ScalarFunction.H_ s0 =
       Some (HArr (Mat (Dense [[2%float; 0%float]; [0%float; 2%float]]))) /\
     ScalarFunction.nhev s0 = Ok 1 /\
     VectorFunction.trace v0 =
       [EvFun [1%float; 1%float]; EvJac [1%float; 1%float];
        EvApproxHess [1%float; 1%float] (Some [0%float; 0%float])] /\
     VectorFunction.J_ v0 =
       Some (Mat (Dense [[1%float; 1%float]; [1%float; 1%float]]))) /\
  (exists s0 v0,
     @ScalarFunction.__init__ Reference.collaborators Reference.sphere
        [1%float; 1%float] (Str "2-point") (Strategy Reference.fresh) tt
     = Ok s0 /\
     @VectorFunction.__init__ Reference.collaborators Reference.bilinear
        [1%float; 1%float] (Callable Reference.bilinear_jac)
        (Callable Reference.bilinear_hess) None tt
     = Ok v0 /\
     ScalarFunction.trace s0 =
       [EvFun [1%float; 1%float];
        EvApproxGrad [1%float; 1%float] (Some 2%float);
        EvInitialize 2] /\
     ScalarFunction.H_ s0 = Some (HStrategy Reference.fresh) /\
     VectorFunction.H_ v0 =
       Some (HArr (Mat (Dense [[0%float; 0%float]; [0%float; 0%float]]))) /\
     VectorFunction.nhev v0 = 1) /\
  (exists s0 v0,
     @ScalarFunction.__init__ Reference.collaborators Reference.sphere
        [1%float; 1%float] (Callable Reference.sphere_grad) (Str "3-point")
        tt
     = Ok s0 /\
     @VectorFunction.__init__ Reference.collaborators Reference.bilinear
        [1%float; 1%float] (Str "2-point") (Strategy Reference.fresh)
        None tt
     = Ok v0 /\
     ScalarFunction.trace s0 =
       [EvFun [1%float; 1%float]; EvGrad [1%float; 1%float];
        EvApproxHess [1%float; 1%float] (Some [2%float; 2%float])] /\
     ScalarFunction.nhev s0 = Ok 0 /\
     VectorFunction.trace v0 =
       [EvFun [1%float; 1%float];
        EvApproxJac [1%float; 1%float] (Some [1%float; 2%float]);
        EvInitialize 2] /\
     VectorFunction.J_ v0 =
       Some (Mat (Dense [[1%float; 1%float]; [1%float; 1%float]])) /\
     VectorFunction.H_ v0 = Some (HStrategy Reference.fresh)).
Proof.
  split; [|split].
  - destruct (@construction_is_eager Reference.collaborators
                Reference.sphere [1%float; 1%float]
                (Callable Reference.sphere_grad)
                (Callable Reference.sphere_hess) tt
                Reference.bilinear [1%float; 1%float]
                (Callable Reference.bilinear_jac) (Str "2-point") None tt
                (Mat (Dense [[1%float; 1%float]; [1%float; 1%float]]))
                [0%float; 0%float]) as [Hscalar Hvector].
    destruct Hscalar as (s0 & Hs & Htr & _ & _ & _ & _ & _ & HH & _ & _ & Hn);
      [reflexivity | reflexivity | reflexivity |].
    destruct Hvector as (v0 & Hv & Vtr & _ & _ & _ & _ & VJ & _);
      [reflexivity | reflexivity | reflexivity | reflexivity
      | intros _; reflexivity |].
    exists s0, v0.
    split; [exact Hs|]. split; [exact Hv|]. split; [exact Htr|].
    split; [exact HH|]. split; [exact Hn|]. split; [exact Vtr | exact VJ].
  - destruct (@construction_is_eager Reference.collaborators
                Reference.sphere [1%float; 1%float] (Str "2-point")
                (Strategy Reference.fresh) tt
                Reference.bilinear [1%float; 1%float]
                (Callable Reference.bilinear_jac)
                (Callable Reference.bilinear_hess) None tt
                (Mat (Dense [[1%float; 1%float]; [1%float; 1%float]]))
                []) as [Hscalar Hvector].
    destruct Hscalar as (s0 & Hs & Htr & _ & _ & _ & _ & _ & HH & _);
      [reflexivity | reflexivity | reflexivity |].
    destruct Hvector
      as (v0 & Hv & _ & _ & _ & _ & _ & _ & VH & _ & _ & Vn);
      [reflexivity | reflexivity | reflexivity | reflexivity
      | intros E0; discriminate E0 |].
    exists s0, v0.
    split; [exact Hs|]. split; [exact Hv|]. split; [exact Htr|].
    split; [exact HH|]. split; [exact VH | exact Vn].
  - destruct (@construction_is_eager Reference.collaborators
                Reference.sphere [1%float; 1%float]
                (Callable Reference.sphere_grad) (Str "3-point") tt
                Reference.bilinear [1%float; 1%float] (Str "2-point")
                (Strategy Reference.fresh) None tt
                (Mat (Dense [[1%float; 1%float]; [1%float; 1%float]]))
                []) as [Hscalar Hvector].
    destruct Hscalar as (s0 & Hs & Htr & _ & _ & _ & _ & _ & _ & _ & _ & Hn);
      [reflexivity | reflexivity | reflexivity |].
    destruct Hvector as (v0 & Hv & Vtr & _ & _ & _ & _ & VJ & VH & _);
      [reflexivity | reflexivity | reflexivity | reflexivity
      | intros E0; discriminate E0 |].
    exists s0, v0.
    split; [exact Hs|]. split; [exact Hv|]. split; [exact Htr|].
    split; [exact Hn|]. split; [exact Vtr|]. split; [exact VJ | exact VH].
Defined.

(** ** Value requests *)

(** What a value request does to the list of evaluated points and to
    the counter, in either engine. *)
Lemma scalar_value_request {C : Collaborators} (s s1 : ScalarFunction.t)
    (x : vec) (f : float) :
  ScalarFacts.Inv s -> ScalarFunction.fun_ x s = Ok (f, s1) ->
  ScalarFacts.Inv s1 /\
  ScalarFunction.f_updated s1 = true /\
  ScalarFunction.f_ s1 = Some f /\
  ScalarFunction.x_ s1 = ScalarFacts.moved_to x s /\
  ScalarFacts.E s1 =
    ScalarFacts.E s ++
    (if array_equal x (ScalarFunction.x_ s) && ScalarFunction.f_updated s
     then [] else [ScalarFacts.moved_to x s]).
Proof.
  intros HI Hrun.
  pose proof (wp_elim _ _ _ _ _ _ (ScalarFacts.fun_spec x s HI) Hrun)
    as (HI1 & (c1 & _) & Hf & Hv & Hx & HE & _).
  split; [exact HI1|]. split; [exact Hf|]. split; [|split; assumption].
  destruct (ScalarFacts.W_f _ (proj1 HI1) Hf) as [Hfv _].
  rewrite Hfv, c1, Hx, Hv. reflexivity.
Qed.

Lemma moved_to_equal {C : Collaborators} (s : ScalarFunction.t) (x : vec) :
  array_equal x x = true -> array_equal x (ScalarFacts.moved_to x s) = true.
Proof.
  intros Hxx. unfold ScalarFacts.moved_to.
  destruct (array_equal x (ScalarFunction.x_ s)) eqn:E0; assumption.
Qed.

Lemma moved_to_equal_v {C : Collaborators} (s : VectorFunction.t) (x : vec) :
  array_equal x x = true -> array_equal x (VectorFacts.moved_to x s) = true.
Proof.
  intros Hxx. unfold VectorFacts.moved_to.
  destruct (array_equal x (VectorFunction.x_ s)) eqn:E0; assumption.
Qed.

(** C1, as the code has it: a value request at a point [x] without NaN
    entries, repeated at once, is answered from the cache: the second
    call returns the same value and leaves the engine as it is, so it
    neither calls the user function nor moves a counter.  Over the two
    calls the engine itself calls the user function once, unless the
    value at [x] was already cached when the first call began (as it is
    right after construction at [x]); then it calls it not at all.  This
    holds of the scalar and of the vector engine. *)
Theorem repeated_value_request_is_memoized {C : Collaborators}
    (s s1 : ScalarFunction.t) (x : vec) (f : float)
    (sv sv1 : VectorFunction.t) (xv fv : vec) :
  ScalarFacts.reachable s -> array_equal x x = true ->
  ScalarFunction.fun_ x s = Ok (f, s1) ->
  VectorFacts.reachable sv -> array_equal xv xv = true ->
  VectorFunction.fun_ xv sv = Ok (fv, sv1) ->
  (ScalarFunction.fun_ x s1 = Ok (f, s1) /\
   count is_EvFun (ScalarFunction.trace s1) =
     count is_EvFun (ScalarFunction.trace s)
     + (if array_equal x (ScalarFunction.x_ s)
           && ScalarFunction.f_updated s then 0 else 1) /\
   ScalarFunction._nfev s1 =
     ScalarFunction._nfev s
     + (if array_equal x (ScalarFunction.x_ s)
           && ScalarFunction.f_updated s then 0 else 1)) /\
  (VectorFunction.fun_ xv sv1 = Ok (fv, sv1) /\
   count is_EvFun (VectorFunction.trace sv1) =
     count is_EvFun (VectorFunction.trace sv)
     + (if array_equal xv (VectorFunction.x_ sv)
           && VectorFunction.f_updated sv then 0 else 1) /\
   VectorFunction._nfev sv1 =
     VectorFunction._nfev sv
     + (if array_equal xv (VectorFunction.x_ sv)
           && VectorFunction.f_updated sv then 0 else 1)).
Proof.
  intros Hr Hxx Hrun Hrv Hxxv Hrunv. split.
  - apply ScalarFacts.reachable_Inv in Hr.
    destruct (scalar_value_request s s1 x f Hr Hrun)
      as (HI1 & Hf & Hfv & Hx & HE).
    split.
    { apply ScalarFacts.fun_cached; [|exact Hf | exact Hfv].
      rewrite Hx. apply moved_to_equal, Hxx. }
    assert (Hlen : List.length (ScalarFacts.E s1) =
                   List.length (ScalarFacts.E s)
                   + (if array_equal x (ScalarFunction.x_ s)
                         && ScalarFunction.f_updated s then 0 else 1)).
    { rewrite HE, length_app.
      destruct (array_equal x (ScalarFunction.x_ s)
                && ScalarFunction.f_updated s); reflexivity. }
    split.
    + unfold ScalarFacts.E in Hlen.
      rewrite !length_evaluated_points in Hlen. exact Hlen.
    + rewrite (ScalarFacts.W_n _ (proj1 HI1)), (ScalarFacts.W_n _ (proj1 Hr)).
      exact Hlen.
  - apply VectorFacts.reachable_Inv_v in Hrv.
    pose proof (wp_elim _ _ _ _ _ _ (VectorFacts.fun_spec_v xv sv Hrv) Hrunv)
      as (HI1 & _ & Hf & Hfv & _ & Hx & HE & Hn).
    split.
    { apply VectorFacts.fun_cached_v; [|exact Hf | exact Hfv].
      rewrite Hx. apply moved_to_equal_v, Hxxv. }
    split; [|exact Hn].
    unfold VectorFacts.E in HE. apply (f_equal (@List.length vec)) in HE.
    rewrite length_app, !length_evaluated_points in HE. rewrite HE.
    destruct (array_equal xv (VectorFunction.x_ sv)
              && VectorFunction.f_updated sv); reflexivity.
Qed.

Lemma repeated_value_request_is_memoized_witness :
  exists s0 r1 sv0 rv1,
    @ScalarFunction.__init__ Reference.collaborators Reference.sphere
       [1%float; 1%float] (Callable Reference.sphere_grad)
       (Callable Reference.sphere_hess) tt
    = Ok s0 /\
    ScalarFunction.fun_ [2%float; 1%float] s0 = Ok r1 /\
    @VectorFunction.__init__ Reference.collaborators Reference.bilinear
       [1%float; 1%float] (Callable Reference.bilinear_jac)
       (Callable Reference.bilinear_hess) None tt
    = Ok sv0 /\
    VectorFunction.fun_ [2%float; 1%float] sv0 = Ok rv1 /\
    ScalarFunction.fun_ [2%float; 1%float] (snd r1) = Ok r1 /\
    count is_EvFun (ScalarFunction.trace (snd r1)) = 2 /\
    VectorFunction.fun_ [2%float; 1%float] (snd rv1) = Ok rv1 /\
    count is_EvFun (VectorFunction.trace (snd rv1)) = 2.
Proof.
  returned (@ScalarFunction.__init__ Reference.collaborators Reference.sphere
              [1%float; 1%float] (Callable Reference.sphere_grad)
              (Callable Reference.sphere_hess) tt) s0 Hs.
  returned (ScalarFunction.fun_ [2%float; 1%float] s0) r1 H1.
  returned (@VectorFunction.__init__ Reference.collaborators
              Reference.bilinear [1%float; 1%float]
              (Callable Reference.bilinear_jac)
              (Callable Reference.bilinear_hess) None tt) sv0 Hsv.
  returned (VectorFunction.fun_ [2%float; 1%float] sv0) rv1 Hv1.
  exists s0, r1, sv0, rv1.
  split; [exact Hs|]. split; [exact H1|].
  split; [exact Hsv|]. split; [exact Hv1|].
  destruct (repeated_value_request_is_memoized
              s0 (snd r1) [2%float; 1%float] (fst r1)
              sv0 (snd rv1) [2%float; 1%float] (fst rv1))
    as [(Ha & Hb & _) (Hc & Hd & _)].
  - exists Reference.sphere, [1%float; 1%float],
      (Callable Reference.sphere_grad), (Callable Reference.sphere_hess),
      tt, s0, [].
    split; [exact Hs | reflexivity].
  - vm_compute. reflexivity.
  - exact H1.
  - exists Reference.bilinear, [1%float; 1%float],
      (Callable Reference.bilinear_jac), (Callable Reference.bilinear_hess),
      None, tt, sv0, [].
    split; [exact Hsv | reflexivity].
  - vm_compute. reflexivity.
  - exact Hv1.
  - split; [exact Ha|]. split; [exact Hb|]. split; [exact Hc | exact Hd].
Defined.

(** C1 as stated fails on an engine that holds the value already: built
    at [(1, 1)] and asked twice for the value there, the scalar engine
    answers both requests from the cache; its trace and its counter
    after the two calls are those of the construction, so the two calls
    perform no evaluation of the user function, not one. *)
Lemma value_requests_at_the_construction_point_evaluate_nothing :
  exists s0 s2,
    @ScalarFunction.__init__ Reference.collaborators Reference.sphere
       [1%float; 1%float] (Callable Reference.sphere_grad)
       (Callable Reference.sphere_hess) tt
    = Ok s0 /\
    run scalar_step [CallFun [1%float; 1%float]; CallFun [1%float; 1%float]]
      s0
    = Ok (tt, s2) /\
    count is_EvFun (ScalarFunction.trace s0) = 1 /\
    count is_EvFun (ScalarFunction.trace s2) = 1 /\
    ScalarFunction.nfev s0 = Ok 1 /\
    ScalarFunction.nfev s2 = Ok 1.
Proof.
  returned (@ScalarFunction.__init__ Reference.collaborators Reference.sphere
              [1%float; 1%float] (Callable Reference.sphere_grad)
              (Callable Reference.sphere_hess) tt) s0 Hs.
  returned (run scalar_step
              [CallFun [1%float; 1%float]; CallFun [1%float; 1%float]] s0)
    r H.
  exists s0, (snd r).
  split; [exact Hs|]. split; [exact H|]. repeat split.
Qed.

(** C2, as the code has it: value requests at [x1], at [x2] and at [x1]
    again, where [x2] differs from [x1] in some entry, make the engine
    call the user function at [x2] and then again at [x1]: the cache
    holds one point.  The first request adds a call at [x1] unless the
    value there was cached when the sequence began (as it is right after
    construction at [x1]): the sequence makes three direct evaluations,
    or two. *)
Theorem revisiting_a_point_evaluates_again {C : Collaborators}
    (s s1 s2 s3 : ScalarFunction.t) (x1 x2 : vec) (f1 f2 f3 : float) :
  ScalarFacts.reachable s ->
  array_equal x1 x2 = false ->
  ScalarFunction.fun_ x1 s = Ok (f1, s1) ->
  ScalarFunction.fun_ x2 s1 = Ok (f2, s2) ->
  ScalarFunction.fun_ x1 s2 = Ok (f3, s3) ->
  ScalarFacts.E s3 =
    ScalarFacts.E s ++
    (if array_equal x1 (ScalarFunction.x_ s) && ScalarFunction.f_updated s
     then [] else [ScalarFacts.moved_to x1 s]) ++ [x2; x1] /\
  count is_EvFun (ScalarFunction.trace s3) =
    count is_EvFun (ScalarFunction.trace s)
    + (if array_equal x1 (ScalarFunction.x_ s) && ScalarFunction.f_updated s
       then 2 else 3) /\
  ScalarFunction._nfev s3 =
    ScalarFunction._nfev s
    + (if array_equal x1 (ScalarFunction.x_ s) && ScalarFunction.f_updated s
       then 2 else 3).
Proof.
  intros Hr Hne H1 H2 H3. apply ScalarFacts.reachable_Inv in Hr.
  destruct (scalar_value_request s s1 x1 f1 Hr H1)
    as (HI1 & _ & _ & Hx1 & HE1).
  destruct (scalar_value_request s1 s2 x2 f2 HI1 H2)
    as (HI2 & _ & _ & Hx2 & HE2).
  destruct (scalar_value_request s2 s3 x1 f3 HI2 H3)
    as (HI3 & _ & _ & _ & HE3).
  assert (Hne' : array_equal x2 x1 = false).
  { destruct (array_equal x2 x1) eqn:E0; [|reflexivity].
    apply array_equal_sym in E0. congruence. }
  assert (Hm2 : array_equal x2 (ScalarFunction.x_ s1) = false).
  { rewrite Hx1. unfold ScalarFacts.moved_to.
    destruct (array_equal x1 (ScalarFunction.x_ s)) eqn:E0; [|exact Hne'].
    apply (array_equal_differs x2 x1 _ Hne').
    apply array_equal_sym, E0. }
  assert (Hx2' : ScalarFunction.x_ s2 = x2).
  { rewrite Hx2. unfold ScalarFacts.moved_to. rewrite Hm2. reflexivity. }
  assert (HEs : ScalarFacts.E s3 =
                ScalarFacts.E s ++
                (if array_equal x1 (ScalarFunction.x_ s)
                    && ScalarFunction.f_updated s
                 then [] else [ScalarFacts.moved_to x1 s]) ++ [x2; x1]).
  { rewrite HE3, HE2, HE1. unfold ScalarFacts.moved_to at 2 3.
    rewrite Hm2, Hx2', Hne. cbn [andb]. rewrite <- !app_assoc. reflexivity. }
  assert (Hlen : List.length (ScalarFacts.E s3) =
                 List.length (ScalarFacts.E s)
                 + (if array_equal x1 (ScalarFunction.x_ s)
                       && ScalarFunction.f_updated s then 2 else 3)).
  { rewrite HEs, !length_app.
    destruct (array_equal x1 (ScalarFunction.x_ s)
              && ScalarFunction.f_updated s); reflexivity. }
  split; [exact HEs|]. split.
  - unfold ScalarFacts.E in Hlen.
    rewrite !length_evaluated_points in Hlen. exact Hlen.
  - rewrite (ScalarFacts.W_n _ (proj1 HI3)), (ScalarFacts.W_n _ (proj1 Hr)).
    exact Hlen.
Qed.

Lemma revisiting_a_point_evaluates_again_witness :
  exists s0 r r1 r2 r3,
    @ScalarFunction.__init__ Reference.collaborators Reference.sphere
       [0%float; 0%float] (Callable Reference.sphere_grad)
       (Callable Reference.sphere_hess) tt
    = Ok s0 /\
    run scalar_step [CallGrad [3%float; 0%float]] s0 = Ok r /\
    ScalarFunction.fun_ [1%float; 1%float] (snd r) = Ok r1 /\
    ScalarFunction.fun_ [2%float; 1%float] (snd r1) = Ok r2 /\
    ScalarFunction.fun_ [1%float; 1%float] (snd r2) = Ok r3 /\
    count is_EvFun (ScalarFunction.trace (snd r3)) =
      count is_EvFun (ScalarFunction.trace (snd r)) + 3.
Proof.
  returned (@ScalarFunction.__init__ Reference.collaborators Reference.sphere
              [0%float; 0%float] (Callable Reference.sphere_grad)
              (Callable Reference.sphere_hess) tt) s0 Hs.
  returned (run scalar_step [CallGrad [3%float; 0%float]] s0) r Hr.
  returned (ScalarFunction.fun_ [1%float; 1%float] (snd r)) r1 H1.
  returned (ScalarFunction.fun_ [2%float; 1%float] (snd r1)) r2 H2.
  returned (ScalarFunction.fun_ [1%float; 1%float] (snd r2)) r3 H3.
  exists s0, r, r1, r2, r3.
  split; [exact Hs|]. split; [exact Hr|]. split; [exact H1|].
  split; [exact H2|]. split; [exact H3|].
  destruct (revisiting_a_point_evaluates_again
              (snd r) (snd r1) (snd r2) (snd r3)
              [1%float; 1%float] [2%float; 1%float]
              (fst r1) (fst r2) (fst r3))
    as (_ & Hcount & _).
  - exists Reference.sphere, [0%float; 0%float],
      (Callable Reference.sphere_grad), (Callable Reference.sphere_hess),
      tt, s0, [CallGrad [3%float; 0%float]].
    split; [exact Hs | exact Hr].
  - vm_compute. reflexivity.
  - exact H1.
  - exact H2.
  - exact H3.
  - exact Hcount.
Defined.

(** C2 as stated fails on an engine built at [x1]: built at [(1, 1)]
    and asked for the value at [(1, 1)], at [(2, 1)] and at [(1, 1)]
    again, the scalar engine calls the user function twice, at [(2, 1)]
    and on the return to [(1, 1)]; the first request is answered from the
    value computed at construction. *)
Lemma value_sequence_from_the_construction_point_evaluates_twice :
  exists s0 s3,
    @ScalarFunction.__init__ Reference.collaborators Reference.sphere
       [1%float; 1%float] (Callable Reference.sphere_grad)
       (Callable Reference.sphere_hess) tt
    = Ok s0 /\
    run scalar_step
      [CallFun [1%float; 1%float]; CallFun [2%float; 1%float];
       CallFun [1%float; 1%float]] s0
    = Ok (tt, s3) /\
    ScalarFunction.trace s3 =
      ScalarFunction.trace s0
      ++ [EvFun [2%float; 1%float]; EvFun [1%float; 1%float]] /\
    count is_EvFun (ScalarFunction.trace s3) =
      count is_EvFun (ScalarFunction.trace s0) + 2 /\
    ScalarFunction.nfev s0 = Ok 1 /\
    ScalarFunction.nfev s3 = Ok 3.
Proof.
  returned (@ScalarFunction.__init__ Reference.collaborators Reference.sphere
              [1%float; 1%float] (Callable Reference.sphere_grad)
              (Callable Reference.sphere_hess) tt) s0 Hs.
  returned (run scalar_step
              [CallFun [1%float; 1%float]; CallFun [2%float; 1%float];
               CallFun [1%float; 1%float]] s0) r H.
  exists s0, (snd r).
  split; [exact Hs|]. split; [exact H|]. repeat split.
Qed.

(** C4: in a scalar engine with a finite-difference gradient, a gradient
    request at a point [x] other than the current one first calls the user
    function at [x], then hands that value to the finite-difference
    routine as the base value [f0], and evaluates the user function
    directly nowhere else; the value is cached, so a value request at [x]
    that follows returns it and leaves the engine, its counters included,
    untouched. *)
Theorem fd_gradient_caches_the_base_value {C : Collaborators}
    (s s1 : ScalarFunction.t) (x g : vec) :
  ScalarFacts.reachable s ->
  in_FD_METHODS (ScalarFunction._orig_grad s) = true ->
  array_equal x (ScalarFunction.x_ s) = false ->
  array_equal x x = true ->
  ScalarFunction.grad x s = Ok (g, s1) ->
  (exists post,
     ScalarFunction.trace s1 =
       ScalarFunction.trace s ++
       EvFun x
       :: EvApproxGrad x (Some (ScalarFunction._wrapped_fun s x)) :: post /\
     evaluated_points post = []) /\
  ScalarFunction.f_ s1 = Some (ScalarFunction._wrapped_fun s x) /\
  ScalarFunction.fun_ x s1 = Ok (ScalarFunction._wrapped_fun s x, s1).
Proof.
  intros Hr Hfd Hx Hxx Hrun. apply ScalarFacts.reachable_Inv in Hr.
  pose proof (wp_elim _ _ _ _ _ _ (ScalarFacts.grad_spec x s Hr) Hrun)
    as (_ & _ & _ & Hx1 & _ & Hfresh).
  destruct (Hfresh Hfd Hx) as (Hf & Hfv & _ & Htr).
  split; [exact Htr|]. split; [exact Hfv|].
  apply ScalarFacts.fun_cached; [|exact Hf | exact Hfv].
  rewrite Hx1. unfold ScalarFacts.moved_to. rewrite Hx. exact Hxx.
Qed.

Lemma fd_gradient_caches_the_base_value_witness :
  exists s0 g s1,
    @ScalarFunction.__init__ Reference.collaborators Reference.sphere
       [1%float; 1%float] (Str "2-point") (Callable Reference.sphere_hess) tt
    = Ok s0 /\
    ScalarFunction.grad [2%float; 1%float] s0 = Ok (g, s1) /\
    ScalarFunction.fun_ [2%float; 1%float] s1 = Ok (5%float, s1).
Proof.
  returned (@ScalarFunction.__init__ Reference.collaborators Reference.sphere
              [1%float; 1%float] (Str "2-point")
              (Callable Reference.sphere_hess) tt) s0 Hs.
  returned (ScalarFunction.grad [2%float; 1%float] s0) r1 H1.
  exists s0, (fst r1), (snd r1).
  split; [exact Hs|]. split; [exact H1|].
  destruct (fd_gradient_caches_the_base_value s0 (snd r1)
              [2%float; 1%float] (fst r1))
    as (_ & _ & Hv).
  - exists Reference.sphere, [1%float; 1%float], (Str "2-point"),
      (Callable Reference.sphere_hess), tt, s0, [].
    split; [exact Hs | reflexivity].
  - reflexivity.
  - vm_compute. reflexivity.
  - vm_compute. reflexivity.
  - exact H1.
  - exact Hv.
Defined.

(** C9: the best-point tracker.  After construction at a point whose
    value is below infinity and any sequence of public calls that all
    returned, the engine tracks a point [xl]: the user function was
    called at [xl], the tracked value is its value there, no point at
    which the user function was called has a strictly smaller value,
    and every point a value request named was among them (itself, or a
    point equal to it entry by entry), whatever the order of the
    requests. *)
Theorem lowest_point_is_a_minimum_of_the_evaluated_points
    {C : Collaborators} (fun_ : vec -> float) (x0 : vec)
    (grad : pyarg (vec -> vec)) (hess : pyarg (vec -> array2))
    (user : fd_user) (calls : list scalar_call) (s0 s : ScalarFunction.t) :
  ScalarFunction.__init__ fun_ x0 grad hess user = Ok s0 ->
  run scalar_step calls s0 = Ok (tt, s) ->
  (fun_ x0 <? infinity)%float = true ->
  exists xl,
    ScalarFunction._lowest_x s = Some xl /\
    ScalarFunction._lowest_f s = fun_ xl /\
    In xl (ScalarFacts.E s) /\
    (forall p, In p (ScalarFacts.E s) -> (fun_ p <? fun_ xl)%float = false) /\
    (forall x, In (CallFun x) calls ->
       exists q, In q (ScalarFacts.E s) /\
                 (x = q \/ array_equal x q = true) /\
                 (fun_ q <? fun_ xl)%float = false).
Proof.
  intros Hinit Hrun Hfin.
  apply ScalarFacts.init_facts in Hinit.
  destruct Hinit as (HI0 & (Hfun & _) & _ & _ & _ & _ & Htr).
  assert (HE0 : ScalarFacts.E s0 = [x0]).
  { unfold ScalarFacts.E, ScalarFacts.gradient_event in *.
    destruct hess; try contradiction; destruct Htr as (-> & _);
      destruct (in_FD_METHODS grad); reflexivity. }
  pose proof (wp_elim _ _ _ _ _ _ (ScalarFacts.run_spec calls s0 HI0) Hrun)
    as ((HW & _) & (Hc & _) & (l & HE) & Hreq).
  rewrite Hfun in Hc.
  destruct (ScalarFacts.W_l _ HW) as [Hlow Hbest]. rewrite Hc in Hlow, Hbest.
  destruct (ScalarFunction._lowest_x s) as [xl|].
  - destruct Hbest as [Hin Heq]. exists xl.
    split; [reflexivity|]. split; [exact Heq|]. split; [exact Hin|].
    rewrite Heq in Hlow. split; [exact Hlow|].
    intros x Hx. destruct (Hreq x Hx) as (q & Hq & Hxq).
    exists q. split; [exact Hq|]. split; [exact Hxq | apply Hlow, Hq].
  - exfalso. rewrite Hbest in Hlow.
    assert (Hin : In x0 (ScalarFacts.E s)).
    { rewrite HE, HE0. left. reflexivity. }
    rewrite (Hlow x0 Hin) in Hfin. discriminate.
Qed.

Lemma lowest_point_is_a_minimum_of_the_evaluated_points_witness :
  exists s0 s,
    @ScalarFunction.__init__ Reference.collaborators Reference.sphere
       [2%float; 1%float] (Callable Reference.sphere_grad)
       (Callable Reference.sphere_hess) tt
    = Ok s0 /\
    run scalar_step
      [CallFun [1%float; 1%float]; CallFun [0%float; 1%float];
       CallFun [3%float; 0%float]] s0
    = Ok (tt, s) /\
    ScalarFunction._lowest_x s = Some [0%float; 1%float] /\
    ScalarFunction._lowest_f s = 1%float.
Proof.
  returned (@ScalarFunction.__init__ Reference.collaborators Reference.sphere
              [2%float; 1%float] (Callable Reference.sphere_grad)
              (Callable Reference.sphere_hess) tt) s0 Hs.
  returned (run scalar_step
              [CallFun [1%float; 1%float]; CallFun [0%float; 1%float];
               CallFun [3%float; 0%float]] s0) r H.
  exists s0, (snd r).
  split; [exact Hs|]. split; [exact H|].
  destruct (lowest_point_is_a_minimum_of_the_evaluated_points
              (C := Reference.collaborators) Reference.sphere
              [2%float; 1%float]
              (Callable Reference.sphere_grad)
              (Callable Reference.sphere_hess) tt
              [CallFun [1%float; 1%float]; CallFun [0%float; 1%float];
               CallFun [3%float; 0%float]] s0 (snd r) Hs H)
    as (xl & Hx & Hf & _).
  - vm_compute. reflexivity.
  - split; reflexivity.
Defined.

(** ** The quasi-Newton Hessian of the scalar engine *)

(** C5: a scalar engine built at [x0] (without NaN entries) with a
    quasi-Newton object [h] has applied no update; a Hessian request at
    [x0] returns the object as [initialize] left it and changes nothing.
    A Hessian request at another point [x1] then returns, provided the
    two differences can be formed; it records [x0] and the gradient at
    [x0] as the previous point and gradient, and feeds the object exactly
    one update, with [x1 - x0] and [g(x1) - g(x0)]. *)
Theorem quasi_newton_hessian_takes_one_update_per_move {C : Collaborators}
    (fun_ : vec -> float) (x0 x1 : vec) (grad : pyarg (vec -> vec))
    (h : HUS) (user : fd_user) (s0 : ScalarFunction.t) (dx dg : vec) :
  ScalarFunction.__init__ fun_ x0 grad (Strategy h) user = Ok s0 ->
  array_equal x0 x0 = true ->
  array_equal x1 x0 = false ->
  np_sub x1 x0 = Ok dx ->
  np_sub (ScalarFacts.gradient_at fun_ grad (Strategy h) user x1)
         (ScalarFacts.gradient_at fun_ grad (Strategy h) user x0) = Ok dg ->
  count is_EvUpdate (ScalarFunction.trace s0) = 0 /\
  ScalarFunction.hess x0 s0
  = Ok (HStrategy (initialize (List.length x0) h), s0) /\
  exists s1,
    ScalarFunction.hess x1 s0
    = Ok (HStrategy (update dx dg (initialize (List.length x0) h)), s1) /\
    ScalarFunction.x_prev s1 = Some x0 /\
    ScalarFunction.g_prev s1
    = Some (ScalarFacts.gradient_at fun_ grad (Strategy h) user x0) /\
    filter is_EvUpdate (ScalarFunction.trace s1) = [EvUpdate dx dg].
Proof.
  intros Hinit Hx0 Hx1 Hdx Hdg.
  pose proof (ScalarFacts.init_facts _ _ _ _ _ _ Hinit)
    as (_ & (_ & _ & _ & Hx & _) & (_ & _ & HH) & _ & _ & _
        & (Htr & _ & HHv)).
  split; [rewrite Htr; unfold ScalarFacts.gradient_event;
          destruct (in_FD_METHODS grad); reflexivity|].
  split.
  { apply ScalarFacts.hess_cached; [rewrite Hx; exact Hx0 | exact HH
                                    | exact HHv]. }
  clear Hx HH Htr HHv. revert Hinit. unfold ScalarFunction.__init__.
  destruct (negb (callable grad) && negb (in_FD_METHODS grad)) eqn:V1;
    [discriminate|].
  cbn [callable in_FD_METHODS isinstance_HessianUpdateStrategy orb negb
       andb].
  rewrite Bool.andb_false_r.
  intros Hb.
  apply (init_elim _ _
           (fun s0 =>
              exists s1,
                ScalarFunction.hess x1 s0
                = Ok (HStrategy (update dx dg
                                   (initialize (List.length x0) h)), s1) /\
                ScalarFunction.x_prev s1 = Some x0 /\
                ScalarFunction.g_prev s1
                = Some (ScalarFacts.gradient_at fun_ grad (Strategy h) user
                                                x0) /\
                filter is_EvUpdate (ScalarFunction.trace s1)
                = [EvUpdate dx dg]) _ Hb).
  clear Hb. unfold ScalarFacts.gradient_at in *.
  destruct grad as [gr|gm|gh|]; try discriminate; cbn in V1, Hdg.
  all: ScalarFacts.wp_exec; try exact I.
  all: match goal with
       | |- exists s1, ?c ?s = Ok (?H, s1) /\ @?P s1 =>
           enough (Hw : wp c s (fun H' s1 => H' = H /\ P s1) no_raise)
             by (destruct (wp_succeeds _ _ _ Hw) as (a & s1 & E0 & -> & HP);
                 exists s1; split; assumption)
       end.
  all: ScalarFacts.wp_exec; cbn; repeat split.
Qed.

Lemma quasi_newton_hessian_takes_one_update_per_move_witness :
  exists s0 s1,
    @ScalarFunction.__init__ Reference.collaborators Reference.sphere
       [1%float; 1%float] (Callable Reference.sphere_grad)
       (Strategy Reference.fresh) tt
    = Ok s0 /\
    ScalarFunction.hess [1%float; 1%float] s0
    = Ok (HStrategy Reference.fresh, s0) /\
    ScalarFunction.hess [2%float; 1%float] s0
    = Ok (HStrategy
           (Reference.history [([1%float; 0%float], [2%float; 0%float])]),
         s1) /\
    ScalarFunction.x_prev s1 = Some [1%float; 1%float] /\
    ScalarFunction.g_prev s1 = Some [2%float; 2%float].
Proof.
  returned (@ScalarFunction.__init__ Reference.collaborators Reference.sphere
              [1%float; 1%float] (Callable Reference.sphere_grad)
              (Strategy Reference.fresh) tt) s0 Hs.
  destruct (quasi_newton_hessian_takes_one_update_per_move
              (C := Reference.collaborators) Reference.sphere
              [1%float; 1%float] [2%float; 1%float]
              (Callable Reference.sphere_grad) Reference.fresh tt s0
              [1%float; 0%float] [2%float; 0%float] Hs)
    as (_ & H0 & s1 & H1 & Hxp & Hgp & _).
  - vm_compute. reflexivity.
  - vm_compute. reflexivity.
  - vm_compute. reflexivity.
  - vm_compute. reflexivity.
  - exists s0, s1. split; [exact Hs|]. split; [exact H0|].
    split; [exact H1|]. split; [exact Hxp | exact Hgp].
Defined.

(** C7: in a vector engine with a quasi-Newton Hessian that has never
    left its point ([x_prev] is still unset), a Hessian request at that
    point, whatever the multiplier, returns; it makes no call outside the
    engine, so no [update] is ever applied to the quasi-Newton object;
    and it returns the object as [initialize] left it. *)
Theorem first_hessian_request_skips_the_update {C : Collaborators}
    (s : VectorFunction.t) (h : HUS) (x v : vec) :
  VectorFacts.reachable s ->
  VectorFunction._orig_hess s = Strategy h ->
  VectorFunction.x_prev s = None ->
  array_equal x (VectorFunction.x_ s) = true ->
  exists s',
    VectorFunction.hess x v s
    = Ok (HStrategy (initialize (VectorFunction.n_ s) h), s') /\
    VectorFunction.trace s' = VectorFunction.trace s /\
    count is_EvUpdate (VectorFunction.trace s') = 0 /\
    VectorFunction.x_prev s' = None /\
    VectorFunction.H_updated s' = true.
Proof.
  intros Hr Hoh Hxp Hx. apply VectorFacts.reachable_Inv_v in Hr.
  destruct (wp_succeeds _ _ _ (VectorFacts.hess_first x v h s Hr Hoh Hxp Hx))
    as (H & s' & Hrun & -> & Hrest).
  exists s'. split; [exact Hrun | exact Hrest].
Qed.

Lemma first_hessian_request_skips_the_update_witness :
  exists s0 s',
    @VectorFunction.__init__ Reference.collaborators Reference.bilinear
       [1%float; 1%float] (Str "2-point") (Strategy Reference.fresh) None tt
    = Ok s0 /\
    VectorFunction.hess [1%float; 1%float] [1%float; 0%float] s0
    = Ok (HStrategy Reference.fresh, s') /\
    count is_EvUpdate (VectorFunction.trace s') = 0.
Proof.
  returned (@VectorFunction.__init__ Reference.collaborators
              Reference.bilinear [1%float; 1%float] (Str "2-point")
              (Strategy Reference.fresh) None tt) s0 Hs.
  destruct (first_hessian_request_skips_the_update
              s0 Reference.fresh [1%float; 1%float] [1%float; 0%float])
    as (s' & Hrun & _ & Hcnt & _).
  - exists Reference.bilinear, [1%float; 1%float], (Str "2-point"),
      (Strategy Reference.fresh), None, tt, s0, [].
    split; [exact Hs | reflexivity].
  - reflexivity.
  - reflexivity.
  - vm_compute. reflexivity.
  - exists s0, s'. split; [exact Hs|]. split; [exact Hrun | exact Hcnt].
Defined.



(** ** The linear function *)

Module LinearFacts.
Import LinearVectorFunction.

Arguments _update_x : simpl never.

Lemma dot_rows (a b : matrix) (x : vec) :
  rows a = rows b -> dot a x = dot b x.
Proof. unfold dot. intros ->. reflexivity. Qed.

(** The engine holds the rows of [A], the zero Hessian, and, while its
    value is valid, the product of [A] with a point equal to the current
    one entry by entry. *)
Definition built_from (A : matrix) (sparse : option bool) (s : t) : Prop :=
  rows (J_ s) = rows A /\
  issparse (J_ s) = match sparse with Some b => b | None => issparse A end /\
  H_ s = csr_zeros (snd (shape A)) (snd (shape A)) /\
  (f_updated s = true ->
   exists x', (x' = x_ s \/ array_equal x' (x_ s) = true) /\
              dot A x' = Ok (f_ s)).

Lemma init_built A x0 sparse s0 :
  __init__ A x0 sparse = Ok s0 -> built_from A sparse s0.
Proof.
  unfold __init__, built_from.
  destruct sparse as [[|]|], A as [r|r]; cbn;
    destruct (dot _ x0) as [f|e] eqn:Hd; try discriminate;
    intros E0; inversion E0; subst; cbn;
    (split; [reflexivity|]); (split; [reflexivity|]);
    (split; [reflexivity|]);
    intros _; exists x0; (split; [left; reflexivity|]);
    rewrite <- Hd; apply dot_rows; reflexivity.
Qed.

Lemma _update_x_spec_l A sparse x s :
  built_from A sparse s ->
  wp (_update_x x) s
     (fun _ s' =>
        built_from A sparse s' /\ J_ s' = J_ s /\ H_ s' = H_ s /\
        if array_equal x (x_ s) then s' = s
        else x_ s' = x /\ f_updated s' = false)
     no_raise.
Proof.
  intros HB. pose proof HB as (HJ & Hs & HH & Hf). unfold _update_x.
  do 3 wp_step. destruct (array_equal x (x_ s)); cbn.
  - split; [exact HB|]. repeat split.
  - do 3 wp_step. cbn. split; [|repeat split].
    split; [exact HJ|]. split; [exact Hs|]. split; [exact HH|]. discriminate.
Qed.

Lemma fun_spec_l A sparse x s :
  built_from A sparse s ->
  wp (fun_ x) s
     (fun f s' =>
        built_from A sparse s' /\
        exists x', (x' = x \/ array_equal x x' = true) /\ dot A x' = Ok f)
     may_raise.
Proof.
  intros HB. unfold fun_. wp_step.
  wp_call (_update_x_spec_l A sparse x s HB).
  intros [] s1 (HB1 & _ & _ & Hcase).
  pose proof HB1 as (HJ & Hs & HH & Hf).
  do 3 wp_step. destruct (f_updated s1) eqn:Hfu; cbn.
  - do 4 wp_step. split; [exact HB1|].
    destruct (array_equal x (x_ s)) eqn:Hx.
    + subst s1. destruct (Hf eq_refl) as (x' & Hx' & Hd).
      exists x'. split; [right | exact Hd].
      destruct Hx' as [->|Hx']; [exact Hx|].
      apply (array_equal_trans x (x_ s) x' Hx).
      apply array_equal_sym, Hx'.
    + destruct Hcase as (_ & Hcase). congruence.
  - do 2 wp_step. rewrite (dot_rows _ A x HJ).
    destruct (dot A x) as [f|e] eqn:Hd; [|exact I].
    repeat wp_step. cbn. split.
    + split; [exact HJ|]. split; [exact Hs|]. split; [exact HH|].
      intros _. exists x. split; [|exact Hd].
      destruct (array_equal x (x_ s)) eqn:Hx.
      * subst s1. right. exact Hx.
      * left. symmetry. apply Hcase.
    + exists x. split; [left; reflexivity | exact Hd].
Qed.

Lemma jac_spec_l A sparse x s :
  built_from A sparse s ->
  wp (jac x) s (fun J s' => built_from A sparse s' /\ J = J_ s) no_raise.
Proof.
  intros HB. unfold jac. wp_step.
  wp_call (_update_x_spec_l A sparse x s HB).
  intros [] s1 (HB1 & HJ & _). do 2 wp_step. split; assumption.
Qed.

Lemma hess_spec_l A sparse x v s :
  built_from A sparse s ->
  wp (hess x v) s (fun H s' => built_from A sparse s' /\ H = H_ s) no_raise.
Proof.
  intros HB. unfold hess. wp_step.
  wp_call (_update_x_spec_l A sparse x s HB).
  intros [] s1 ((HJ1 & Hs1 & HH1 & Hf1) & HJ & HH & _).
  do 3 wp_step. cbn. split; [|exact HH].
  split; [exact HJ1|]. split; [exact Hs1|]. split; assumption.
Qed.

Lemma run_spec_l A sparse calls : forall s,
  built_from A sparse s ->
  wp (run linear_step calls) s (fun _ s' => built_from A sparse s') may_raise.
Proof.
  induction calls as [|c calls IH]; intros s HB; cbn [run].
  - wp_step. exact HB.
  - wp_step. destruct c as [x|x|x v]; cbn [linear_step]; wp_step.
    + wp_call (fun_spec_l A sparse x s HB).
      intros f s1 (HB1 & _). wp_step. apply IH, HB1.
    + wp_call (jac_spec_l A sparse x s HB).
      intros f s1 (HB1 & _). wp_step. apply IH, HB1.
    + wp_call (hess_spec_l A sparse x v s HB).
      intros f s1 (HB1 & _). wp_step. apply IH, HB1.
Qed.

End LinearFacts.

(** C8: a linear function built from a matrix [A] and then used through
    any sequence of calls answers a value request at [x] with the product
    of [A] and [x] (computed at [x], or at the point equal to [x] entry by
    entry at which the cached value was computed); a Jacobian request
    with the matrix it holds, whose rows are those of [A], sparse or dense
    as [sparse_jacobian] asks; and a Hessian request with the sparse
    [n] by [n] matrix of zeros, [n] the number of columns of [A].  For
    the matrix of rows [(1, 0)], [(1, 0)], [(0, 1)] the value at [(3, 4)]
    is [(3, 3, 4)]. *)
Theorem linear_function_is_its_matrix (A : matrix) (x0 : vec)
    (sparse_jacobian : option bool) (calls : list linear_call)
    (s0 s : LinearVectorFunction.t) :
  LinearVectorFunction.__init__ A x0 sparse_jacobian = Ok s0 ->
  run linear_step calls s0 = Ok (tt, s) ->
  (forall x f s',
     LinearVectorFunction.fun_ x s = Ok (f, s') ->
     exists x', (x' = x \/ array_equal x x' = true) /\ dot A x' = Ok f) /\
  (forall x, exists s',
     LinearVectorFunction.jac x s = Ok (LinearVectorFunction.J_ s, s') /\
     rows (LinearVectorFunction.J_ s) = rows A /\
     issparse (LinearVectorFunction.J_ s) =
       match sparse_jacobian with Some b => b | None => issparse A end) /\
  (forall x v, exists s',
     LinearVectorFunction.hess x v s
     = Ok (csr_zeros (snd (shape A)) (snd (shape A)), s')) /\
  (forall sparse, exists e e',
     LinearVectorFunction.__init__
       (Dense [[1%float; 0%float]; [1%float; 0%float]; [0%float; 1%float]])
       [0%float; 0%float] sparse = Ok e /\
     LinearVectorFunction.fun_ [3%float; 4%float] e
     = Ok ([3%float; 3%float; 4%float], e')).
Proof.
  intros Hinit Hrun. apply LinearFacts.init_built in Hinit.
  pose proof (wp_elim _ _ _ _ _ _
                (LinearFacts.run_spec_l A sparse_jacobian calls s0 Hinit)
                Hrun) as HB.
  split; [|split; [|split]].
  - intros x f s' Hf.
    apply (wp_elim _ _ _ _ _ _ (LinearFacts.fun_spec_l _ _ x s HB) Hf).
  - intros x.
    destruct (wp_succeeds _ _ _ (LinearFacts.jac_spec_l _ _ x s HB))
      as (J & s' & HJ & _ & ->).
    exists s'. split; [exact HJ|]. destruct HB as (Hr & Hs & _).
    split; assumption.
  - intros x v.
    destruct (wp_succeeds _ _ _ (LinearFacts.hess_spec_l _ _ x v s HB))
      as (H & s' & HH & _ & ->).
    exists s'. rewrite HH. destruct HB as (_ & _ & -> & _). reflexivity.
  - intros [[|]|]; eexists; eexists; split; vm_compute; reflexivity.
Qed.

Lemma linear_function_is_its_matrix_witness :
  exists s0 s s',
    LinearVectorFunction.__init__
      (Sparse [[2%float; 0%float]; [1%float; 1%float]])
      [1%float; 1%float] None = Ok s0 /\
    run linear_step
      [LCallJac [5%float; 5%float];
       LCallHess [1%float; 2%float] [1%float; 1%float]] s0
    = Ok (tt, s) /\
    LinearVectorFunction.jac [7%float; 7%float] s
    = Ok (Sparse [[2%float; 0%float]; [1%float; 1%float]], s') /\
    exists s'',
      LinearVectorFunction.hess [7%float; 7%float] [1%float; 1%float] s
      = Ok (Sparse [[0%float; 0%float]; [0%float; 0%float]], s'').
Proof.
  returned (LinearVectorFunction.__init__
              (Sparse [[2%float; 0%float]; [1%float; 1%float]])
              [1%float; 1%float] None) s0 Hs.
  returned (run linear_step
              [LCallJac [5%float; 5%float];
               LCallHess [1%float; 2%float] [1%float; 1%float]] s0) r Hr.
  destruct (linear_function_is_its_matrix _ _ _ _ s0 (snd r) Hs Hr)
    as (_ & HJ & HH & _).
  destruct (HJ [7%float; 7%float]) as (s' & HJ' & _).
  exists s0, (snd r), s'. split; [exact Hs|]. split; [exact Hr|].
  split; [exact HJ'|]. exact (HH [7%float; 7%float] [1%float; 1%float]).
Defined.

(** * Further properties of the scalar engine *)

Module ScalarMore.
Import ScalarFunction.

Section More.
Context {C : Collaborators}.

(** The configurations [__init__] accepts. *)
Definition valid_configuration (grad : pyarg (vec -> vec))
    (hess : pyarg (vec -> array2)) : bool :=
  (callable grad || in_FD_METHODS grad)
  && (callable hess || in_FD_METHODS hess
      || isinstance_HessianUpdateStrategy hess)
  && negb (in_FD_METHODS grad && in_FD_METHODS hess).

(** What an accessor returns is what it leaves in the cache. *)
Lemma fun_returns x s f s1 : fun_ x s = Ok (f, s1) -> f_ s1 = Some f.
Proof.
  unfold fun_, bind, get, attr.
  destruct (when _ _ s) as [[[] sa]|]; [|discriminate].
  destruct (_update_fun sa) as [[[] sb]|]; [|discriminate].
  destruct (f_ sb) eqn:E0; intros H; inversion H; subst; exact E0.
Qed.

Lemma grad_returns x s g s1 : grad x s = Ok (g, s1) -> g_ s1 = Some g.
Proof.
  unfold grad, bind, get, attr.
  destruct (when _ _ s) as [[[] sa]|]; [|discriminate].
  destruct (_update_grad sa) as [[[] sb]|]; [|discriminate].
  destruct (g_ sb) eqn:E0; intros H; inversion H; subst; exact E0.
Qed.

Lemma hess_returns x s H s1 : hess x s = Ok (H, s1) -> H_ s1 = Some H.
Proof.
  unfold hess, bind, get, attr.
  destruct (when _ _ s) as [[[] sa]|]; [|discriminate].
  destruct (_update_hess sa) as [[[] sb]|]; [|discriminate].
  destruct (H_ sb) eqn:E0; intros E1; inversion E1; subst; exact E0.
Qed.

Lemma grad_cached x s g :
  array_equal x (x_ s) = true -> g_updated s = true -> g_ s = Some g ->
  grad x s = Ok (g, s).
Proof.
  intros Hx Hf Hv. apply wp_exact. ScalarFacts.wp_exec. split; reflexivity.
Qed.

Lemma fun_and_grad_cached x s f g :
  array_equal x (x_ s) = true -> f_updated s = true -> g_updated s = true ->
  f_ s = Some f -> g_ s = Some g ->
  fun_and_grad x s = Ok ((f, g), s).
Proof.
  intros Hx Hf Hg Hfv Hgv. apply wp_exact. ScalarFacts.wp_exec.
  split; reflexivity.
Qed.

(** A Hessian request leaves the Hessian valid at the point it moved
    to. *)
Lemma hess_valid x s :
  ScalarFacts.Inv s ->
  wp (hess x) s
     (fun _ s' => H_updated s' = true /\ x_ s' = ScalarFacts.moved_to x s)
     may_raise.
Proof.
  intros HI. pose proof HI as [HW Hqg]. unfold hess, ScalarFacts.moved_to.
  repeat wp_step.
  destruct (array_equal x (x_ s)) eqn:Hx; cbn.
  - repeat wp_step.
    wp_call ScalarFacts._update_hess_spec; [exact HW|].
    intros [] s1 (HW1 & Hr1 & HH1 & _).
    repeat wp_step. destruct (H_ s1); [|exact I].
    split; [exact HH1 | apply (ScalarFacts.upd_x _ _ Hr1)].
  - wp_call ScalarFacts._update_x_spec; [exact HI|].
    intros [] s1 (HW1 & _ & Hx1 & _).
    repeat wp_step.
    wp_call ScalarFacts._update_hess_spec; [exact HW1|].
    intros [] s2 (HW2 & Hr2 & HH2 & _).
    repeat wp_step. destruct (H_ s2); [|exact I].
    split; [exact HH2|]. rewrite (ScalarFacts.upd_x _ _ Hr2). exact Hx1.
Qed.

(** A combined request leaves value and gradient valid at the point it
    moved to. *)
Lemma fun_and_grad_valid x s :
  ScalarFacts.Inv s ->
  wp (fun_and_grad x) s
     (fun r s' =>
        f_updated s' = true /\ g_updated s' = true /\
        f_ s' = Some (fst r) /\ g_ s' = Some (snd r) /\
        x_ s' = ScalarFacts.moved_to x s /\
        fst r = _wrapped_fun s (ScalarFacts.moved_to x s))
     may_raise.
Proof.
  intros HI. pose proof HI as [HW Hqg].
  unfold fun_and_grad, ScalarFacts.moved_to.
  repeat wp_step.
  destruct (array_equal x (x_ s)) eqn:Hx; cbn.
  - repeat wp_step.
    wp_call ScalarFacts._update_fun_spec; [exact HW|].
    intros [] s1 (HW1 & Hr1 & Hf1 & _).
    repeat wp_step.
    wp_call ScalarFacts._update_grad_spec; [exact HW1|].
    intros [] s2 (HW2 & Hr2 & Hg2 & _).
    pose proof (ScalarFacts.upd_f_mono _ _ Hr2 Hf1) as Hf2.
    destruct (ScalarFacts.W_f _ HW2 Hf2) as [Hfv2 _].
    destruct (ScalarFacts.upd_rel_trans _ _ _ Hr1 Hr2)
      as [(c1 & _) Hx2 _ _ _ _].
    repeat wp_step. rewrite Hfv2.
    repeat wp_step. destruct (g_ s2) eqn:Hgv2; [|exact I].
    repeat wp_step. cbn.
    repeat split; try assumption; congruence.
  - wp_call ScalarFacts._update_x_spec; [exact HI|].
    intros [] s0 (HW0 & (c0 & _) & Hx0 & _).
    repeat wp_step.
    wp_call ScalarFacts._update_fun_spec; [exact HW0|].
    intros [] s1 (HW1 & Hr1 & Hf1 & _).
    repeat wp_step.
    wp_call ScalarFacts._update_grad_spec; [exact HW1|].
    intros [] s2 (HW2 & Hr2 & Hg2 & _).
    pose proof (ScalarFacts.upd_f_mono _ _ Hr2 Hf1) as Hf2.
    destruct (ScalarFacts.W_f _ HW2 Hf2) as [Hfv2 _].
    destruct (ScalarFacts.upd_rel_trans _ _ _ Hr1 Hr2)
      as [(c1 & _) Hx2 _ _ _ _].
    repeat wp_step. rewrite Hfv2.
    repeat wp_step. destruct (g_ s2) eqn:Hgv2; [|exact I].
    repeat wp_step. cbn.
    repeat split; try assumption; congruence.
Qed.

(** A quasi-Newton refresh of a stale Hessian: the gradient is made
    valid, then the object is fed one update whose first argument is
    the step from the previous point. *)
Lemma _update_hess_quasi_newton s :
  ScalarFacts.W s -> H_updated s = false ->
  isinstance_HessianUpdateStrategy (_orig_hess s) = true ->
  wp _update_hess s
     (fun _ s' =>
        ScalarFacts.W s' /\ ScalarFacts.upd_rel s s' /\
        g_updated s' = true /\ H_updated s' = true /\
        exists dx dg pre,
          sub_prev (x_ s) (x_prev s) = Ok dx /\
          trace s' = trace s ++ pre ++ [EvUpdate dx dg] /\
          count is_EvUpdate pre = 0)
     may_raise.
Proof.
  intros HW HH Hqn. unfold _update_hess.
  repeat wp_step. rewrite HH. cbn.
  rewrite (ScalarFacts.strategy_not_FD _ Hqn), Hqn.
  repeat wp_step.
  wp_call ScalarFacts._update_grad_spec; [exact HW|].
  intros [] s1 (HW1 & Hr1 & Hg1 & HH1 & HHv1 & Hsame1 & Htr1).
  assert (Hpre : exists pre, trace s1 = trace s ++ pre /\
                             count is_EvUpdate pre = 0).
  { destruct (g_updated s) eqn:Hg.
    - rewrite (Hsame1 eq_refl). exists []. split; [|reflexivity].
      symmetry. apply app_nil_r.
    - specialize (Htr1 eq_refl).
      destruct (in_FD_METHODS (_orig_grad s)), Htr1 as [_ ->];
        eexists; (split; [reflexivity|]).
      + destruct (f_updated s); reflexivity.
      + reflexivity. }
  destruct Hpre as (pre & Hpre & Hcnt).
  repeat wp_step.
  rewrite (ScalarFacts.upd_x _ _ Hr1),
    (proj1 (ScalarFacts.upd_prev _ _ Hr1)).
  destruct (sub_prev (x_ s) (x_prev s)) as [dx|] eqn:Hdx; [|exact I].
  repeat wp_step. destruct (g_ s1) as [g|]; [|exact I].
  repeat wp_step.
  destruct (sub_prev g (g_prev s1)) as [dg|]; [|exact I].
  wp_call ScalarFacts.H_update_spec; [exact HW1|].
  intros [] s2 (HW2 & Hr2 & Hf2 & Hg2 & HH2 & Htr2 & _).
  repeat wp_step. cbn.
  assert (Hfr : ScalarFacts.W (set_H_updated true s2) /\
                ScalarFacts.upd_rel s2 (set_H_updated true s2)).
  { apply (ScalarFacts.W_upd_frame s2); cbn; auto.
    apply (ScalarFacts.W_w _ HW2). }
  destruct Hfr as [HW3 Hr3].
  split; [exact HW3|]. split.
  { eapply ScalarFacts.upd_rel_trans; [|exact Hr3].
    eapply ScalarFacts.upd_rel_trans; eassumption. }
  split; [congruence|]. split; [reflexivity|].
  exists dx, dg, pre. split; [reflexivity|]. split; [|exact Hcnt].
  rewrite Htr2, Hpre, <- app_assoc. reflexivity.
Qed.

End More.
End ScalarMore.

(** X1: [ScalarFunction.__init__] checks its arguments before anything
    else.  With a gradient that is neither callable nor a
    finite-difference method, a Hessian that is neither callable, a
    finite-difference method nor a quasi-Newton object, or both by finite
    differences, it raises [ValueError], whatever the function and the
    point are.  So an engine a caller holds was built from arguments
    that passed the three checks, and no sequence of calls changes them:
    the engine still refers to the function, the gradient and the
    Hessian arguments it was built with. *)
Theorem scalar_engine_keeps_a_valid_configuration {C : Collaborators}
    (fun_ : vec -> float) (x0 : vec) (grad : pyarg (vec -> vec))
    (hess : pyarg (vec -> array2)) (user : fd_user) :
  (ScalarMore.valid_configuration grad hess = false ->
   ScalarFunction.__init__ fun_ x0 grad hess user = Raise ValueError) /\
  (forall s0 calls s,
     ScalarFunction.__init__ fun_ x0 grad hess user = Ok s0 ->
     run scalar_step calls s0 = Ok (tt, s) ->
     ScalarMore.valid_configuration grad hess = true /\
     ScalarFunction._wrapped_fun s = fun_ /\
     ScalarFunction._orig_grad s = grad /\
     ScalarFunction._orig_hess s = hess).
Proof.
  assert (Hguard : ScalarMore.valid_configuration grad hess = false ->
                   ScalarFunction.__init__ fun_ x0 grad hess user
                   = Raise ValueError).
  { unfold ScalarMore.valid_configuration, ScalarFunction.__init__.
    destruct (callable grad || in_FD_METHODS grad) eqn:V1.
    - apply orb_true_iff in V1.
      replace (negb (callable grad) && negb (in_FD_METHODS grad)) with false
        by (destruct V1 as [-> | ->]; cbn; rewrite ?andb_false_r;
            reflexivity).
      destruct (callable hess || in_FD_METHODS hess
                || isinstance_HessianUpdateStrategy hess) eqn:V2; cbn;
        [|reflexivity].
      destruct (in_FD_METHODS grad && in_FD_METHODS hess) eqn:V3; cbn;
        [reflexivity | discriminate].
    - apply orb_false_iff in V1. destruct V1 as [-> ->]. reflexivity. }
  split; [exact Hguard|].
  intros s0 calls s Hinit Hrun.
  destruct (ScalarMore.valid_configuration grad hess) eqn:Hval.
  - apply ScalarFacts.init_facts in Hinit.
    destruct Hinit as (HI0 & (Hf & Hg & Hh & _) & _).
    pose proof (wp_elim _ _ _ _ _ _ (ScalarFacts.run_spec calls s0 HI0) Hrun)
      as (_ & (c1 & c2 & c3) & _).
    split; [reflexivity|]. split; [congruence|]. split; congruence.
  - rewrite (Hguard eq_refl) in Hinit. discriminate.
Qed.

Lemma scalar_engine_keeps_a_valid_configuration_witness :
  @ScalarFunction.__init__ Reference.collaborators Reference.sphere
     [1%float; 1%float] (Str "4-point") (Callable Reference.sphere_hess) tt
  = Raise ValueError /\
  exists s0 s,
    @ScalarFunction.__init__ Reference.collaborators Reference.sphere
       [1%float; 1%float] (Str "2-point") (Strategy Reference.fresh) tt
    = Ok s0 /\
    run scalar_step [CallHess [2%float; 1%float]; CallFun [0%float; 1%float]]
      s0 = Ok (tt, s) /\
    ScalarFunction._orig_grad s = Str "2-point" /\
    ScalarFunction._orig_hess s = Strategy Reference.fresh.
Proof.
  split.
  - apply (@scalar_engine_keeps_a_valid_configuration Reference.collaborators
             Reference.sphere [1%float; 1%float] (Str "4-point")
             (Callable Reference.sphere_hess) tt).
    reflexivity.
  - returned (@ScalarFunction.__init__ Reference.collaborators
                Reference.sphere [1%float; 1%float] (Str "2-point")
                (Strategy Reference.fresh) tt) s0 Hs.
    returned (run scalar_step
                [CallHess [2%float; 1%float]; CallFun [0%float; 1%float]] s0)
      r Hr.
    exists s0, (snd r). split; [exact Hs|]. split; [exact Hr|].
    destruct (@scalar_engine_keeps_a_valid_configuration
                Reference.collaborators Reference.sphere [1%float; 1%float]
                (Str "2-point") (Strategy Reference.fresh) tt)
      as [_ Hkeeps].
    destruct (Hkeeps s0 _ (snd r) Hs Hr) as (_ & _ & Hg & Hh).
    split; [exact Hg | exact Hh].
Defined.

(** X2: in every state a scalar engine can reach, the private counter
    [_nfev] is the number of calls of the user function the engine has
    made itself. *)
Theorem scalar_nfev_counts_the_direct_evaluations {C : Collaborators}
    (s : ScalarFunction.t) :
  ScalarFacts.reachable s ->
  ScalarFunction._nfev s = count is_EvFun (ScalarFunction.trace s).
Proof.
  intros Hr. apply ScalarFacts.reachable_Inv in Hr. destruct Hr as [HW _].
  rewrite (ScalarFacts.W_n _ HW). apply length_evaluated_points.
Qed.

Lemma scalar_nfev_counts_the_direct_evaluations_witness :
  exists s0 r,
    @ScalarFunction.__init__ Reference.collaborators Reference.sphere
       [1%float; 1%float] (Str "2-point") (Strategy Reference.fresh) tt
    = Ok s0 /\
    run scalar_step
      [CallHess [2%float; 1%float]; CallFun [2%float; 1%float];
       CallGrad [0%float; 1%float]] s0
    = Ok r /\
    ScalarFunction._nfev (snd r) = 3 /\
    count is_EvFun (ScalarFunction.trace (snd r)) = 3.
Proof.
  returned (@ScalarFunction.__init__ Reference.collaborators Reference.sphere
              [1%float; 1%float] (Str "2-point") (Strategy Reference.fresh)
              tt) s0 Hs.
  returned (run scalar_step
              [CallHess [2%float; 1%float]; CallFun [2%float; 1%float];
               CallGrad [0%float; 1%float]] s0) r Hr.
  exists s0, r. split; [exact Hs|]. split; [exact Hr|].
  assert (Hn : ScalarFunction._nfev (snd r)
               = count is_EvFun (ScalarFunction.trace (snd r))).
  { apply scalar_nfev_counts_the_direct_evaluations.
    exists Reference.sphere, [1%float; 1%float], (Str "2-point"),
      (Strategy Reference.fresh), tt, s0,
      [CallHess [2%float; 1%float]; CallFun [2%float; 1%float];
       CallGrad [0%float; 1%float]].
    split; [exact Hs | exact Hr]. }
  split; [reflexivity|]. rewrite <- Hn. reflexivity.
Defined.

(** X3: a combined request [fun_and_grad(x)] at a point without NaN
    entries returns the value of the user function at the point the
    engine then holds, and leaves value and gradient cached: a value
    request, a gradient request or another combined request at [x] that
    follows returns the same numbers and leaves the engine untouched. *)
Theorem fun_and_grad_agrees_with_fun_and_grad_requests {C : Collaborators}
    (s s1 : ScalarFunction.t) (x : vec) (f : float) (g : vec) :
  ScalarFacts.reachable s -> array_equal x x = true ->
  ScalarFunction.fun_and_grad x s = Ok ((f, g), s1) ->
  f = ScalarFunction._wrapped_fun s1 (ScalarFunction.x_ s1) /\
  ScalarFunction.fun_ x s1 = Ok (f, s1) /\
  ScalarFunction.grad x s1 = Ok (g, s1) /\
  ScalarFunction.fun_and_grad x s1 = Ok ((f, g), s1).
Proof.
  intros Hr Hxx Hrun. apply ScalarFacts.reachable_Inv in Hr.
  pose proof (wp_elim _ _ _ _ _ _ (ScalarMore.fun_and_grad_valid x s Hr) Hrun)
    as (Hf & Hg & Hfv & Hgv & Hx & Hval).
  pose proof (wp_elim _ _ _ _ _ _ (ScalarFacts.fun_and_grad_spec x s Hr) Hrun)
    as (_ & (c1 & _) & _).
  cbn in Hfv, Hgv, Hval.
  assert (Hxe : array_equal x (ScalarFunction.x_ s1) = true)
    by (rewrite Hx; apply moved_to_equal, Hxx).
  split; [rewrite c1, Hx; exact Hval|].
  split; [apply ScalarFacts.fun_cached; assumption|].
  split; [apply ScalarMore.grad_cached; assumption|].
  apply ScalarMore.fun_and_grad_cached; assumption.
Qed.

Lemma fun_and_grad_agrees_with_fun_and_grad_requests_witness :
  exists s0 s1,
    @ScalarFunction.__init__ Reference.collaborators Reference.sphere
       [1%float; 1%float] (Callable Reference.sphere_grad)
       (Callable Reference.sphere_hess) tt
    = Ok s0 /\
    ScalarFunction.fun_and_grad [2%float; 1%float] s0
    = Ok ((5%float, [4%float; 2%float]), s1) /\
    ScalarFunction.fun_ [2%float; 1%float] s1 = Ok (5%float, s1) /\
    ScalarFunction.grad [2%float; 1%float] s1
    = Ok ([4%float; 2%float], s1).
Proof.
  returned (@ScalarFunction.__init__ Reference.collaborators Reference.sphere
              [1%float; 1%float] (Callable Reference.sphere_grad)
              (Callable Reference.sphere_hess) tt) s0 Hs.
  returned (ScalarFunction.fun_and_grad [2%float; 1%float] s0) r Hr.
  exists s0, (snd r). split; [exact Hs|]. split; [exact Hr|].
  destruct (fun_and_grad_agrees_with_fun_and_grad_requests
              s0 (snd r) [2%float; 1%float] 5%float [4%float; 2%float])
    as (_ & Hf & Hg & _).
  - exists Reference.sphere, [1%float; 1%float],
      (Callable Reference.sphere_grad), (Callable Reference.sphere_hess),
      tt, s0, [].
    split; [exact Hs | reflexivity].
  - vm_compute. reflexivity.
  - exact Hr.
  - split; [exact Hf | exact Hg].
Defined.

(** X4: a gradient request at a point without NaN entries, repeated at
    once, is answered from the cache: the second call returns the same
    gradient and leaves the engine, its counters included, untouched. *)
Theorem repeated_gradient_request_is_memoized {C : Collaborators}
    (s s1 : ScalarFunction.t) (x g : vec) :
  ScalarFacts.reachable s -> array_equal x x = true ->
  ScalarFunction.grad x s = Ok (g, s1) ->
  ScalarFunction.grad x s1 = Ok (g, s1).
Proof.
  intros Hr Hxx Hrun. apply ScalarFacts.reachable_Inv in Hr.
  pose proof (wp_elim _ _ _ _ _ _ (ScalarFacts.grad_spec x s Hr) Hrun)
    as (_ & _ & Hg & Hx & _).
  apply ScalarMore.grad_cached;
    [rewrite Hx; apply moved_to_equal, Hxx | exact Hg
    | apply (ScalarMore.grad_returns _ _ _ _ Hrun)].
Qed.

Lemma repeated_gradient_request_is_memoized_witness :
  exists s0 r,
    @ScalarFunction.__init__ Reference.collaborators Reference.sphere
       [1%float; 1%float] (Str "3-point") (Strategy Reference.fresh) tt
    = Ok s0 /\
    ScalarFunction.grad [2%float; 1%float] s0 = Ok r /\
    ScalarFunction.grad [2%float; 1%float] (snd r) = Ok r.
Proof.
  returned (@ScalarFunction.__init__ Reference.collaborators Reference.sphere
              [1%float; 1%float] (Str "3-point") (Strategy Reference.fresh)
              tt) s0 Hs.
  returned (ScalarFunction.grad [2%float; 1%float] s0) r Hr.
  exists s0, r. split; [exact Hs|]. split; [exact Hr|].
  apply (repeated_gradient_request_is_memoized s0 (snd r)
           [2%float; 1%float] (fst r)).
  - exists Reference.sphere, [1%float; 1%float], (Str "3-point"),
      (Strategy Reference.fresh), tt, s0, [].
    split; [exact Hs | reflexivity].
  - vm_compute. reflexivity.
  - exact Hr.
Defined.

(** X5: a Hessian request at a point without NaN entries, repeated at
    once, is answered from the cache: the second call returns the same
    Hessian and leaves the engine untouched; in particular a
    quasi-Newton object receives no second update. *)
Theorem repeated_hessian_request_is_memoized {C : Collaborators}
    (s s1 : ScalarFunction.t) (x : vec) (H : hessian) :
  ScalarFacts.reachable s -> array_equal x x = true ->
  ScalarFunction.hess x s = Ok (H, s1) ->
  ScalarFunction.hess x s1 = Ok (H, s1).
Proof.
  intros Hr Hxx Hrun. apply ScalarFacts.reachable_Inv in Hr.
  pose proof (wp_elim _ _ _ _ _ _ (ScalarMore.hess_valid x s Hr) Hrun)
    as (HH & Hx).
  apply ScalarFacts.hess_cached;
    [rewrite Hx; apply moved_to_equal, Hxx | exact HH
    | apply (ScalarMore.hess_returns _ _ _ _ Hrun)].
Qed.

Lemma repeated_hessian_request_is_memoized_witness :
  exists s0 r,
    @ScalarFunction.__init__ Reference.collaborators Reference.sphere
       [1%float; 1%float] (Callable Reference.sphere_grad)
       (Strategy Reference.fresh) tt
    = Ok s0 /\
    ScalarFunction.hess [2%float; 1%float] s0 = Ok r /\
    ScalarFunction.hess [2%float; 1%float] (snd r) = Ok r.
Proof.
  returned (@ScalarFunction.__init__ Reference.collaborators Reference.sphere
              [1%float; 1%float] (Callable Reference.sphere_grad)
              (Strategy Reference.fresh) tt) s0 Hs.
  returned (ScalarFunction.hess [2%float; 1%float] s0) r Hr.
  exists s0, r. split; [exact Hs|]. split; [exact Hr|].
  apply (repeated_hessian_request_is_memoized s0 (snd r)
           [2%float; 1%float] (fst r)).
  - exists Reference.sphere, [1%float; 1%float],
      (Callable Reference.sphere_grad), (Strategy Reference.fresh), tt, s0,
      [].
    split; [exact Hs | reflexivity].
  - vm_compute. reflexivity.
  - exact Hr.
Defined.

(** X6: without a quasi-Newton Hessian the scalar engine is lazy.  A
    value request at a point other than the current one always returns;
    it calls the user function once, at the new point, and nothing else;
    the gradient and the Hessian are only marked stale. *)
Theorem value_request_at_a_new_point_is_lazy {C : Collaborators}
    (s : ScalarFunction.t) (x : vec) :
  ScalarFacts.reachable s ->
  isinstance_HessianUpdateStrategy (ScalarFunction._orig_hess s) = false ->
  array_equal x (ScalarFunction.x_ s) = false ->
  exists s1,
    ScalarFunction.fun_ x s = Ok (ScalarFunction._wrapped_fun s x, s1) /\
    ScalarFunction.trace s1 = ScalarFunction.trace s ++ [EvFun x] /\
    ScalarFunction.x_ s1 = x /\
    ScalarFunction.f_updated s1 = true /\
    ScalarFunction.g_updated s1 = false /\
    ScalarFunction.H_updated s1 = false.
Proof.
  intros Hr Hqn Hx. apply ScalarFacts.reachable_Inv in Hr.
  destruct Hr as [HW _].
  enough (Hw : wp (ScalarFunction.fun_ x) s
                 (fun f s1 =>
                    f = ScalarFunction._wrapped_fun s x /\
                    ScalarFunction.trace s1
                    = ScalarFunction.trace s ++ [EvFun x] /\
                    ScalarFunction.x_ s1 = x /\
                    ScalarFunction.f_updated s1 = true /\
                    ScalarFunction.g_updated s1 = false /\
                    ScalarFunction.H_updated s1 = false) no_raise).
  { destruct (wp_succeeds _ _ _ Hw) as (f & s1 & Hrun & -> & Hrest).
    exists s1. split; [exact Hrun | exact Hrest]. }
  unfold ScalarFunction.fun_. do 3 wp_step. rewrite Hx. cbn.
  unfold ScalarFunction._update_x. do 2 wp_step. rewrite Hqn.
  repeat wp_step.
  set (sa := ScalarFunction.set_H_updated false _).
  assert (HWa : ScalarFacts.W sa)
    by apply (ScalarFacts.W_moved x (ScalarFunction.x_prev s)
                (ScalarFunction.g_prev s) s HW).
  wp_call ScalarFacts._update_fun_spec; [exact HWa|].
  intros [] s1 (HW1 & Hr1 & Hf1 & Hg1 & HH1 & _ & _ & _ & Htr1).
  destruct (ScalarFacts.W_f _ HW1 Hf1) as [Hfv1 _].
  destruct Hr1 as [(c1 & _) Hx1 _ _ _ _].
  wp_step. rewrite Hfv1. cbn in *.
  split; [congruence|]. split; [exact Htr1|]. split; [exact Hx1|].
  split; [exact Hf1|]. split; assumption.
Qed.

Lemma value_request_at_a_new_point_is_lazy_witness :
  exists s0 s1,
    @ScalarFunction.__init__ Reference.collaborators Reference.sphere
       [1%float; 1%float] (Callable Reference.sphere_grad)
       (Callable Reference.sphere_hess) tt
    = Ok s0 /\
    ScalarFunction.fun_ [2%float; 1%float] s0 = Ok (5%float, s1) /\
    ScalarFunction.trace s1
    = ScalarFunction.trace s0 ++ [EvFun [2%float; 1%float]] /\
    ScalarFunction.g_updated s1 = false.
Proof.
  returned (@ScalarFunction.__init__ Reference.collaborators Reference.sphere
              [1%float; 1%float] (Callable Reference.sphere_grad)
              (Callable Reference.sphere_hess) tt) s0 Hs.
  destruct (value_request_at_a_new_point_is_lazy s0 [2%float; 1%float])
    as (s1 & Hrun & Htr & _ & _ & Hg & _).
  - exists Reference.sphere, [1%float; 1%float],
      (Callable Reference.sphere_grad), (Callable Reference.sphere_hess),
      tt, s0, [].
    split; [exact Hs | reflexivity].
  - reflexivity.
  - vm_compute. reflexivity.
  - exists s0, s1. split; [exact Hs|]. split; [exact Hrun|].
    split; [exact Htr | exact Hg].
Defined.

(** X7: with a quasi-Newton Hessian the scalar engine is eager.  A value
    request at a point [x] other than the current one that returns has
    also made the gradient valid at [x] and fed the quasi-Newton object
    exactly one update, whose step is [x] minus the previous point; the
    previous point and gradient are recorded, and the Hessian is
    valid. *)
Theorem value_request_at_a_new_point_updates_the_quasi_newton_object
    {C : Collaborators} (s s1 : ScalarFunction.t) (x : vec) (f : float) :
  ScalarFacts.reachable s ->
  isinstance_HessianUpdateStrategy (ScalarFunction._orig_hess s) = true ->
  array_equal x (ScalarFunction.x_ s) = false ->
  ScalarFunction.fun_ x s = Ok (f, s1) ->
  (ScalarFunction.g_updated s1 = true /\
   ScalarFunction.H_updated s1 = true /\
   ScalarFunction.x_prev s1 = Some (ScalarFunction.x_ s) /\
   ScalarFunction.g_prev s1 = ScalarFunction.g_ s) /\
  exists dx dg,
    np_sub x (ScalarFunction.x_ s) = Ok dx /\
    In (EvUpdate dx dg) (ScalarFunction.trace s1) /\
    count is_EvUpdate (ScalarFunction.trace s1)
    = count is_EvUpdate (ScalarFunction.trace s) + 1.
Proof.
  intros Hr Hqn Hx Hrun. apply ScalarFacts.reachable_Inv in Hr.
  pose proof Hr as [HW Hqg].
  enough (Hw : wp (ScalarFunction.fun_ x) s
                 (fun _ s1 =>
                    (ScalarFunction.g_updated s1 = true /\
                     ScalarFunction.H_updated s1 = true /\
                     ScalarFunction.x_prev s1 = Some (ScalarFunction.x_ s) /\
                     ScalarFunction.g_prev s1 = ScalarFunction.g_ s) /\
                    exists dx dg,
                      np_sub x (ScalarFunction.x_ s) = Ok dx /\
                      In (EvUpdate dx dg) (ScalarFunction.trace s1) /\
                      count is_EvUpdate (ScalarFunction.trace s1)
                      = count is_EvUpdate (ScalarFunction.trace s) + 1)
                 may_raise)
    by exact (wp_elim _ _ _ _ _ _ Hw Hrun).
  clear Hrun.
  unfold ScalarFunction.fun_. do 3 wp_step. rewrite Hx. cbn.
  unfold ScalarFunction._update_x. do 2 wp_step. rewrite Hqn.
  wp_step.
  wp_call ScalarFacts._update_grad_spec; [exact HW|].
  intros [] s' (_ & _ & _ & _ & _ & Hsame & _).
  rewrite (Hsame (Hqg Hqn)). clear s' Hsame.
  repeat wp_step. cbn.
  destruct (ScalarFunction.g_ s) as [g|] eqn:Hgv; [|exact I].
  repeat wp_step.
  set (sa := ScalarFunction.set_H_updated false _).
  assert (HWa : ScalarFacts.W sa) by apply ScalarFacts.W_moved, HW.
  wp_call ScalarMore._update_hess_quasi_newton;
    [exact HWa | reflexivity | exact Hqn |].
  intros [] s2 (HW2 & Hr2 & Hg2 & HH2 & dx & dg & pre & Hdx & Htr2 & Hcnt).
  wp_step.
  wp_call ScalarFacts._update_fun_spec; [exact HW2|].
  intros [] s3 (HW3 & Hr3 & Hf3 & Hg3 & HH3 & _ & _ & _ & Htr3).
  wp_step.
  destruct (ScalarFunction.f_ s3); [|exact I].
  destruct (ScalarFacts.upd_rel_trans _ _ _ Hr2 Hr3)
    as [_ _ _ _ [Hxp Hgp] _].
  cbn in Hxp, Hgp, Hdx, Htr2.
  split; [repeat split; congruence|].
  exists dx, dg. split; [exact Hdx|].
  rewrite Htr3, Htr2. split.
  - apply in_or_app. left. apply in_or_app. right.
    apply in_or_app. right. left. reflexivity.
  - rewrite !count_app, Hcnt.
    destruct (ScalarFunction.f_updated s2);
      rewrite ?count_cons, ?count_nil; cbn; lia.
Qed.

Lemma value_request_at_a_new_point_updates_the_quasi_newton_object_witness :
  exists s0 s1,
    @ScalarFunction.__init__ Reference.collaborators Reference.sphere
       [1%float; 1%float] (Callable Reference.sphere_grad)
       (Strategy Reference.fresh) tt
    = Ok s0 /\
    ScalarFunction.fun_ [2%float; 1%float] s0 = Ok (5%float, s1) /\
    ScalarFunction.x_prev s1 = Some [1%float; 1%float] /\
    count is_EvUpdate (ScalarFunction.trace s1) = 1.
Proof.
  returned (@ScalarFunction.__init__ Reference.collaborators Reference.sphere
              [1%float; 1%float] (Callable Reference.sphere_grad)
              (Strategy Reference.fresh) tt) s0 Hs.
  returned (ScalarFunction.fun_ [2%float; 1%float] s0) r Hr.
  exists s0, (snd r). split; [exact Hs|]. split; [exact Hr|].
  destruct (value_request_at_a_new_point_updates_the_quasi_newton_object
              s0 (snd r) [2%float; 1%float] (fst r))
    as ((_ & _ & Hxp & _) & dx & dg & _ & _ & Hcnt).
  - exists Reference.sphere, [1%float; 1%float],
      (Callable Reference.sphere_grad), (Strategy Reference.fresh), tt, s0,
      [].
    split; [exact Hs | reflexivity].
  - reflexivity.
  - vm_compute. reflexivity.
  - exact Hr.
  - split; [exact Hxp | exact Hcnt].
Defined.

(** * Further properties of the vector engine *)

Module VectorMore.
Import VectorFunction.

Section More.
Context {C : Collaborators}.

Lemma jac_returns x s J s1 : jac x s = Ok (J, s1) -> J_ s1 = Some J.
Proof.
  unfold jac, bind, attr.
  destruct (_update_x x s) as [[[] sa]|]; [|discriminate].
  destruct (_update_jac sa) as [[[] sb]|]; [|discriminate].
  destruct (J_ sb) eqn:E0; intros H; inversion H; subst; exact E0.
Qed.

Lemma hess_returns_v x v s H s1 : hess x v s = Ok (H, s1) -> H_ s1 = Some H.
Proof.
  unfold hess, bind, attr.
  destruct (_update_v v s) as [[[] s0]|]; [|discriminate].
  destruct (_update_x x s0) as [[[] sa]|]; [|discriminate].
  destruct (_update_hess sa) as [[[] sb]|]; [|discriminate].
  destruct (H_ sb) eqn:E0; intros E1; inversion E1; subst; exact E0.
Qed.

Lemma jac_cached x s J :
  array_equal x (x_ s) = true -> J_updated s = true -> J_ s = Some J ->
  jac x s = Ok (J, s).
Proof.
  intros Hx Hf Hv. apply wp_exact. VectorFacts.wp_exec. split; reflexivity.
Qed.

Lemma hess_cached_v x v v' s H :
  array_equal x (x_ s) = true -> v_ s = Some v' ->
  array_equal v v' = true -> H_updated s = true -> H_ s = Some H ->
  hess x v s = Ok (H, s).
Proof.
  intros Hx Hv Hvv Hf HH. apply wp_exact. VectorFacts.wp_exec.
  split; reflexivity.
Qed.

(** A Jacobian request leaves the Jacobian valid at the point it moved
    to. *)
Lemma jac_valid x s :
  VectorFacts.Inv s ->
  wp (jac x) s
     (fun _ s' => J_updated s' = true /\ x_ s' = VectorFacts.moved_to x s)
     may_raise.
Proof.
  intros HI. pose proof HI as [HW Hqj]. unfold jac, VectorFacts.moved_to.
  wp_step. destruct (array_equal x (x_ s)) eqn:Hx.
  - rewrite (wp_exact_intro _ _ _ _ may_raise
               (VectorFacts._update_x_same _ _ Hx)).
    wp_step.
    wp_call VectorFacts._update_jac_spec; [exact HW|].
    intros [] s1 (HW1 & Hr1 & HJ1 & _).
    repeat wp_step. destruct (J_ s1); [|exact I].
    split; [exact HJ1 | apply (VectorFacts.upd_x _ _ Hr1)].
  - wp_call VectorFacts._update_x_spec_v; [exact HI | exact Hx|].
    intros [] s1 (HW1 & _ & Hx1 & _).
    wp_step.
    wp_call VectorFacts._update_jac_spec; [exact HW1|].
    intros [] s2 (HW2 & Hr2 & HJ2 & _).
    repeat wp_step. destruct (J_ s2); [|exact I].
    split; [exact HJ2|]. rewrite (VectorFacts.upd_x _ _ Hr2). exact Hx1.
Qed.

(** With a finite-difference Jacobian, refreshing a stale Jacobian
    makes the function value valid first. *)
Lemma _update_jac_fd s :
  VectorFacts.W s -> in_FD_METHODS (_orig_jac s) = true ->
  J_updated s = false ->
  wp _update_jac s (fun _ s' => f_updated s' = true) may_raise.
Proof.
  intros HW Hfd HJ. unfold _update_jac.
  repeat wp_step. rewrite HJ. cbn. rewrite Hfd.
  repeat wp_step.
  wp_call VectorFacts._update_fun_spec_v; [exact HW|].
  intros [] s1 (_ & _ & Hf1 & _).
  VectorFacts.wp_exec; try exact I; reflexivity.
Qed.

Lemma _update_hess_fd_jac s :
  VectorFacts.W s -> in_FD_METHODS (_orig_jac s) = true ->
  H_updated s = false -> J_updated s = false ->
  isinstance_HessianUpdateStrategy (_orig_hess s) = true ->
  wp _update_hess s (fun _ s' => f_updated s' = true) may_raise.
Proof.
  intros HW Hfd HH HJ Hqn. unfold _update_hess.
  repeat wp_step. rewrite HH. cbn.
  destruct (_orig_hess s) as [| |h|] eqn:Hoh; try discriminate. cbn.
  repeat wp_step.
  wp_call (_update_jac_fd s HW Hfd HJ).
  intros [] s1 Hf1.
  VectorFacts.wp_exec; try exact I; reflexivity.
Qed.

(** A move with a finite-difference Jacobian: the lazy engine marks the
    caches stale, the eager one has already evaluated the function. *)
Lemma _update_x_fd_jac x s :
  VectorFacts.Inv s -> in_FD_METHODS (_orig_jac s) = true ->
  array_equal x (x_ s) = false ->
  wp (_update_x x) s
     (fun _ s' =>
        if isinstance_HessianUpdateStrategy (_orig_hess s)
        then f_updated s' = true
        else f_updated s' = false /\ J_updated s' = false)
     may_raise.
Proof.
  intros [HW Hqj] Hfd Hx. unfold _update_x.
  repeat wp_step. rewrite Hx. cbn.
  destruct (isinstance_HessianUpdateStrategy (_orig_hess s)) eqn:Hqn.
  - repeat wp_step.
    wp_call VectorFacts._update_jac_spec; [exact HW|].
    intros [] s1 (_ & _ & _ & _ & _ & _ & _ & Hsame).
    rewrite (Hsame (Hqj eq_refl)). clear s1 Hsame.
    repeat wp_step. cbn.
    destruct (J_ s) as [J|]; [|exact I].
    repeat wp_step.
    set (sa := set_H_updated false _).
    assert (HWa : VectorFacts.W sa)
      by (apply VectorFacts.W_moved_v; [exact HW | discriminate]).
    wp_call (_update_hess_fd_jac sa HWa);
      [exact Hfd | reflexivity | reflexivity | exact Hqn |].
    intros [] s2 Hf2. exact Hf2.
  - repeat wp_step. cbn. split; reflexivity.
Qed.

End More.
End VectorMore.

(** X8: a Jacobian request at a point without NaN entries, repeated at
    once, is answered from the cache: the second call returns the same
    Jacobian and leaves the vector engine, its counters included,
    untouched. *)
Theorem repeated_jacobian_request_is_memoized {C : Collaborators}
    (s s1 : VectorFunction.t) (x : vec) (J : array2) :
  VectorFacts.reachable s -> array_equal x x = true ->
  VectorFunction.jac x s = Ok (J, s1) ->
  VectorFunction.jac x s1 = Ok (J, s1).
Proof.
  intros Hr Hxx Hrun. apply VectorFacts.reachable_Inv_v in Hr.
  pose proof (wp_elim _ _ _ _ _ _ (VectorMore.jac_valid x s Hr) Hrun)
    as (HJ & Hx).
  apply VectorMore.jac_cached;
    [rewrite Hx; apply moved_to_equal_v, Hxx | exact HJ
    | apply (VectorMore.jac_returns _ _ _ _ Hrun)].
Qed.

Lemma repeated_jacobian_request_is_memoized_witness :
  exists s0 r,
    @VectorFunction.__init__ Reference.collaborators Reference.bilinear
       [1%float; 1%float] (Str "2-point") (Strategy Reference.fresh) None tt
    = Ok s0 /\
    VectorFunction.jac [2%float; 1%float] s0 = Ok r /\
    VectorFunction.jac [2%float; 1%float] (snd r) = Ok r.
Proof.
  returned (@VectorFunction.__init__ Reference.collaborators
              Reference.bilinear [1%float; 1%float] (Str "2-point")
              (Strategy Reference.fresh) None tt) s0 Hs.
  returned (VectorFunction.jac [2%float; 1%float] s0) r Hr.
  exists s0, r. split; [exact Hs|]. split; [exact Hr|].
  apply (repeated_jacobian_request_is_memoized s0 (snd r)
           [2%float; 1%float] (fst r)).
  - exists Reference.bilinear, [1%float; 1%float], (Str "2-point"),
      (Strategy Reference.fresh), None, tt, s0, [].
    split; [exact Hs | reflexivity].
  - vm_compute. reflexivity.
  - exact Hr.
Defined.

(** X9: a Hessian request of the vector engine at a point and with
    multipliers without NaN entries, repeated at once with the same
    arguments, is answered from the cache: the second call returns the
    same Hessian and leaves the engine untouched. *)
Theorem repeated_vector_hessian_request_is_memoized {C : Collaborators}
    (s s1 : VectorFunction.t) (x v : vec) (H : hessian) :
  VectorFacts.reachable s ->
  array_equal x x = true -> array_equal v v = true ->
  VectorFunction.hess x v s = Ok (H, s1) ->
  VectorFunction.hess x v s1 = Ok (H, s1).
Proof.
  intros Hr Hxx Hvv Hrun. apply VectorFacts.reachable_Inv_v in Hr.
  pose proof (wp_elim _ _ _ _ _ _ (VectorFacts.hess_spec_v x v s Hr) Hrun)
    as (_ & _ & HH & Hx & v' & Hv & Hvv').
  apply (VectorMore.hess_cached_v x v v');
    [rewrite Hx; apply moved_to_equal_v, Hxx | exact Hv | | exact HH
    | apply (VectorMore.hess_returns_v _ _ _ _ _ Hrun)].
  destruct Hvv' as [->|Hvv']; assumption.
Qed.

Lemma repeated_vector_hessian_request_is_memoized_witness :
  exists s0 r,
    @VectorFunction.__init__ Reference.collaborators Reference.bilinear
       [1%float; 1%float] (Callable Reference.bilinear_jac)
       (Callable Reference.bilinear_hess) None tt
    = Ok s0 /\
    VectorFunction.hess [2%float; 1%float] [3%float; 0%float] s0 = Ok r /\
    VectorFunction.hess [2%float; 1%float] [3%float; 0%float] (snd r)
    = Ok r.
Proof.
  returned (@VectorFunction.__init__ Reference.collaborators
              Reference.bilinear [1%float; 1%float]
              (Callable Reference.bilinear_jac)
              (Callable Reference.bilinear_hess) None tt) s0 Hs.
  returned (VectorFunction.hess [2%float; 1%float] [3%float; 0%float] s0)
    r Hr.
  exists s0, r. split; [exact Hs|]. split; [exact Hr|].
  apply (repeated_vector_hessian_request_is_memoized s0 (snd r)
           [2%float; 1%float] [3%float; 0%float] (fst r)).
  - exists Reference.bilinear, [1%float; 1%float],
      (Callable Reference.bilinear_jac), (Callable Reference.bilinear_hess),
      None, tt, s0, [].
    split; [exact Hs | reflexivity].
  - vm_compute. reflexivity.
  - vm_compute. reflexivity.
  - exact Hr.
Defined.

(** X10: in a vector engine with a finite-difference Jacobian, a
    Jacobian request at a point [x] other than the current one makes the
    engine call the user function exactly once, at [x], for the base
    value of the differences; the value is cached, so a value request at
    [x] that follows returns it and leaves the engine untouched. *)
Theorem fd_jacobian_caches_the_base_value {C : Collaborators}
    (s s1 : VectorFunction.t) (x : vec) (J : array2) :
  VectorFacts.reachable s ->
  in_FD_METHODS (VectorFunction._orig_jac s) = true ->
  array_equal x (VectorFunction.x_ s) = false ->
  array_equal x x = true ->
  VectorFunction.jac x s = Ok (J, s1) ->
  VectorFacts.E s1 = VectorFacts.E s ++ [x] /\
  VectorFunction.f_ s1 = Some (VectorFunction._orig_fun s x) /\
  VectorFunction.fun_ x s1 = Ok (VectorFunction._orig_fun s x, s1).
Proof.
  intros Hr Hfd Hx Hxx Hrun. apply VectorFacts.reachable_Inv_v in Hr.
  pose proof Hr as [HW Hqj].
  enough (Hw : wp (VectorFunction.jac x) s
                 (fun _ s1 =>
                    VectorFacts.W s1 /\ VectorFunction.f_updated s1 = true /\
                    VectorFunction.x_ s1 = x /\
                    VectorFunction._orig_fun s1 = VectorFunction._orig_fun s /\
                    VectorFacts.E s1 = VectorFacts.E s ++ [x]) may_raise).
  { pose proof (wp_elim _ _ _ _ _ _ Hw Hrun) as (HW1 & Hf & Hx1 & Hc & HE).
    pose proof (VectorFacts.W_f _ HW1 Hf) as Hfv. rewrite Hc, Hx1 in Hfv.
    split; [exact HE|]. split; [exact Hfv|].
    apply VectorFacts.fun_cached_v; [rewrite Hx1; exact Hxx | exact Hf
                                     | exact Hfv]. }
  clear Hrun. unfold VectorFunction.jac. wp_step.
  eapply wp_use;
    [apply wp_and;
       [apply (VectorFacts._update_x_spec_v x s Hr Hx)
       |apply (VectorMore._update_x_fd_jac x s Hr Hfd Hx)]
    | intros; exact I |].
  intros [] sa ((HWa & (c1 & c2 & c3 & c4) & Hxa & _ & Hqa & HEa & _)
                & Hcase).
  wp_step.
  destruct (isinstance_HessianUpdateStrategy (VectorFunction._orig_hess s))
    eqn:Hqn.
  - wp_call VectorFacts._update_jac_spec; [exact HWa|].
    intros [] sb (_ & _ & _ & _ & _ & _ & _ & Hsame).
    rewrite (Hsame (Hqa eq_refl)). clear sb Hsame.
    repeat wp_step. destruct (VectorFunction.J_ sa); [|exact I].
    split; [exact HWa|]. split; [exact Hcase|]. split; [exact Hxa|].
    split; [exact c1|]. rewrite HEa, Hcase. reflexivity.
  - destruct Hcase as [Hfa HJa].
    assert (Hfda : in_FD_METHODS (VectorFunction._orig_jac sa) = true)
      by (rewrite c2; exact Hfd).
    eapply wp_use;
      [apply wp_and;
         [apply (VectorFacts._update_jac_spec sa HWa)
         |apply (VectorMore._update_jac_fd sa HWa Hfda HJa)]
      | intros; exact I |].
    intros [] sb ((HWb & Hrb & _) & Hfb).
    repeat wp_step. destruct (VectorFunction.J_ sb); [|exact I].
    destruct Hrb as [(d1 & _) Hxb _ _ _ _ HEb _ _].
    split; [exact HWb|]. split; [exact Hfb|]. split; [congruence|].
    split; [congruence|].
    rewrite HEb, HEa, Hfa, Hfb, Hxa, app_nil_r. reflexivity.
Qed.

Lemma fd_jacobian_caches_the_base_value_witness :
  exists s0 r,
    @VectorFunction.__init__ Reference.collaborators Reference.bilinear
       [1%float; 1%float] (Str "2-point") (Callable Reference.bilinear_hess)
       None tt
    = Ok s0 /\
    VectorFunction.jac [2%float; 1%float] s0 = Ok r /\
    VectorFunction.fun_ [2%float; 1%float] (snd r)
    = Ok ([2%float; 3%float], snd r).
Proof.
  returned (@VectorFunction.__init__ Reference.collaborators
              Reference.bilinear [1%float; 1%float] (Str "2-point")
              (Callable Reference.bilinear_hess) None tt) s0 Hs.
  returned (VectorFunction.jac [2%float; 1%float] s0) r Hr.
  exists s0, r. split; [exact Hs|]. split; [exact Hr|].
  destruct (fd_jacobian_caches_the_base_value s0 (snd r)
              [2%float; 1%float] (fst r))
    as (_ & _ & Hv).
  - exists Reference.bilinear, [1%float; 1%float], (Str "2-point"),
      (Callable Reference.bilinear_hess), None, tt, s0, [].
    split; [exact Hs | reflexivity].
  - reflexivity.
  - vm_compute. reflexivity.
  - vm_compute. reflexivity.
  - exact Hr.
  - exact Hv.
Defined.

(** * Further properties of the linear functions *)

Lemma matrix_by_rows (a b : matrix) :
  rows a = rows b -> issparse a = issparse b -> a = b.
Proof. destruct a, b; cbn; intros -> E0; congruence. Qed.

Lemma eye_rows_length (n : nat) :
  List.length (IdentityVectorFunction.eye_rows n) = n.
Proof.
  unfold IdentityVectorFunction.eye_rows.
  rewrite length_map. apply length_seq.
Qed.

Lemma eye_rows_square (n : nat) (r : vec) :
  In r (IdentityVectorFunction.eye_rows n) -> List.length r = n.
Proof.
  unfold IdentityVectorFunction.eye_rows. intros Hr.
  apply in_map_iff in Hr. destruct Hr as (i & <- & _).
  rewrite length_map. apply length_seq.
Qed.

Lemma eye_shape (n : nat) :
  match IdentityVectorFunction.eye_rows n with
  | [] => 0
  | r :: _ => List.length r
  end = n.
Proof.
  pose proof (eye_rows_length n) as Hl.
  pose proof (eye_rows_square n) as Hs.
  destruct (IdentityVectorFunction.eye_rows n) as [|r rs].
  - exact Hl.
  - apply Hs. left. reflexivity.
Qed.

Lemma dot_eye_returns (a : matrix) (x : vec) :
  rows a = IdentityVectorFunction.eye_rows (List.length x) ->
  exists f, dot a x = Ok f.
Proof.
  intros Ha. unfold dot. rewrite Ha.
  assert (Hall : forallb (fun r => Nat.eqb (List.length r) (List.length x))
                   (IdentityVectorFunction.eye_rows (List.length x)) = true).
  { apply forallb_forall. intros r Hr. apply Nat.eqb_eq.
    apply (eye_rows_square _ r Hr). }
  rewrite Hall. eexists. reflexivity.
Qed.

(** X11: a value request of a linear function at a point without NaN
    entries, repeated at once, is answered from the cache, whatever the
    state of the engine: the second call returns the same array and
    leaves the engine untouched. *)
Theorem repeated_linear_value_request_is_memoized
    (s s1 : LinearVectorFunction.t) (x f : vec) :
  array_equal x x = true ->
  LinearVectorFunction.fun_ x s = Ok (f, s1) ->
  LinearVectorFunction.fun_ x s1 = Ok (f, s1).
Proof.
  intros Hxx Hrun.
  assert (Hpost : LinearVectorFunction.f_updated s1 = true /\
                  LinearVectorFunction.f_ s1 = f /\
                  array_equal x (LinearVectorFunction.x_ s1) = true).
  { revert Hrun.
    enough (Hw : wp (LinearVectorFunction.fun_ x) s
                   (fun f s1 =>
                      LinearVectorFunction.f_updated s1 = true /\
                      LinearVectorFunction.f_ s1 = f /\
                      array_equal x (LinearVectorFunction.x_ s1) = true)
                   may_raise)
      by (intros Hrun; exact (wp_elim _ _ _ _ _ _ Hw Hrun)).
    unfold LinearVectorFunction.fun_, LinearVectorFunction._update_x.
    wp_run; try exact I; cbn; repeat split; assumption. }
  destruct Hpost as (Hf & Hfv & Hx).
  apply wp_exact.
  unfold LinearVectorFunction.fun_, LinearVectorFunction._update_x.
  wp_run. split; reflexivity.
Qed.

Lemma repeated_linear_value_request_is_memoized_witness :
  exists s0 r,
    LinearVectorFunction.__init__
      (Dense [[1%float; 0%float]; [1%float; 0%float]; [0%float; 1%float]])
      [0%float; 0%float] None = Ok s0 /\
    LinearVectorFunction.fun_ [3%float; 4%float] s0 = Ok r /\
    LinearVectorFunction.fun_ [3%float; 4%float] (snd r) = Ok r.
Proof.
  returned (LinearVectorFunction.__init__
              (Dense [[1%float; 0%float]; [1%float; 0%float];
                      [0%float; 1%float]])
              [0%float; 0%float] None) s0 Hs.
  returned (LinearVectorFunction.fun_ [3%float; 4%float] s0) r Hr.
  exists s0, r. split; [exact Hs|]. split; [exact Hr|].
  apply (repeated_linear_value_request_is_memoized s0 (snd r)
           [3%float; 4%float] (fst r)).
  - vm_compute. reflexivity.
  - exact Hr.
Defined.

(** X12: [IdentityVectorFunction.__init__] never fails.  For a point of
    [n] entries it builds the linear function of the [n] by [n]
    identity, held sparse unless [sparse_jacobian] is [False], with the
    sparse [n] by [n] zero Hessian; and after any sequence of calls a
    Jacobian request at any point still returns that identity. *)
Theorem identity_function_is_built_from_the_identity (x0 : vec)
    (sparse_jacobian : option bool) :
  exists s0,
    IdentityVectorFunction.__init__ x0 sparse_jacobian = Ok s0 /\
    LinearVectorFunction.x_ s0 = x0 /\
    LinearVectorFunction.J_ s0 =
      (if match sparse_jacobian with Some false => false | _ => true end
       then Sparse (IdentityVectorFunction.eye_rows (List.length x0))
       else Dense (IdentityVectorFunction.eye_rows (List.length x0))) /\
    LinearVectorFunction.H_ s0
    = csr_zeros (List.length x0) (List.length x0) /\
    forall calls s x,
      run linear_step calls s0 = Ok (tt, s) ->
      exists s',
        LinearVectorFunction.jac x s = Ok (LinearVectorFunction.J_ s0, s').
Proof.
  set (n := List.length x0).
  set (sp := match sparse_jacobian with Some false => false | _ => true end).
  assert (Hinit :
            IdentityVectorFunction.__init__ x0 sparse_jacobian
            = LinearVectorFunction.__init__
                (if sp then Sparse (IdentityVectorFunction.eye_rows n)
                 else Dense (IdentityVectorFunction.eye_rows n))
                x0 (Some sp)).
  { unfold IdentityVectorFunction.__init__, sp, n.
    destruct sparse_jacobian as [[|]|]; reflexivity. }
  assert (Hok : exists s0,
             LinearVectorFunction.__init__
               (if sp then Sparse (IdentityVectorFunction.eye_rows n)
                else Dense (IdentityVectorFunction.eye_rows n))
               x0 (Some sp) = Ok s0 /\
             LinearVectorFunction.x_ s0 = x0 /\
             LinearVectorFunction.J_ s0
             = (if sp then Sparse (IdentityVectorFunction.eye_rows n)
                else Dense (IdentityVectorFunction.eye_rows n)) /\
             LinearVectorFunction.H_ s0 = csr_zeros n n).
  { unfold LinearVectorFunction.__init__.
    destruct sp; cbn [issparse csr_array toarray rows shape fst snd].
    - destruct (dot_eye_returns
                  (csr_array (Sparse (IdentityVectorFunction.eye_rows n)))
                  x0 eq_refl) as (f & ->).
      eexists. split; [reflexivity|]. cbn. rewrite (eye_shape n).
      repeat split.
    - destruct (dot_eye_returns (Dense (IdentityVectorFunction.eye_rows n))
                  x0 eq_refl) as (f & ->).
      eexists. split; [reflexivity|]. cbn. rewrite (eye_shape n).
      repeat split. }
  destruct Hok as (s0 & Hs0 & Hx & HJ & HH).
  exists s0. rewrite Hinit. split; [exact Hs0|]. split; [exact Hx|].
  split; [exact HJ|]. split; [exact HH|].
  intros calls s x Hrun.
  pose proof (LinearFacts.init_built _ _ _ _ Hs0) as HB0.
  pose proof (wp_elim _ _ _ _ _ _
                (LinearFacts.run_spec_l _ _ calls s0 HB0) Hrun) as HB.
  destruct (wp_succeeds _ _ _ (LinearFacts.jac_spec_l _ _ x s HB))
    as (J & s' & Hjac & _ & ->).
  exists s'. rewrite Hjac. do 2 f_equal.
  destruct HB as (Hr & Hi & _), HB0 as (Hr0 & Hi0 & _).
  apply matrix_by_rows; congruence.
Qed.

